(** * Optolithium core: a shallow embedding of the numerical pipeline

    The development follows the C++ sources of the core library
    (OptolithiumC): geometry primitives ([opl_geometry.cpp]), the mask and
    diffraction engine, the resist models and the wafer stack
    ([opl_capi.cpp], [opl_capi.h]), the one-dimensional convolutions
    ([opl_conv.h]), the pipeline stages ([opl_sim.cpp]) and the small
    butterflies of the Fourier library ([libs/fourier]).

    Numbers.  A C [double] is modelled by a real number of the Standard
    Library: the operations are the exact ones, comparisons are decided by
    [Req_dec_T] and [Rlt_dec], and the constant [M_PI] is [PI].  Integers
    ([int32_t], [uint32_t], armadillo's [uword]) are [Z] with the wrap-around
    written out where the source can reach it.  Containers: a [std::vector]
    or an armadillo vector is a [list]; armadillo matrices are stored
    column-major as the library does, and are read and updated with the list
    lookup and insert of stdpp.

    Failures.  A thrown exception is a value of the result.  Where the
    arithmetic of the source leaves the finite doubles (a division by zero,
    the root of a negative number) or a run reads outside a container, the
    model answers [None] or [Undefined].  The cubes of the resist volumes
    live behind [std::shared_ptr]; they are kept in a store by address. *)

From Stdlib Require Import Reals Lra Lia ZArith Bool.
From stdpp Require Import base option list gmap.

Local Open Scope R_scope.

(** ** Doubles and their comparisons *)

#[global] Instance R_inhabited : Inhabited R := populate 0.

Definition Reqb (a b : R) : bool := if Req_dec_T a b then true else false.
Definition Rltb (a b : R) : bool := if Rlt_dec a b then true else false.
Definition Rleb (a b : R) : bool := if Rle_dec a b then true else false.

Lemma Reqb_true_iff (a b : R) : Reqb a b = true <-> a = b.
Proof. unfold Reqb. destruct (Req_dec_T a b); split; congruence. Qed.

Lemma Reqb_false_iff (a b : R) : Reqb a b = false <-> a <> b.
Proof. unfold Reqb. destruct (Req_dec_T a b); split; congruence. Qed.

Lemma Reqb_refl (a : R) : Reqb a a = true.
Proof. by apply Reqb_true_iff. Qed.

Lemma Rltb_true_iff (a b : R) : Rltb a b = true <-> a < b.
Proof. unfold Rltb. destruct (Rlt_dec a b); split; (congruence || tauto). Qed.

Lemma Rltb_false_iff (a b : R) : Rltb a b = false <-> b <= a.
Proof.
  unfold Rltb. destruct (Rlt_dec a b); split; try congruence; lra.
Qed.

Lemma Rleb_true_iff (a b : R) : Rleb a b = true <-> a <= b.
Proof. unfold Rleb. destruct (Rle_dec a b); split; (congruence || tauto). Qed.

Ltac case_Reqb a b :=
  let E := fresh "E" in
  destruct (Reqb a b) eqn:E;
  [apply Reqb_true_iff in E | apply Reqb_false_iff in E].

Ltac case_Rltb a b :=
  let E := fresh "E" in
  destruct (Rltb a b) eqn:E;
  [apply Rltb_true_iff in E | apply Rltb_false_iff in E].

(** Decide every comparison of doubles in the goal, closing the branches
    that linear arithmetic refutes. *)
Ltac Rbool :=
  repeat match goal with
  | |- context [Reqb ?a ?b] =>
      case_Reqb a b; try (exfalso; lra); try lra
  | |- context [Rltb ?a ?b] =>
      case_Rltb a b; try (exfalso; lra); try lra
  end.

(** ** Complex doubles ([arma::cx_double], [std::complex<double>]) *)

Record cx_double : Type := mk_cx { re : R; im : R }.

#[global] Instance cx_double_inhabited : Inhabited cx_double := populate (mk_cx 0 0).

Definition cx_of (x : R) : cx_double := mk_cx x 0.
Definition c_zero : cx_double := mk_cx 0 0.
Definition c_rone : cx_double := mk_cx 1 0.
(** [const arma::cx_double j = arma::cx_double(0.0, 1.0)] *)
Definition j : cx_double := mk_cx 0 1.

Definition c_add (a b : cx_double) := mk_cx (re a + re b) (im a + im b).
Definition c_sub (a b : cx_double) := mk_cx (re a - re b) (im a - im b).
Definition c_neg (a : cx_double) := mk_cx (- re a) (- im a).
Definition c_mul (a b : cx_double) :=
  mk_cx (re a * re b - im a * im b) (re a * im b + im a * re b).
(** complex by real, the mixed operators of [std::complex] *)
Definition c_scale (s : R) (a : cx_double) := mk_cx (s * re a) (s * im a).
Definition c_muls (a : cx_double) (s : R) := mk_cx (re a * s) (im a * s).
Definition c_divv (a : cx_double) (v : R) := mk_cx (re a / v) (im a / v).
Definition c_div (a b : cx_double) :=
  let d := re b * re b + im b * im b in
  mk_cx ((re a * re b + im a * im b) / d) ((im a * re b - re a * im b) / d).
Definition c_rdiv (s : R) (b : cx_double) := c_div (mk_cx s 0) b.
Definition c_radd (s : R) (a : cx_double) := mk_cx (s + re a) (im a).
Definition c_rsub (s : R) (a : cx_double) := mk_cx (s - re a) (- im a).
(** [std::exp] of a complex number *)
Definition c_exp (a : cx_double) :=
  mk_cx (exp (re a) * cos (im a)) (exp (re a) * sin (im a)).
Definition c_eqb (a b : cx_double) : bool := Reqb (re a) (re b) && Reqb (im a) (im b).

Declare Scope cx_scope.
Delimit Scope cx_scope with cx.
Bind Scope cx_scope with cx_double.
Infix "+" := c_add : cx_scope.
Infix "-" := c_sub : cx_scope.
Infix "*" := c_mul : cx_scope.
Infix "/" := c_div : cx_scope.
Notation "- a" := (c_neg a) : cx_scope.

Lemma cx_ext (a b : cx_double) : re a = re b -> im a = im b -> a = b.
Proof. destruct a, b; simpl; congruence. Qed.

Lemma c_eqb_true_iff (a b : cx_double) : c_eqb a b = true <-> a = b.
Proof.
  unfold c_eqb. rewrite andb_true_iff, !Reqb_true_iff. split.
  - intros [? ?]. by apply cx_ext.
  - by intros ->.
Qed.

Lemma c_add_zero_l (a : cx_double) : (c_zero + a)%cx = a.
Proof. apply cx_ext; simpl; lra. Qed.

Lemma c_add_zero_r (a : cx_double) : (a + c_zero)%cx = a.
Proof. apply cx_ext; simpl; lra. Qed.

Lemma c_add_assoc (a b c : cx_double) : (a + (b + c))%cx = (a + b + c)%cx.
Proof. apply cx_ext; simpl; lra. Qed.

Lemma c_add_comm (a b : cx_double) : (a + b)%cx = (b + a)%cx.
Proof. apply cx_ext; simpl; lra. Qed.

(** ** Geometry ([opl_geometry.h], [opl_geometry.cpp]) *)

Module geometry.

(** [typedef enum { CW = 1, CCW = -1 } rotation_type_t] *)
Inductive rotation_type_t : Type := CW | CCW.

Definition rotation_value (d : rotation_type_t) : R :=
  match d with CW => 1 | CCW => -1 end.

(** [typedef enum { DIM_1D_X = 0, DIM_1D_Y = 1, DIM_2D = 2 } dimension_t] *)
Inductive dimension_t : Type := DIM_1D_X | DIM_1D_Y | DIM_2D.

Definition dimension_value (a : dimension_t) : Z :=
  match a with DIM_1D_X => 0 | DIM_1D_Y => 1 | DIM_2D => 2 end%Z.

Definition dimension_eqb (a b : dimension_t) : bool :=
  (dimension_value a =? dimension_value b)%Z.

Record Point2d : Type := mkPoint2d { p_x : R; p_y : R }.

(** [Point2d::operator[](uint32_t i)]: [(i == 0) ? x : y] *)
Definition point_at (p : Point2d) (i : Z) : R :=
  if (i =? 0)%Z then p_x p else p_y p.

Definition point_add (p q : Point2d) := mkPoint2d (p_x p + p_x q) (p_y p + p_y q).
Definition point_sub (p q : Point2d) := mkPoint2d (p_x p - p_x q) (p_y p - p_y q).
Definition point_divs (p : Point2d) (s : R) := mkPoint2d (p_x p / s) (p_y p / s).
Definition point_eqb (p q : Point2d) : bool :=
  Reqb (p_x p) (p_x q) && Reqb (p_y p) (p_y q).

(** [typedef Point2d Sizes] *)
Abbreviation Sizes := Point2d.

Record Edge2d : Type := mkEdge2d { org : Point2d; dst : Point2d }.

(** [Edge2d::flip]: swaps the two coordinates of [org] and [dst]. *)
Definition flip (e : Edge2d) : Edge2d :=
  mkEdge2d (mkPoint2d (p_x (dst e)) (p_y (dst e)))
           (mkPoint2d (p_x (org e)) (p_y (org e))).

Definition is_vertical (e : Edge2d) : bool := Reqb (p_x (org e)) (p_x (dst e)).
Definition is_horizontal (e : Edge2d) : bool := Reqb (p_y (org e)) (p_y (dst e)).
Definition dx (e : Edge2d) : R := p_x (dst e) - p_x (org e).
Definition dy (e : Edge2d) : R := p_y (dst e) - p_y (org e).
Definition sizes (e : Edge2d) : Sizes := point_sub (dst e) (org e).

(** [Edge2d::slope]: [dy/dx] when [dx != 0]; the other branch of the source
    returns [dy * INFINITY], which is no real number: [None]. *)
Definition slope (e : Edge2d) : option R :=
  if Reqb (dx e) 0 then None else Some (dy e / dx e).

(** [Edge2d::area]: the trapezoid between the edge and the x axis. *)
Definition area (e : Edge2d) : R := dx e * (p_y (dst e) + p_y (org e)) / 2.

(** [AbstractGeometry]: the edge vector and the axis. *)
Record AbstractGeometry : Type := mkGeometry {
  _edges : list Edge2d;
  _axis : dimension_t
}.

(** [AbstractGeometry::signed_area].  In the one-dimensional branch the
    source reads [this->front()]; on an empty edge vector that is undefined
    behaviour, here [None]. *)
Definition signed_area (g : AbstractGeometry) : option R :=
  match _axis g with
  | DIM_2D => Some (fold_left (fun result edge => result + area edge) (_edges g) 0)
  | axis =>
      match _edges g with
      | e :: _ =>
          Some (point_at (dst e) (dimension_value axis)
                - point_at (org e) (dimension_value axis))
      | [] => None
      end
  end.

(** [AbstractGeometry::set_bypass]: the flag [corrected] and the geometry
    after the call. *)
Definition set_bypass (direction : rotation_type_t) (g : AbstractGeometry)
  : option (bool * AbstractGeometry) :=
  area ← signed_area g;
  Some (if Rltb (rotation_value direction * area) 0
        then (true, mkGeometry (map flip (rev (_edges g))) (_axis g))
        else (false, g)).

(** [PolygonGeometry::is_1d_possible], [is_2d_possible] and the constructor
    from a point sequence; [None] is the [std::invalid_argument]. *)
Definition is_1d_possible (points : list Point2d) : bool :=
  match points with
  | [p0; p1] =>
      let edge := mkEdge2d p0 p1 in is_vertical edge || is_horizontal edge
  | _ => false
  end.

Definition is_2d_possible (points : list Point2d) : bool :=
  (3 <=? length points)%nat.

Fixpoint chain_edges (previous_point : Point2d) (rest : list Point2d) : list Edge2d :=
  match rest with
  | [] => []
  | current_point :: rest' =>
      mkEdge2d previous_point current_point :: chain_edges current_point rest'
  end.

Definition PolygonGeometry (points : list Point2d) : option AbstractGeometry :=
  match points with
  | [] => None
  | front :: rest =>
      let back := List.last points front in
      if is_1d_possible points then
        let edge := mkEdge2d back front in
        Some (mkGeometry [edge] (if is_horizontal edge then DIM_1D_X else DIM_1D_Y))
      else if is_2d_possible points then
        Some (mkGeometry (chain_edges front rest ++ [mkEdge2d back front]) DIM_2D)
      else None
  end.

(** [RectangleGeometry]: the diagonal, the sizes and the edges. *)
Record RectangleGeometry : Type := mkRectangle {
  rect_geometry : AbstractGeometry;
  _diag : Edge2d;
  _sizes : Sizes
}.

Definition Rectangle (lb rt : Point2d) : RectangleGeometry :=
  let diag := mkEdge2d lb rt in
  let sz := sizes diag in
  let g :=
    if negb (Reqb (p_x sz) 0) && negb (Reqb (p_y sz) 0) then
      mkGeometry
        [ mkEdge2d (mkPoint2d (p_x lb) (p_y lb)) (mkPoint2d (p_x rt) (p_y lb));
          mkEdge2d (mkPoint2d (p_x rt) (p_y lb)) (mkPoint2d (p_x rt) (p_y rt));
          mkEdge2d (mkPoint2d (p_x rt) (p_y rt)) (mkPoint2d (p_x lb) (p_y rt));
          mkEdge2d (mkPoint2d (p_x lb) (p_y rt)) (mkPoint2d (p_x lb) (p_y lb)) ]
        DIM_2D
    else if negb (Reqb (p_x sz) 0) then mkGeometry [diag] DIM_1D_X
    else mkGeometry [diag] DIM_1D_Y in
  mkRectangle g diag sz.

Definition left_bottom (r : RectangleGeometry) : Point2d := org (_diag r).
Definition right_top (r : RectangleGeometry) : Point2d := dst (_diag r).

(** [RectangleGeometry::set_bypass]: the diagonal is flipped with the edges. *)
Definition rect_set_bypass (direction : rotation_type_t) (r : RectangleGeometry)
  : option (bool * RectangleGeometry) :=
  '(corrected, g) ← set_bypass direction (rect_geometry r);
  Some (if corrected : bool
        then (true, mkRectangle g (flip (_diag r)) (_sizes r))
        else (false, mkRectangle g (_diag r) (_sizes r))).

(** A geometry as the constructors build it: a one-dimensional one holds
    exactly one edge. *)
Definition well_formed (g : AbstractGeometry) : Prop :=
  match _axis g with
  | DIM_2D => True
  | _ => length (_edges g) = 1%nat
  end.

(** *** Three-dimensional points, edges and triangles *)

Record Point3d : Type := mkPoint3d { q_x : R; q_y : R; q_z : R }.

(** [Point3d::operator==] and [operator!=] as written in the source. *)
Definition point3d_eq (p q : Point3d) : bool :=
  Reqb (q_x p) (q_x q) && Reqb (q_y p) (q_y q).

Definition point3d_ne (p q : Point3d) : bool :=
  negb (Reqb (q_x p) (q_x q)) || negb (Reqb (q_y p) (q_y q)).

Record Edge3d : Type := mkEdge3d { org3 : Point3d; dst3 : Point3d }.

Definition edge3d_eq (e f : Edge3d) : bool :=
  point3d_eq (org3 e) (org3 f) && point3d_eq (dst3 e) (dst3 f).

Record Triangle3d : Type := mkTriangle3d { _a : Point3d; _b : Point3d; _c : Point3d }.

(** [Triangle3d::operator[]]; [None] is the [std::out_of_range]. *)
Definition triangle_at (t : Triangle3d) (i : Z) : option Point3d :=
  if (i =? 0)%Z then Some (_a t)
  else if (i =? 1)%Z then Some (_b t)
  else if (i =? 2)%Z then Some (_c t)
  else None.

(** [Triangle3d::operator==]: [*_a == other[0] && *_b == other[1] && *_c == other[2]] *)
Definition triangle3d_eq (t other : Triangle3d) : option bool :=
  o0 ← triangle_at other 0;
  o1 ← triangle_at other 1;
  o2 ← triangle_at other 2;
  Some (point3d_eq (_a t) o0 && point3d_eq (_b t) o1 && point3d_eq (_c t) o2).

End geometry.

(** *** Orientation of polygons *)

Module geometry_facts.
Import geometry.

Lemma area_flip (e : Edge2d) : area (flip e) = - area e.
Proof. unfold area, dx, flip; simpl. lra. Qed.

(** The running sum of [signed_area], started at [acc]. *)
Definition sum_areas (acc : R) (edges : list Edge2d) : R :=
  fold_left (fun result edge => result + area edge) edges acc.

Lemma sum_areas_shift (edges : list Edge2d) (acc : R) :
  sum_areas acc edges = acc + sum_areas 0 edges.
Proof.
  revert acc. induction edges as [|e edges IH]; intros acc; simpl.
  - unfold sum_areas; simpl. lra.
  - unfold sum_areas in *; simpl. rewrite (IH (acc + area e)), (IH (0 + area e)). lra.
Qed.

Lemma sum_areas_app (xs ys : list Edge2d) :
  sum_areas 0 (xs ++ ys) = sum_areas 0 xs + sum_areas 0 ys.
Proof.
  unfold sum_areas. rewrite fold_left_app.
  fold (sum_areas (fold_left (fun result edge => result + area edge) xs 0) ys).
  by rewrite sum_areas_shift.
Qed.

Lemma sum_areas_cons (e : Edge2d) (edges : list Edge2d) :
  sum_areas 0 (e :: edges) = area e + sum_areas 0 edges.
Proof.
  change (sum_areas 0 (e :: edges)) with (sum_areas (0 + area e) edges).
  rewrite sum_areas_shift. lra.
Qed.

(** Reversing the chain and flipping every edge negates the sum. *)
Lemma sum_areas_reversed (edges : list Edge2d) :
  sum_areas 0 (map flip (rev edges)) = - sum_areas 0 edges.
Proof.
  induction edges as [|e edges IH]; simpl.
  - unfold sum_areas; simpl. lra.
  - rewrite map_app, sum_areas_app, IH. simpl.
    rewrite (sum_areas_shift edges (0 + area e)), area_flip. lra.
Qed.

Lemma signed_area_reversed_2d (edges : list Edge2d) (a : R) :
  signed_area (mkGeometry edges DIM_2D) = Some a ->
  signed_area (mkGeometry (map flip (rev edges)) DIM_2D) = Some (- a).
Proof.
  unfold signed_area; simpl. intros [= <-]. f_equal. apply sum_areas_reversed.
Qed.

Lemma signed_area_reversed_1d (e : Edge2d) (ax : dimension_t) (a : R) :
  ax <> DIM_2D ->
  signed_area (mkGeometry [e] ax) = Some a ->
  signed_area (mkGeometry (map flip (rev [e])) ax) = Some (- a).
Proof.
  intros Hax. unfold signed_area; destruct ax; try done; simpl;
    intros [= <-]; f_equal; unfold point_at; simpl; lra.
Qed.

Lemma signed_area_defined (g : AbstractGeometry) :
  well_formed g -> exists a, signed_area g = Some a.
Proof.
  destruct g as [edges ax]. unfold well_formed, signed_area; simpl.
  destruct ax; intros Hwf; eauto;
    destruct edges as [|e [|]]; simpl in Hwf; try discriminate; eauto.
Qed.

Lemma signed_area_reversed (g : AbstractGeometry) (a : R) :
  well_formed g ->
  signed_area g = Some a ->
  signed_area (mkGeometry (map flip (rev (_edges g))) (_axis g)) = Some (- a).
Proof.
  destruct g as [edges ax]. unfold well_formed; simpl. intros Hwf Ha.
  destruct ax.
  - destruct edges as [|e [|]]; simpl in Hwf; try discriminate.
    by apply signed_area_reversed_1d.
  - destruct edges as [|e [|]]; simpl in Hwf; try discriminate.
    by apply signed_area_reversed_1d.
  - by apply signed_area_reversed_2d.
Qed.

(** What [set_bypass] returns, in terms of the area before the call. *)
Lemma set_bypass_unfold (d : rotation_type_t) (g : AbstractGeometry) (a : R) :
  signed_area g = Some a ->
  set_bypass d g =
    Some (if Rltb (rotation_value d * a) 0
          then (true, mkGeometry (map flip (rev (_edges g))) (_axis g))
          else (false, g)).
Proof. intros Ha. unfold set_bypass. by rewrite Ha. Qed.

(** C9, as the code has it: [CW] is the value [+1], so [set_bypass(CW)]
    leaves a polygon whose [signed_area()] is non-negative and
    [set_bypass(CCW)] one whose [signed_area()] is non-positive; the edge
    chain is reversed (order reversed, every edge flipped) exactly when
    [direction * signed_area() < 0]. *)
Theorem set_bypass_orientation (g : AbstractGeometry) :
  well_formed g ->
  exists a : R,
    signed_area g = Some a /\
    (forall d : rotation_type_t,
       exists (corrected : bool) (g' : AbstractGeometry) (a' : R),
         set_bypass d g = Some (corrected, g') /\
         signed_area g' = Some a' /\
         0 <= rotation_value d * a' /\
         (corrected = true <-> rotation_value d * a < 0) /\
         g' = (if corrected
               then mkGeometry (map flip (rev (_edges g))) (_axis g)
               else g)) /\
    (exists g' a', set_bypass CW g = Some (Rltb a 0, g') /\
                   signed_area g' = Some a' /\ 0 <= a') /\
    (exists g' a', set_bypass CCW g = Some (Rltb 0 a, g') /\
                   signed_area g' = Some a' /\ a' <= 0).
Proof.
  intros Hwf. destruct (signed_area_defined g Hwf) as [a Ha].
  exists a. split; [done|].
  assert (Hgen : forall d : rotation_type_t,
       exists (corrected : bool) (g' : AbstractGeometry) (a' : R),
         set_bypass d g = Some (corrected, g') /\
         signed_area g' = Some a' /\
         0 <= rotation_value d * a' /\
         (corrected = true <-> rotation_value d * a < 0) /\
         g' = (if corrected
               then mkGeometry (map flip (rev (_edges g))) (_axis g)
               else g)).
  { intros d. rewrite (set_bypass_unfold d g a Ha).
    case_Rltb (rotation_value d * a) 0.
    - exists true, (mkGeometry (map flip (rev (_edges g))) (_axis g)), (- a).
      repeat split; try done.
      + by apply signed_area_reversed.
      + lra.
    - exists false, g, a. repeat split; try done. lra. }
  split; [exact Hgen|]. split.
  - destruct (Hgen CW) as (c & g' & a' & Hs & Ha' & Hpos & Hc & _).
    exists g', a'. simpl in *. repeat split; try done; [|lra].
    rewrite Hs. do 2 f_equal.
    case_Rltb a 0.
    + apply Hc. lra.
    + destruct c; [|done]. exfalso. destruct Hc as [Hc _]. specialize (Hc eq_refl). lra.
  - destruct (Hgen CCW) as (c & g' & a' & Hs & Ha' & Hpos & Hc & _).
    exists g', a'. simpl in *. repeat split; try done; [|lra].
    rewrite Hs. do 2 f_equal.
    case_Rltb 0 a.
    + apply Hc. lra.
    + destruct c; [|done]. exfalso. destruct Hc as [Hc _]. specialize (Hc eq_refl). lra.
Qed.

(** A one-dimensional polygon as [PolygonGeometry] builds it from the points
    [(1,0)] and [(0,0)]: the edge runs from the last point to the first. *)
Definition unit_edge_x : AbstractGeometry :=
  mkGeometry [mkEdge2d (mkPoint2d 0 0) (mkPoint2d 1 0)] DIM_1D_X.

Lemma unit_edge_x_built :
  PolygonGeometry [mkPoint2d 1 0; mkPoint2d 0 0] = Some unit_edge_x.
Proof.
  unfold PolygonGeometry, is_1d_possible, is_vertical, is_horizontal; simpl.
  Rbool; try done.
Qed.

Lemma unit_edge_x_area : signed_area unit_edge_x = Some 1.
Proof. unfold signed_area, point_at; simpl. f_equal. lra. Qed.

(** C9 as the specification states it fails: after [set_bypass(CW)] this
    polygon has the positive signed area 1. *)
Lemma set_bypass_cw_positive_area :
  well_formed unit_edge_x /\
  set_bypass CW unit_edge_x = Some (false, unit_edge_x) /\
  signed_area unit_edge_x = Some 1 /\
  0 < 1.
Proof.
  split; [done|]. split; [|split; [apply unit_edge_x_area|lra]].
  rewrite (set_bypass_unfold CW _ 1 unit_edge_x_area); simpl.
  f_equal. Rbool; try done.
Qed.

Lemma set_bypass_orientation_witness :
  well_formed unit_edge_x /\
  exists a : R,
    signed_area unit_edge_x = Some a /\
    (forall d : rotation_type_t,
       exists (corrected : bool) (g' : AbstractGeometry) (a' : R),
         set_bypass d unit_edge_x = Some (corrected, g') /\
         signed_area g' = Some a' /\
         0 <= rotation_value d * a' /\
         (corrected = true <-> rotation_value d * a < 0) /\
         g' = (if corrected
               then mkGeometry (map flip (rev (_edges unit_edge_x))) (_axis unit_edge_x)
               else unit_edge_x)) /\
    (exists g' a', set_bypass CW unit_edge_x = Some (Rltb a 0, g') /\
                   signed_area g' = Some a' /\ 0 <= a') /\
    (exists g' a', set_bypass CCW unit_edge_x = Some (Rltb 0 a, g') /\
                   signed_area g' = Some a' /\ a' <= 0).
Proof.
  split; [reflexivity|]. apply (set_bypass_orientation unit_edge_x). reflexivity.
Defined.

(** *** Equality of three-dimensional points *)

(** C10: [Point3d::operator==] compares [x] and [y] only, [operator!=] is
    its negation, and the equalities of [Edge3d] and [Triangle3d], which are
    built on it, ignore [z] as well. *)
Theorem point3d_eq_ignores_z :
  (forall p q : Point3d,
     point3d_eq p q = true <-> q_x p = q_x q /\ q_y p = q_y q) /\
  (forall x y z1 z2 : R,
     point3d_eq (mkPoint3d x y z1) (mkPoint3d x y z2) = true /\
     point3d_ne (mkPoint3d x y z1) (mkPoint3d x y z2) = false) /\
  (forall p q : Point3d, point3d_ne p q = negb (point3d_eq p q)) /\
  (forall e f : Edge3d,
     edge3d_eq e f = true <->
       (q_x (org3 e) = q_x (org3 f) /\ q_y (org3 e) = q_y (org3 f)) /\
       (q_x (dst3 e) = q_x (dst3 f) /\ q_y (dst3 e) = q_y (dst3 f))) /\
  (forall t u : Triangle3d,
     triangle3d_eq t u = Some true <->
       (q_x (_a t) = q_x (_a u) /\ q_y (_a t) = q_y (_a u)) /\
       (q_x (_b t) = q_x (_b u) /\ q_y (_b t) = q_y (_b u)) /\
       (q_x (_c t) = q_x (_c u) /\ q_y (_c t) = q_y (_c u))).
Proof.
  assert (Hp : forall p q : Point3d,
     point3d_eq p q = true <-> q_x p = q_x q /\ q_y p = q_y q).
  { intros p q. unfold point3d_eq. by rewrite andb_true_iff, !Reqb_true_iff. }
  split; [exact Hp|]. split; [|split; [|split]].
  - intros x y z1 z2. unfold point3d_eq, point3d_ne; simpl.
    by rewrite !Reqb_refl.
  - intros p q. unfold point3d_ne, point3d_eq. by rewrite negb_andb.
  - intros e f. unfold edge3d_eq. by rewrite andb_true_iff, !Hp.
  - intros t u. unfold triangle3d_eq; simpl. split.
    + intros [= H]. rewrite !andb_true_iff, !Hp in H. tauto.
    + intros (Ha & Hb & Hc). f_equal. rewrite !andb_true_iff, !Hp. tauto.
Qed.

End geometry_facts.

(** ** Armadillo containers *)

(** [arma::Mat<A>]: [n_rows], [n_cols] and the elements in column-major
    order, so that the element [(r, c)] is the linear element
    [c * n_rows + r]. *)
Record mat (A : Type) : Type := mkMat {
  n_rows : nat;
  n_cols : nat;
  mem : list A
}.
Arguments mkMat {A} _ _ _.
Arguments n_rows {A} _.
Arguments n_cols {A} _.
Arguments mem {A} _.

(** [arma::Mat(rows, cols, fill)] with every element [x]. *)
Definition mat_fill {A : Type} (rows cols : nat) (x : A) : mat A :=
  mkMat rows cols (replicate (rows * cols) x).

Definition linear_index {A : Type} (m : mat A) (r c : nat) : nat :=
  (c * n_rows m + r)%nat.

(** [m(i)] and [m(r, c)] as reads. *)
Definition mat_elem {A : Type} (m : mat A) (i : nat) : option A := mem m !! i.

Definition mat_at {A : Type} (m : mat A) (r c : nat) : option A :=
  if decide (r < n_rows m ∧ c < n_cols m)%nat
  then mem m !! linear_index m r c else None.

(** [m(i) = f(m(i))], the update in place of one element. *)
Definition mat_update {A : Type} (f : A -> A) (i : nat) (m : mat A) : mat A :=
  mkMat (n_rows m) (n_cols m) (alter f i (mem m)).

(** [arma::find(m == x)]: the linear indices of the elements that satisfy
    the test, in increasing order. *)
Definition mat_find {A : Type} (test : A -> bool) (m : mat A) : list nat :=
  List.filter (fun i => match mem m !! i with Some x => test x | None => false end)
              (seq 0 (length (mem m))).

(** [m.elem(indices) += x] *)
Definition mat_elem_add (indices : list nat) (x : cx_double) (m : mat cx_double) : mat cx_double :=
  fold_left (fun acc i => mat_update (fun v => (v + x)%cx) i acc) indices m.

(** [arma::accu] on a vector of doubles *)
Definition accu (v : list R) : R := fold_left Rplus v 0.

(** ** Masks, source shapes and the diffraction engine ([opl_capi.h], [opl_capi.cpp]) *)

Module oplc.
Import geometry.

Definition M_PI : R := PI.

(** A [double] converted to an unsigned integer: truncation toward zero
    (the conversion is undefined in C when the value is out of range). *)
Definition trunc (x : R) : Z := if Rltb x 0 then Zceil x else Zfloor x.

(** [_etransmit]: [std::sqrt(transmit) * std::exp(j*phase*M_PI/180.0)] *)
Definition _etransmit (transmit phase : R) : cx_double :=
  c_scale (sqrt transmit) (c_exp (c_divv (c_muls (c_muls j phase) M_PI) 180)).

(** [Region]: a polygon with its mask attributes; [Box]: a rectangle with
    them. *)
Record Region : Type := mkRegion {
  region_geometry : AbstractGeometry;
  region_transmittance : R;
  region_phase : R
}.

Record Box : Type := mkBox {
  box_rectangle : RectangleGeometry;
  box_transmittance : R;
  box_phase : R
}.

Definition make_Region (points : list Point2d) (transmittance phase : R) : option Region :=
  g ← PolygonGeometry points; Some (mkRegion g transmittance phase).

Definition make_Box (lb rt : Point2d) (transmittance phase : R) : Box :=
  mkBox (Rectangle lb rt) transmittance phase.

Definition region_etransmit (r : Region) : cx_double :=
  _etransmit (region_transmittance r) (region_phase r).

Definition box_etransmit (b : Box) : cx_double :=
  _etransmit (box_transmittance b) (box_phase b).

(** *** Mask *)

Record Mask : Type := mkMask {
  _regions : list Region;
  _boundary : Box;
  _sizes : Sizes
}.

(** [Mask::_make_region]: a copy of the region, turned to [CW] and moved by
    the centre offset. *)
Definition _make_region (region : Region) (center_offset : Point2d) : option Region :=
  '(_, g) ← set_bypass CW (region_geometry region);
  Some (mkRegion
          (mkGeometry
             (map (fun edge => mkEdge2d (point_sub (org edge) center_offset)
                                        (point_sub (dst edge) center_offset))
                  (_edges g))
             (_axis g))
          (region_transmittance region) (region_phase region)).

Definition make_Mask (regions : list Region) (boundary : Box) : option Mask :=
  let lb0 := left_bottom (box_rectangle boundary) in
  let rt0 := right_top (box_rectangle boundary) in
  let center_offset := point_add lb0 (point_divs (point_sub rt0 lb0) 2) in
  rs ← mapM (fun region => _make_region region center_offset) regions;
  let lb := point_sub lb0 center_offset in
  let rt := point_sub rt0 center_offset in
  let b := make_Box lb rt (box_transmittance boundary) (box_phase boundary) in
  Some (mkMask rs b (geometry._sizes (box_rectangle b))).

Definition mask_pitch (m : Mask) : Sizes := _sizes m.
Definition is_opaque (m : Mask) : bool := Reqb (box_transmittance (_boundary m)) 0.
Definition is_clear (m : Mask) : bool := negb (is_opaque m).
Definition is_bad (m : Mask) : bool := Reqb (p_x (_sizes m)) 0 && Reqb (p_y (_sizes m)) 0.
Definition is_1d (m : Mask) : bool := Reqb (p_x (_sizes m)) 0 || Reqb (p_y (_sizes m)) 0.

(** *** SourceShape *)

(** The fields the constructor precomputes: the direction cosines of the
    grid, the intensities, the (row, column) indices of the non-zero points
    and the limits of the non-zero support. *)
Record SourceShape : Type := mkSourceShape {
  ss_cx : list R;
  ss_cy : list R;
  ss_values : mat R;
  ss_non_zeros : list (nat * nat);
  _sx_min : R;
  _sx_max : R;
  _sy_min : R;
  _sy_max : R
}.

(** [SourceShape::_clim] *)
Definition _clim : R := 1.

(** [SourceShape::_init_vectors]: the direction cosines [k * step] for
    [k = i - median]. *)
Definition ss_init_vectors (step : R) : list Z * list R :=
  let count := trunc (2 * _clim / step + 1) in
  let median := trunc (IZR count / 2) in
  let k := map (fun i => (Z.of_nat i - median)%Z) (seq 0 (Z.to_nat count)) in
  (k, map (fun ki => IZR ki * step) k).

(** [SourceShape::_init_values]: [values(r, c) = model(cx(c), cy(r))]. *)
Definition ss_init_values (cx cy : list R) (model : R -> R -> R) : mat R :=
  mkMat (length cy) (length cx)
        (flat_map (fun xc => map (fun yr => model xc yr) cy) cx).

(** [SourceShape::_get_non_zeros_indexes] *)
Definition _get_non_zeros_indexes (values : mat R) : list (nat * nat) :=
  map (fun i => (i mod n_rows values, i / n_rows values)%nat)
      (mat_find (fun v => negb (Reqb v 0)) values).

Definition min_index (l : list nat) : option nat :=
  match l with [] => None | x :: l' => Some (fold_left Nat.min l' x) end.

Definition max_index (l : list nat) : option nat :=
  match l with [] => None | x :: l' => Some (fold_left Nat.max l' x) end.

(** [SourceShape::_get_limits]; [arma::min] of an empty vector fails. *)
Definition _get_limits (non_zeros : list (nat * nat)) (cx cy : list R)
  : option (R * R * R * R) :=
  r_min ← min_index (map fst non_zeros);
  r_max ← max_index (map fst non_zeros);
  c_min ← min_index (map snd non_zeros);
  c_max ← max_index (map snd non_zeros);
  sx_min ← cx !! c_min;
  sx_max ← cx !! c_max;
  sy_min ← cy !! r_min;
  sy_max ← cy !! r_max;
  Some (sx_min, sx_max, sy_min, sy_max).

(** The second half of the constructor: the non-zero points of the
    intensity matrix and the limits of their support. *)
Definition SourceShape_of_grid (cx cy : list R) (values : mat R) : option SourceShape :=
  let non_zeros := _get_non_zeros_indexes values in
  '(sx_min, sx_max, sy_min, sy_max) ← _get_limits non_zeros cx cy;
  Some (mkSourceShape cx cy values non_zeros sx_min sx_max sy_min sy_max).

(** [SourceShape::SourceShape(model, stepx, stepy)] *)
Definition make_SourceShape (model : R -> R -> R) (stepx stepy : R) : option SourceShape :=
  let cx := snd (ss_init_vectors stepx) in
  let cy := snd (ss_init_vectors stepy) in
  SourceShape_of_grid cx cy (ss_init_values cx cy model).

(** *** ImagingTool: the fields the diffraction engine reads *)

Record ImagingTool : Type := mkImagingTool {
  _source_shape : SourceShape;
  tool_wavelength : R;
  tool_numeric_aperture : R
}.

(** [within_circle(dx, dy, r)] and its five-argument overload *)
Definition within_circle3 (dx dy r : R) : bool :=
  let adx := Rabs dx in
  let ady := Rabs dy in
  if Rleb (adx + ady) r then true
  else if Rltb r adx || Rltb r ady then false
  else if Rleb (adx * adx + ady * ady) (r * r) then true
  else false.

Definition within_circle (x y cx cy r : R) : bool := within_circle3 (x - cx) (y - cy) r.

(** *** Diffraction *)

Record Diffraction : Type := mkDiffraction {
  _values : mat cx_double;
  _frqx : list R;
  _frqy : list R;
  _kx : list Z;
  _ky : list Z;
  _cxy : mat R;
  _cx : list R;
  _cy : list R;
  source_shape : SourceShape;
  pitch : Sizes;
  numeric_aperture : R;
  wavelength : R
}.

Definition set_values (d : Diffraction) (v : mat cx_double) : Diffraction :=
  mkDiffraction v (_frqx d) (_frqy d) (_kx d) (_ky d) (_cxy d) (_cx d) (_cy d)
                (source_shape d) (pitch d) (numeric_aperture d) (wavelength d).

(** [Diffraction::_calc_size]: the limits of the order index along one
    axis; [None] is the [std::invalid_argument] for [cs_min > cs_max]. *)
Definition _calc_size (na wvl pitch cs_min cs_max : R) : option (Z * Z) :=
  if Rltb cs_max cs_min then None
  else
    let k_min := (- Zfloor (na * (1 - cs_min) / wvl * pitch))%Z in
    let k_max := Zfloor (na * (1 + cs_max) / wvl * pitch) in
    Some (k_min, k_max).

(** [uint32_t cols = lim.second - lim.first + 1] *)
Definition limits_count (lim : Z * Z) : nat :=
  Z.to_nat ((snd lim - fst lim + 1) mod 2 ^ 32).

(** [Diffraction::_init_vectors]: orders, spatial frequencies and direction
    cosines of one axis, over vectors of [n] zeros. *)
Definition _init_vectors (n : nat) (pitch wavelength : R) (limits : Z * Z)
  : list Z * list R * list R :=
  if Reqb pitch 0 then
    (<[0%nat := 0%Z]> (replicate n 0%Z),
     <[0%nat := 0]> (replicate n 0),
     <[0%nat := 0]> (replicate n 0))
  else
    let k := map (fun i => (fst limits + Z.of_nat i)%Z) (seq 0 n) in
    let frq := map (fun ki => IZR ki / pitch) k in
    let dcos := map (fun f => f * wavelength) frq in
    (k, frq, dcos).

(** [Diffraction::_init_cosines]: [cxy(r, c) = sqrt(cx(c)^2 + cy(r)^2)] *)
Definition _init_cosines (cx cy : list R) : mat R :=
  mkMat (length cy) (length cx)
        (flat_map (fun xc => map (fun yr => sqrt (xc * xc + yr * yr)) cy) cx).

(** The constructor [Diffraction::Diffraction(mask, imaging_tool)]. *)
Definition make_Diffraction (mask : Mask) (imaging_tool : ImagingTool) : option Diffraction :=
  let ss := _source_shape imaging_tool in
  let na := tool_numeric_aperture imaging_tool in
  let wvl := tool_wavelength imaging_tool in
  let pitch := mask_pitch mask in
  lim_cols ← _calc_size na wvl (p_x pitch) (_sx_min ss) (_sx_max ss);
  lim_rows ← _calc_size na wvl (p_y pitch) (_sy_min ss) (_sy_max ss);
  let cols := limits_count lim_cols in
  let rows := limits_count lim_rows in
  let '(kx, frqx, cx) := _init_vectors cols (p_x pitch) wvl lim_cols in
  let '(ky, frqy, cy) := _init_vectors rows (p_y pitch) wvl lim_rows in
  Some (mkDiffraction (mat_fill rows cols c_zero) frqx frqy kx ky
                      (_init_cosines cx cy) cx cy ss pitch na wvl).

(** [Diffraction::_select_axis]; [None] is the [std::runtime_error]. *)
Definition _select_axis {T : Type} (axis : dimension_t) (x y : T) : option T :=
  match axis with
  | DIM_1D_X => Some x
  | DIM_1D_Y => Some y
  | DIM_2D => None
  end.

(** The value of one order in [Diffraction::_add_1d_region]. *)
Definition term_1d (k : Z) (frq org dst : R) : cx_double :=
  if (k =? 0)%Z then cx_of (dst - org)
  else
    let w := c_muls (c_scale (2 * M_PI) j) frq in
    (c_neg (c_exp (c_muls (c_neg w) dst) - c_exp (c_muls (c_neg w) org)) / w)%cx.

(** [Diffraction::_add_1d_region]: [values(i) += factor*value] for every
    index [i] of the order vector of the region's axis; [values(i)] is the
    linear element [i] of the matrix. *)
Definition _add_1d_region (d : Diffraction) (region : Region) (factor : cx_double)
  : option Diffraction :=
  r ← head (_edges (region_geometry region));
  let axis := _axis (region_geometry region) in
  let dst := point_at (geometry.dst r) (dimension_value axis) in
  let org := point_at (geometry.org r) (dimension_value axis) in
  k ← _select_axis axis (_kx d) (_ky d);
  frq ← _select_axis axis (_frqx d) (_frqy d);
  Some (set_values d
          (fold_left
             (fun values i =>
                let value := term_1d (k !!! i) (frq !!! i) org dst in
                mat_update (fun v => (v + factor * value)%cx) i values)
             (seq 0 (length k)) (_values d))).

(** The summand of one edge in [Diffraction::_calc_2d_region]. *)
Definition edge_term_2d (e : Edge2d) (kx ky : Z) (frqx frqy : R) : cx_double :=
  let dx := dx e in
  if Reqb dx 0 then c_zero
  else
    match slope e with
    | None => c_zero
    | Some s =>
      let dy := dy e in
      let b := p_y (geometry.dst e) - s * p_x (geometry.dst e) in
      let x0 := p_x (geometry.org e) in
      let x1 := p_x (geometry.dst e) in
      if (kx =? 0)%Z && (ky =? 0)%Z then cx_of (area e)
      else if (kx =? 0)%Z && negb (ky =? 0)%Z then
        let wy := c_muls (c_scale (2 * M_PI) j) frqy in
        if Reqb dy 0 then
          (c_rdiv dx wy * c_rsub 1 (c_exp (c_muls (- wy) b)))%cx
        else
          (c_rdiv dx wy
           + (c_divv (c_exp (c_muls (- wy) b)) s / wy / wy)
             * (c_exp (c_muls (c_scale (- s) wy) x1) - c_exp (c_muls (c_scale (- s) wy) x0)))%cx
      else if negb (kx =? 0)%Z && (ky =? 0)%Z then
        let wx := c_muls (c_scale (2 * M_PI) j) frqx in
        if Reqb dy 0 then
          (c_rdiv b wx * (c_exp (c_muls (- wx) x0) - c_exp (c_muls (- wx) x1)))%cx
        else
          let ex0 := c_exp (c_muls (- wx) x0) in
          let ex1 := c_exp (c_muls (- wx) x1) in
          (c_radd s (c_muls wx b) * (ex0 - ex1) / wx / wx
           + c_scale s (c_muls ex0 x0 - c_muls ex1 x1) / wx)%cx
      else
        let wx := c_muls (c_scale (2 * M_PI) j) frqx in
        let wy := c_muls (c_scale (2 * M_PI) j) frqy in
        if Reqb dy 0 then
          (c_rsub 1 (c_exp (c_muls (- wy) b))
           * (c_exp (c_muls (- wx) x0) - c_exp (c_muls (- wx) x1)) / wx / wy)%cx
        else if c_eqb (wx + c_scale s wy)%cx c_zero then
          ((c_exp (c_muls (- wx) x0) - c_exp (c_muls (- wx) x1)) / wx / wy
           - c_scale dx (c_exp (c_muls (- wy) b)) / wy)%cx
        else
          let coef := (wx + c_scale s wy)%cx in
          let dexp := (c_exp (c_muls (- wx) x0) - c_exp (c_muls (- wx) x1))%cx in
          (dexp / wx / wy
           + c_exp (c_muls (- wy) b) / wy
             * (c_exp (c_muls (- coef) x1) - c_exp (c_muls (- coef) x0)) / coef)%cx
    end.

(** [Diffraction::_calc_2d_region]: the sum over the edges of the region. *)
Definition _calc_2d_region (region : Region) (kx ky : Z) (frqx frqy : R) : cx_double :=
  fold_left (fun result e => (result + edge_term_2d e kx ky frqx frqy)%cx)
            (_edges (region_geometry region)) c_zero.

(** The iteration space of [Diffraction::_add_2d_region]: source points
    outermost, then columns, then rows. *)
Definition visits_2d (d : Diffraction) : list (nat * nat * nat * nat) :=
  flat_map (fun rc : nat * nat =>
    flat_map (fun c => map (fun r => (fst rc, snd rc, c, r)) (seq 0 (length (_ky d))))
             (seq 0 (length (_kx d))))
    (ss_non_zeros (source_shape d)).

(** One pass of the loop body: the values and the flags [calculated]. *)
Definition step_2d (d : Diffraction) (region : Region) (factor : cx_double)
    (st : mat cx_double * mat bool) (v : nat * nat * nat * nat)
  : mat cx_double * mat bool :=
  let '(sr, sc, c, r) := v in
  let '(values, calculated) := st in
  let na := numeric_aperture d in
  let scx := na * (ss_cx (source_shape d) !!! sc) in
  let scy := na * (ss_cy (source_shape d) !!! sr) in
  let kx := _kx d !!! c in
  let cx := _cx d !!! c in
  let frqx := _frqx d !!! c in
  let ky := _ky d !!! r in
  let cy := _cy d !!! r in
  let frqy := _frqy d !!! r in
  let i := linear_index values r c in
  if negb (mem calculated !!! i)
     && (Rleb (mem (_cxy d) !!! i) na || within_circle cx cy scx scy na)
  then (mat_update (fun v => (v + factor * _calc_2d_region region kx ky frqx frqy)%cx) i values,
        mat_update (fun _ => true) i calculated)
  else (values, calculated).

Definition _add_2d_region (d : Diffraction) (region : Region) (factor : cx_double)
  : Diffraction :=
  let values := _values d in
  let calculated := mat_fill (n_rows values) (n_cols values) false in
  set_values d (fst (fold_left (step_2d d region factor) (visits_2d d) (values, calculated))).

(** [Diffraction::add_region] *)
Definition add_region (d : Diffraction) (region : Region) (factor : cx_double)
  : option Diffraction :=
  match _axis (region_geometry region) with
  | DIM_2D =>
      Some (_add_2d_region d region
              (c_divv (c_divv factor (p_x (pitch d))) (p_y (pitch d))))
  | axis =>
      _add_1d_region d region
        (c_divv factor (point_at (pitch d) (dimension_value axis)))
  end.

End oplc.

(** ** The pipeline stage [diffraction] ([opl_sim.cpp]) *)

Module sim.
Import geometry oplc.

(** The loop [for (auto region : *mask)] of [diffraction]. *)
Fixpoint add_regions (d : Diffraction) (boundary : Box) (regions : list Region)
  : option Diffraction :=
  match regions with
  | [] => Some d
  | region :: rest =>
      let factor := (region_etransmit region - box_etransmit boundary)%cx in
      d' ← add_region d region factor;
      add_regions d' boundary rest
  end.

(** [values.elem(arma::find(cxy == 0.0)) += factor], guarded by
    [!mask->is_opaque()]. *)
Definition add_background (d : Diffraction) (mask : Mask) : Diffraction :=
  if negb (is_opaque mask) then
    let factor := box_etransmit (_boundary mask) in
    set_values d (mat_elem_add (mat_find (fun c => Reqb c 0) (_cxy d)) factor (_values d))
  else d.

(** [diffraction(imaging_tool, mask)]; [None] stands for the exceptions. *)
Definition diffraction (imaging_tool : ImagingTool) (mask : Mask) : option Diffraction :=
  if is_bad mask then None
  else
    d0 ← make_Diffraction mask imaging_tool;
    d ← add_regions d0 (_boundary mask) (_regions mask);
    Some (add_background d mask).

End sim.

(** *** Facts on matrices updated in place *)

Module arma_facts.

(** Element-wise sum of two matrices of the same shape. *)
Definition mat_add (a b : mat cx_double) : mat cx_double :=
  mkMat (n_rows b) (n_cols b) (zip_with c_add (mem a) (mem b)).

Lemma alter_zip_with_add (a v : list cx_double) (i : nat) (inc : cx_double) :
  alter (fun x => (x + inc)%cx) i (zip_with c_add a v)
  = zip_with c_add a (alter (fun x => (x + inc)%cx) i v).
Proof.
  revert v i. induction a as [|x a IH]; intros [|y v] i; simpl; try done.
  destruct i as [|i]; simpl.
  - by rewrite c_add_assoc.
  - f_equal. apply IH.
Qed.

Lemma mat_update_add (a v : mat cx_double) (i : nat) (inc : cx_double) :
  mat_update (fun x => (x + inc)%cx) i (mat_add a v)
  = mat_add a (mat_update (fun x => (x + inc)%cx) i v).
Proof. unfold mat_update, mat_add; simpl. by rewrite alter_zip_with_add. Qed.

(** A loop that adds [inc i] to the element [i], for the indices of a list. *)
Definition add_at (inc : nat -> cx_double) (indices : list nat) (m : mat cx_double)
  : mat cx_double :=
  fold_left (fun acc i => mat_update (fun v => (v + inc i)%cx) i acc) indices m.

Lemma add_at_mat_add (inc : nat -> cx_double) (indices : list nat) (a v : mat cx_double) :
  add_at inc indices (mat_add a v) = mat_add a (add_at inc indices v).
Proof.
  revert v. induction indices as [|i indices IH]; intros v; simpl; [done|].
  unfold add_at in *; simpl. by rewrite mat_update_add, IH.
Qed.

Lemma add_at_shape (inc : nat -> cx_double) (indices : list nat) (m : mat cx_double) :
  n_rows (add_at inc indices m) = n_rows m /\
  n_cols (add_at inc indices m) = n_cols m /\
  length (mem (add_at inc indices m)) = length (mem m).
Proof.
  revert m. induction indices as [|i indices IH]; intros m; simpl; [done|].
  unfold add_at in *; simpl.
  destruct (IH (mat_update (fun v => (v + inc i)%cx) i m)) as (-> & -> & ->).
  simpl. by rewrite length_alter.
Qed.

(** Reading after the loop, when no index occurs twice. *)
Lemma add_at_lookup (inc : nat -> cx_double) (indices : list nat) (m : mat cx_double) (i : nat) :
  NoDup indices ->
  mem (add_at inc indices m) !! i
  = if decide (i ∈ indices) then (fun v => (v + inc i)%cx) <$> mem m !! i else mem m !! i.
Proof.
  revert m. induction indices as [|i0 indices IH]; intros m Hnd; simpl.
  - done.
  - apply NoDup_cons in Hnd as [Hni Hnd].
    rewrite IH by done. simpl.
    destruct (decide (i = i0)) as [->|Hne].
    + rewrite (decide_False (P := i0 ∈ indices)) by done.
      rewrite decide_True by apply list_elem_of_here.
      by rewrite list_lookup_alter_eq.
    + rewrite list_lookup_alter_ne by done.
      destruct (decide (i ∈ indices)) as [Hin|Hnin].
      * by rewrite decide_True by (by apply list_elem_of_further).
      * rewrite decide_False; [done|]. by intros [?|?]%elem_of_cons.
Qed.

Lemma mat_find_NoDup {A : Type} (test : A -> bool) (m : mat A) : NoDup (mat_find test m).
Proof.
  unfold mat_find. apply NoDup_ListNoDup, List.NoDup_filter, NoDup_ListNoDup, NoDup_seq.
Qed.

Lemma elem_of_mat_find {A : Type} (test : A -> bool) (m : mat A) (i : nat) :
  i ∈ mat_find test m <-> exists x, mem m !! i = Some x /\ test x = true.
Proof.
  unfold mat_find. rewrite list_elem_of_In, filter_In, in_seq. split.
  - intros [_ H]. destruct (mem m !! i) as [x|]; [eauto|done].
  - intros (x & Hx & Ht). rewrite Hx. split; [|done].
    apply lookup_lt_Some in Hx. lia.
Qed.

Lemma mat_elem_add_add_at (indices : list nat) (x : cx_double) (m : mat cx_double) :
  mat_elem_add indices x m = add_at (fun _ => x) indices m.
Proof. done. Qed.

Lemma mat_add_zero_r (a : mat cx_double) (rows cols : nat) :
  n_rows a = rows -> n_cols a = cols -> length (mem a) = (rows * cols)%nat ->
  mat_add a (mat_fill rows cols c_zero) = a.
Proof.
  destruct a as [r c l]; simpl. intros -> -> Hl. unfold mat_add, mat_fill; simpl.
  f_equal. rewrite <- Hl. clear Hl. induction l as [|x l IH]; simpl; [done|].
  by rewrite c_add_zero_r, IH.
Qed.

End arma_facts.

(** *** The spectrum as a sum of per-region contributions *)

Module diffraction_facts.
Import geometry oplc sim arma_facts.

Definition same_shape (a b : mat cx_double) : Prop :=
  n_rows a = n_rows b /\ n_cols a = n_cols b /\ length (mem a) = length (mem b).

Lemma same_shape_refl (a : mat cx_double) : same_shape a a.
Proof. done. Qed.

Lemma same_shape_trans (a b c : mat cx_double) :
  same_shape a b -> same_shape b c -> same_shape a c.
Proof. intros (? & ? & ?) (? & ? & ?). repeat split; congruence. Qed.

Lemma mat_add_shape (a v : mat cx_double) :
  length (mem a) = length (mem v) -> same_shape (mat_add a v) v.
Proof.
  intros Hl. repeat split; simpl. rewrite length_zip_with. lia.
Qed.

Lemma set_values_set_values (d : Diffraction) (a b : mat cx_double) :
  set_values (set_values d a) b = set_values d b.
Proof. done. Qed.

Lemma values_set_values (d : Diffraction) (a : mat cx_double) :
  _values (set_values d a) = a.
Proof. done. Qed.

(** The one-dimensional loop is a loop [add_at]. *)
Lemma add_1d_region_unfold (d : Diffraction) (region : Region) (factor : cx_double) :
  _add_1d_region d region factor =
    r ← head (_edges (region_geometry region));
    k ← _select_axis (_axis (region_geometry region)) (_kx d) (_ky d);
    frq ← _select_axis (_axis (region_geometry region)) (_frqx d) (_frqy d);
    Some (set_values d
            (add_at (fun i =>
                       (factor * term_1d (k !!! i) (frq !!! i)
                                   (point_at (org r) (dimension_value (_axis (region_geometry region))))
                                   (point_at (dst r) (dimension_value (_axis (region_geometry region)))))%cx)
                    (seq 0 (length k)) (_values d))).
Proof. done. Qed.

Lemma add_1d_region_add (d : Diffraction) (a v : mat cx_double) (region : Region)
    (factor : cx_double) :
  _add_1d_region (set_values d (mat_add a v)) region factor
  = (fun d' => set_values d (mat_add a (_values d')))
      <$> _add_1d_region (set_values d v) region factor.
Proof.
  rewrite !add_1d_region_unfold.
  destruct (head (_edges (region_geometry region))) as [r|]; simpl; [|done].
  destruct (_axis (region_geometry region)); simpl; try done;
    by rewrite add_at_mat_add.
Qed.

Lemma step_2d_add (d : Diffraction) (region : Region) (factor : cx_double)
    (a v : mat cx_double) (calculated : mat bool) (visit : nat * nat * nat * nat) :
  step_2d d region factor (mat_add a v, calculated) visit
  = (mat_add a (fst (step_2d d region factor (v, calculated) visit)),
     snd (step_2d d region factor (v, calculated) visit)).
Proof.
  destruct visit as [[[sr sc] c] r]. unfold step_2d.
  change (linear_index (mat_add a v) r c) with (linear_index v r c).
  destruct (negb (mem calculated !!! linear_index v r c)
            && (Rleb (mem (_cxy d) !!! linear_index v r c) (numeric_aperture d)
                || within_circle (_cx d !!! c) (_cy d !!! r)
                     (numeric_aperture d * (ss_cx (source_shape d) !!! sc))
                     (numeric_aperture d * (ss_cy (source_shape d) !!! sr))
                     (numeric_aperture d))); simpl; [|done].
  by rewrite mat_update_add.
Qed.

Lemma fold_step_2d_add (d : Diffraction) (region : Region) (factor : cx_double)
    (visits : list (nat * nat * nat * nat)) (a v : mat cx_double) (calculated : mat bool) :
  fold_left (step_2d d region factor) visits (mat_add a v, calculated)
  = (mat_add a (fst (fold_left (step_2d d region factor) visits (v, calculated))),
     snd (fold_left (step_2d d region factor) visits (v, calculated))).
Proof.
  revert v calculated. induction visits as [|visit visits IH]; intros v calculated; simpl.
  - done.
  - rewrite step_2d_add.
    destruct (step_2d d region factor (v, calculated) visit) as [v' calculated'] eqn:E.
    simpl. apply IH.
Qed.

Lemma fold_step_2d_shape (d : Diffraction) (region : Region) (factor : cx_double)
    (visits : list (nat * nat * nat * nat)) (v : mat cx_double) (calculated : mat bool) :
  same_shape (fst (fold_left (step_2d d region factor) visits (v, calculated))) v.
Proof.
  revert v calculated. induction visits as [|visit visits IH]; intros v calculated; simpl.
  - done.
  - destruct (step_2d d region factor (v, calculated) visit) as [v' calculated'] eqn:E.
    eapply same_shape_trans; [apply IH|].
    destruct visit as [[[sr sc] c] r]. unfold step_2d in E.
    match type of E with (if ?b then _ else _) = _ => destruct b end;
      injection E as <- <-; [|done].
    repeat split; simpl. by rewrite length_alter.
Qed.

Lemma add_2d_region_add (d : Diffraction) (a v : mat cx_double) (region : Region)
    (factor : cx_double) :
  _add_2d_region (set_values d (mat_add a v)) region factor
  = set_values d (mat_add a (_values (_add_2d_region (set_values d v) region factor))).
Proof.
  unfold _add_2d_region.
  change (visits_2d (set_values d (mat_add a v))) with (visits_2d d).
  change (visits_2d (set_values d v)) with (visits_2d d).
  change (step_2d (set_values d (mat_add a v))) with (step_2d d).
  change (step_2d (set_values d v)) with (step_2d d).
  rewrite !values_set_values, !set_values_set_values.
  change (n_rows (mat_add a v)) with (n_rows v).
  change (n_cols (mat_add a v)) with (n_cols v).
  by rewrite fold_step_2d_add.
Qed.

(** [add_region] adds the same increments whatever the matrix holds. *)
Lemma add_region_add (d : Diffraction) (a v : mat cx_double) (region : Region)
    (factor : cx_double) :
  add_region (set_values d (mat_add a v)) region factor
  = (fun d' => set_values d (mat_add a (_values d')))
      <$> add_region (set_values d v) region factor.
Proof.
  unfold add_region. destruct (_axis (region_geometry region)).
  - apply add_1d_region_add.
  - apply add_1d_region_add.
  - simpl. f_equal. apply add_2d_region_add.
Qed.

(** [add_region] writes the values only and keeps their shape. *)
Lemma add_region_frame (d d' : Diffraction) (region : Region) (factor : cx_double) :
  add_region d region factor = Some d' ->
  d' = set_values d (_values d') /\ same_shape (_values d') (_values d).
Proof.
  unfold add_region.
  assert (H1d : forall f, _add_1d_region d region f = Some d' ->
                d' = set_values d (_values d') /\ same_shape (_values d') (_values d)).
  { intros f. rewrite add_1d_region_unfold. intros H.
    destruct (head (_edges (region_geometry region))) as [r|]; simpl in H; [|done].
    destruct (_select_axis _ (_kx d) (_ky d)) as [k|]; simpl in H; [|done].
    destruct (_select_axis _ (_frqx d) (_frqy d)) as [frq|]; simpl in H; [|done].
    injection H as <-. split; [done|]. simpl. apply add_at_shape. }
  destruct (_axis (region_geometry region)); try apply H1d.
  intros [= <-]. split; [done|]. apply fold_step_2d_shape.
Qed.

(** The contribution of a region: what [add_region] leaves in a spectrum
    that held zeros. *)
Definition contribution (d0 : Diffraction) (boundary : Box) (region : Region)
  : option (mat cx_double) :=
  _values <$> add_region d0 region (region_etransmit region - box_etransmit boundary)%cx.

(** Sum of the contributions of a list of regions to the linear element [i],
    accumulated in the order of the loop. *)
Definition regions_sum (contributions : list (mat cx_double)) (i : nat) : cx_double :=
  fold_left (fun acc C => (acc + mem C !!! i)%cx) contributions c_zero.

Lemma regions_sum_shift (contributions : list (mat cx_double)) (i : nat) (x : cx_double) :
  fold_left (fun acc C => (acc + mem C !!! i)%cx) contributions x
  = (x + regions_sum contributions i)%cx.
Proof.
  unfold regions_sum. revert x.
  induction contributions as [|C cs IH]; intros x; simpl.
  - by rewrite c_add_zero_r.
  - rewrite (IH (x + mem C !!! i)%cx), (IH (c_zero + mem C !!! i)%cx).
    by rewrite c_add_zero_l, c_add_assoc.
Qed.

Lemma add_regions_sum (d0 : Diffraction) (rows cols : nat) (boundary : Box)
    (regions : list Region) (contributions : list (mat cx_double)) (a : mat cx_double) :
  _values d0 = mat_fill rows cols c_zero ->
  Forall2 (fun region C => contribution d0 boundary region = Some C) regions contributions ->
  n_rows a = rows -> n_cols a = cols -> length (mem a) = (rows * cols)%nat ->
  exists v, add_regions (set_values d0 a) boundary regions = Some (set_values d0 v) /\
            same_shape v a /\
            forall i, (i < rows * cols)%nat ->
              mem v !! i = Some (mem a !!! i + regions_sum contributions i)%cx.
Proof.
  intros Hz Hall. revert a.
  induction Hall as [|region C regions contributions HC Hall IH]; intros a Hr Hc Hl.
  - exists a. split; [done|]. split; [done|]. intros i Hi.
    unfold regions_sum; simpl. rewrite c_add_zero_r.
    apply list_lookup_lookup_total_lt. lia.
  - unfold contribution in HC.
    destruct (add_region d0 region _) as [dC|] eqn:HdC; [|done].
    injection HC as <-.
    destruct (add_region_frame _ _ _ _ HdC) as [HdCeq HshC].
    rewrite Hz in HshC. destruct HshC as (HCr & HCc & HCl). simpl in HCr, HCc, HCl.
    rewrite length_replicate in HCl.
    assert (Hstep : add_region (set_values d0 a) region
                      (region_etransmit region - box_etransmit boundary)%cx
                    = Some (set_values d0 (mat_add a (_values dC)))).
    { rewrite <- (mat_add_zero_r a rows cols Hr Hc Hl) at 1.
      rewrite <- Hz, add_region_add.
      replace (set_values d0 (_values d0)) with d0 by (by destruct d0).
      by rewrite HdC. }
    destruct (IH (mat_add a (_values dC))) as (v & Hv & Hsh & Hlook).
    + simpl. congruence.
    + simpl. congruence.
    + simpl. rewrite length_zip_with. lia.
    + exists v. split; [|split].
      * simpl. rewrite Hstep. simpl. exact Hv.
      * eapply same_shape_trans; [exact Hsh|].
        repeat split; simpl; try congruence. rewrite length_zip_with. lia.
      * intros i Hi. rewrite (Hlook i Hi). f_equal.
        unfold regions_sum at 2; simpl. rewrite regions_sum_shift, c_add_zero_l.
        rewrite c_add_assoc. f_equal.
        simpl. apply lookup_total_zip_with; lia.
Qed.

(** What the constructor of [Diffraction] builds. *)
Lemma init_vectors_spec (n : nat) (pitch wvl : R) (lim : Z * Z)
    (k : list Z) (frq dcos : list R) :
  _init_vectors n pitch wvl lim = (k, frq, dcos) ->
  length k = n /\ length frq = n /\ length dcos = n /\
  forall c, k !! c = Some 0%Z -> dcos !! c = Some 0.
Proof.
  unfold _init_vectors. case_Reqb pitch 0; intros [= <- <- <-].
  - rewrite !length_insert, !length_replicate. repeat split.
    intros c Hc. apply lookup_lt_Some in Hc.
    rewrite length_insert, length_replicate in Hc.
    destruct c as [|c].
    + destruct n; [simpl in Hc; lia|done].
    + destruct n as [|n]; [simpl in Hc; lia|]. simpl.
      apply lookup_replicate_2. lia.
  - rewrite !length_map, !length_seq. repeat split.
    intros c Hc. rewrite !list_lookup_fmap in *.
    destruct (seq 0 n !! c) as [i|]; simpl in *; [|done].
    injection Hc as ->. f_equal. unfold Rdiv. lra.
Qed.

Lemma block_lookup {A B C : Type} (g : A -> B -> C) (xs : list A) (ys : list B)
    (c r : nat) (x : A) (y : B) :
  xs !! c = Some x -> ys !! r = Some y ->
  flat_map (fun xc => map (fun yr => g xc yr) ys) xs !! (c * length ys + r)%nat
  = Some (g x y).
Proof.
  revert c. induction xs as [|x0 xs IH]; intros c Hx Hy; [done|]. simpl.
  destruct c as [|c]; simpl in *.
  - injection Hx as ->. rewrite lookup_app_l.
    + by rewrite list_lookup_fmap, Hy.
    + rewrite length_map. by apply lookup_lt_Some in Hy.
  - rewrite lookup_app_r by (rewrite length_map; lia).
    rewrite length_map.
    replace (length ys + c * length ys + r - length ys)%nat
      with (c * length ys + r)%nat by lia.
    by apply IH.
Qed.

Lemma block_length {A B C : Type} (g : A -> B -> C) (xs : list A) (ys : list B) :
  length (flat_map (fun xc => map (fun yr => g xc yr) ys) xs)
  = (length ys * length xs)%nat.
Proof.
  induction xs as [|x xs IH]; simpl; [lia|].
  rewrite length_app, length_map, IH. lia.
Qed.

Lemma make_Diffraction_spec (mask : Mask) (tool : ImagingTool) (d0 : Diffraction) :
  make_Diffraction mask tool = Some d0 ->
  _values d0 = mat_fill (length (_ky d0)) (length (_kx d0)) c_zero /\
  _cxy d0 = _init_cosines (_cx d0) (_cy d0) /\
  length (_cx d0) = length (_kx d0) /\ length (_cy d0) = length (_ky d0) /\
  (forall c, _kx d0 !! c = Some 0%Z -> _cx d0 !! c = Some 0) /\
  (forall r, _ky d0 !! r = Some 0%Z -> _cy d0 !! r = Some 0).
Proof.
  unfold make_Diffraction. intros H.
  destruct (_calc_size _ _ (p_x _) _ _) as [lim_cols|]; simpl in H; [|done].
  destruct (_calc_size _ _ (p_y _) _ _) as [lim_rows|]; simpl in H; [|done].
  destruct (_init_vectors (limits_count lim_cols) _ _ _) as [[kx frqx] cx] eqn:Ex.
  destruct (_init_vectors (limits_count lim_rows) _ _ _) as [[ky frqy] cy] eqn:Ey.
  injection H as <-. simpl.
  destruct (init_vectors_spec _ _ _ _ _ _ _ Ex) as (Hkx & _ & Hcx & Hx0).
  destruct (init_vectors_spec _ _ _ _ _ _ _ Ey) as (Hky & _ & Hcy & Hy0).
  rewrite Hkx, Hky, Hcx, Hcy. by repeat split.
Qed.

(** The direction cosine of the zero order is zero. *)
Lemma zero_order_cosine (mask : Mask) (tool : ImagingTool) (d0 : Diffraction) (r c : nat) :
  make_Diffraction mask tool = Some d0 ->
  _kx d0 !! c = Some 0%Z -> _ky d0 !! r = Some 0%Z ->
  mat_elem (_cxy d0) (linear_index (_values d0) r c) = Some 0.
Proof.
  intros Hd Hc Hr.
  destruct (make_Diffraction_spec _ _ _ Hd) as (Hv & Hcxy & _ & Hly & Hx0 & Hy0).
  unfold mat_elem, linear_index. rewrite Hcxy, Hv. simpl. rewrite <- Hly.
  rewrite (block_lookup (fun xc yr => sqrt (xc * xc + yr * yr)) _ _ c r 0 0)
    by auto.
  f_equal. replace (0 * 0 + 0 * 0) with 0 by lra. apply sqrt_0.
Qed.

(** Reading the spectrum after the background step. *)
Lemma add_background_lookup (d : Diffraction) (mask : Mask) (i : nat) (v cxy_i : cx_double * R) :
  mem (_values d) !! i = Some (fst v) ->
  mem (_cxy d) !! i = Some (snd cxy_i) ->
  mem (_values (add_background d mask)) !! i
  = Some (fst v + (if negb (is_opaque mask) && Reqb (snd cxy_i) 0
                   then box_etransmit (_boundary mask) else c_zero))%cx.
Proof.
  intros Hv Hc. unfold add_background.
  destruct (is_opaque mask); simpl.
  - by rewrite c_add_zero_r.
  - rewrite mat_elem_add_add_at, add_at_lookup by apply mat_find_NoDup.
    rewrite Hv. simpl.
    case_Reqb (snd cxy_i) 0.
    + rewrite decide_True; [done|].
      apply elem_of_mat_find. exists (snd cxy_i). split; [done|].
      by apply Reqb_true_iff.
    + rewrite decide_False; [by rewrite c_add_zero_r|].
      intros (x & Hx & Ht)%elem_of_mat_find.
      rewrite Hc in Hx. injection Hx as <-. by apply Reqb_true_iff in Ht.
Qed.

(** C2.  The spectrum that [diffraction] returns: every bin holds the sum of
    the per-region contributions, and the boundary's complex transmission
    [sqrt(transmittance)*exp(j*phase*pi/180)] is added exactly to the bins
    whose direction-cosine magnitude [cxy] is zero, among them the zero
    order, and only when the mask is not opaque. *)
Theorem diffraction_background_term (tool : ImagingTool) (mask : Mask) (d0 : Diffraction)
    (contributions : list (mat cx_double)) :
  is_bad mask = false ->
  make_Diffraction mask tool = Some d0 ->
  Forall2 (fun region C => contribution d0 (_boundary mask) region = Some C)
          (_regions mask) contributions ->
  exists d : Diffraction,
    diffraction tool mask = Some d /\
    _kx d = _kx d0 /\ _ky d = _ky d0 /\ _cxy d = _cxy d0 /\
    (* the general form *)
    (forall i, (i < length (mem (_values d0)))%nat ->
       exists cxy_i, mat_elem (_cxy d) i = Some cxy_i /\
         mat_elem (_values d) i
         = Some (regions_sum contributions i
                 + (if negb (is_opaque mask) && Reqb cxy_i 0
                    then box_etransmit (_boundary mask) else c_zero))%cx) /\
    (* the zero order of a mask that is not opaque *)
    (forall r c, box_transmittance (_boundary mask) <> 0 ->
       _kx d !! c = Some 0%Z -> _ky d !! r = Some 0%Z ->
       mat_elem (_values d) (linear_index (_values d) r c)
       = Some (regions_sum contributions (linear_index (_values d) r c)
               + _etransmit (box_transmittance (_boundary mask))
                            (box_phase (_boundary mask)))%cx) /\
    (* the other bins *)
    (forall i cxy_i, (i < length (mem (_values d0)))%nat ->
       mat_elem (_cxy d) i = Some cxy_i -> cxy_i <> 0 ->
       mat_elem (_values d) i = Some (regions_sum contributions i)) /\
    (* an opaque mask *)
    (box_transmittance (_boundary mask) = 0 ->
     forall i, (i < length (mem (_values d0)))%nat ->
       mat_elem (_values d) i = Some (regions_sum contributions i)).
Proof.
  intros Hbad Hd0 Hall.
  destruct (make_Diffraction_spec _ _ _ Hd0) as (Hv0 & Hcxy & Hlx & Hly & Hx0 & Hy0).
  set (rows := length (_ky d0)) in *. set (cols := length (_kx d0)) in *.
  destruct (add_regions_sum d0 rows cols (_boundary mask) (_regions mask) contributions
              (mat_fill rows cols c_zero) Hv0 Hall)
    as (v & Hv & (Hvr & Hvc & Hvl) & Hlook); try done.
  { simpl. by rewrite length_replicate. }
  rewrite <- Hv0 in Hv.
  replace (set_values d0 (_values d0)) with d0 in Hv by (by destruct d0).
  simpl in Hvr, Hvl. rewrite length_replicate in Hvl.
  assert (Hlen0 : length (mem (_values d0)) = (rows * cols)%nat).
  { rewrite Hv0. simpl. by rewrite length_replicate. }
  assert (Hlenc : length (mem (_cxy d0)) = (rows * cols)%nat).
  { rewrite Hcxy. unfold _init_cosines; simpl. rewrite block_length.
    by rewrite Hlx, Hly. }
  assert (Hgen : forall i, (i < rows * cols)%nat ->
     exists cxy_i, mem (_cxy d0) !! i = Some cxy_i /\
       mem (_values (add_background (set_values d0 v) mask)) !! i
       = Some (regions_sum contributions i
               + (if negb (is_opaque mask) && Reqb cxy_i 0
                  then box_etransmit (_boundary mask) else c_zero))%cx).
  { intros i Hi.
    destruct (lookup_lt_is_Some_2 (mem (_cxy d0)) i) as [cxy_i Hci]; [lia|].
    exists cxy_i. split; [done|].
    rewrite (add_background_lookup (set_values d0 v) mask i
               (regions_sum contributions i, 0) (c_zero, cxy_i)); simpl; try done.
    rewrite (Hlook i Hi). f_equal.
    unfold mat_fill; simpl.
    rewrite lookup_total_replicate_2 by done. by rewrite c_add_zero_l. }
  assert (Hframe : _kx (add_background (set_values d0 v) mask) = _kx d0 /\
                   _ky (add_background (set_values d0 v) mask) = _ky d0 /\
                   _cxy (add_background (set_values d0 v) mask) = _cxy d0 /\
                   n_rows (_values (add_background (set_values d0 v) mask)) = rows).
  { unfold add_background. destruct (negb (is_opaque mask)); simpl;
      repeat split; try done.
    rewrite mat_elem_add_add_at.
    by destruct (add_at_shape (fun _ => box_etransmit (_boundary mask))
      (mat_find (fun c => Reqb c 0) (_cxy d0)) v) as (-> & _ & _). }
  destruct Hframe as (Fk & Fy & Fc & Fr).
  exists (add_background (set_values d0 v) mask).
  split; [|split; [done|split; [done|split; [done|split; [|split; [|split]]]]]].
  - unfold diffraction. rewrite Hbad, Hd0. simpl. by rewrite Hv.
  - intros i Hi. unfold mat_elem. rewrite Fc. apply Hgen. lia.
  - intros r c Ht Hc Hr. rewrite Fk in Hc. rewrite Fy in Hr.
    pose proof (zero_order_cosine _ _ _ r c Hd0 Hc Hr) as Hz.
    unfold mat_elem, linear_index in *. rewrite Fr.
    rewrite Hv0 in Hz. simpl in Hz.
    assert (Hi : (c * rows + r < rows * cols)%nat).
    { apply lookup_lt_Some in Hc, Hr. fold rows in Hr. fold cols in Hc. nia. }
    destruct (Hgen _ Hi) as (cxy_i & Hci & Hval).
    rewrite Hz in Hci. injection Hci as <-.
    rewrite Hval. rewrite Reqb_refl.
    unfold is_opaque. apply Reqb_false_iff in Ht. rewrite Ht. done.
  - intros i cxy_i Hi Hci Hne. unfold mat_elem in *. rewrite Fc in Hci.
    destruct (Hgen i) as (cxy' & Hci' & Hval); [lia|].
    rewrite Hci in Hci'. injection Hci' as <-.
    rewrite Hval. apply Reqb_false_iff in Hne. rewrite Hne, andb_false_r.
    by rewrite c_add_zero_r.
  - intros Ht i Hi. unfold mat_elem.
    destruct (Hgen i) as (cxy' & Hci' & Hval); [lia|].
    rewrite Hval. unfold is_opaque. apply Reqb_true_iff in Ht. rewrite Ht. simpl.
    by rewrite c_add_zero_r.
Qed.

End diffraction_facts.

(** *** The binary line of the plugin [line1D.c] under a coherent source *)

Ltac Rfields := first [ lra | reflexivity | (f_equal; Rfields) ].

Module line_mask_example.
Import geometry oplc sim arma_facts diffraction_facts.

Lemma term_1d_zero (frq org dst : R) : term_1d 0 frq org dst = cx_of (dst - org).
Proof. done. Qed.

Lemma term_1d_symmetric (k : Z) (frq org dst : R) :
  k <> 0%Z -> frq <> 0 -> org = - dst ->
  term_1d k frq org dst = cx_of (sin (2 * PI * frq * dst) / (PI * frq)).
Proof.
  intros Hk Hf ->. unfold term_1d. rewrite (proj2 (Z.eqb_neq k 0) Hk).
  unfold M_PI, cx_of. assert (HPI := PI_RGT_0).
  apply cx_ext; simpl;
    replace (- (2 * PI * 0 * frq) * dst) with 0 by lra;
    replace (- (2 * PI * 0 * frq) * - dst) with 0 by lra;
    replace (- (2 * PI * 1 * frq) * dst) with (- (2 * PI * frq * dst)) by lra;
    replace (- (2 * PI * 1 * frq) * - dst) with (2 * PI * frq * dst) by lra;
    rewrite exp_0, cos_neg, sin_neg; field; split; lra.
Qed.

Lemma etransmit_black : _etransmit 0 0 = c_zero.
Proof.
  unfold _etransmit, c_scale, c_zero. rewrite sqrt_0. apply cx_ext; simpl; lra.
Qed.

Lemma etransmit_clear : _etransmit 1 0 = c_rone.
Proof.
  unfold _etransmit, c_scale, c_rone, M_PI. rewrite sqrt_1. apply cx_ext; simpl.
  - replace (0 * 0 * PI / 180) with 0 by lra.
    replace (1 * 0 * PI / 180) with 0 by lra.
    rewrite exp_0, cos_0. lra.
  - replace (0 * 0 * PI / 180) with 0 by lra.
    replace (1 * 0 * PI / 180) with 0 by lra.
    rewrite exp_0, sin_0. lra.
Qed.

(** The mask of the plugin [line1D.c] for a feature width and a pitch. *)
Definition line1D_region (feature_width : R) : option Region :=
  make_Region [mkPoint2d (- feature_width / 2) 0; mkPoint2d (feature_width / 2) 0] 0 0.

Definition line1D_boundary (pitch : R) : Box :=
  make_Box (mkPoint2d (- pitch / 2) 0) (mkPoint2d (pitch / 2) 0) 1 0.

Definition line_region : Region :=
  mkRegion (mkGeometry [mkEdge2d (mkPoint2d (250 / 2) 0) (mkPoint2d (- 250 / 2) 0)] DIM_1D_X) 0 0.

Lemma line1D_region_250 : line1D_region 250 = Some line_region.
Proof.
  unfold line1D_region, make_Region, PolygonGeometry, is_1d_possible,
    is_vertical, is_horizontal; simpl.
  Rbool; done.
Qed.

Definition line_mask : Mask :=
  mkMask
    [mkRegion (mkGeometry [mkEdge2d (mkPoint2d (-125) 0) (mkPoint2d 125 0)] DIM_1D_X) 0 0]
    (mkBox (mkRectangle
              (mkGeometry [mkEdge2d (mkPoint2d (-400) 0) (mkPoint2d 400 0)] DIM_1D_X)
              (mkEdge2d (mkPoint2d (-400) 0) (mkPoint2d 400 0))
              (mkPoint2d 800 0)) 1 0)
    (mkPoint2d 800 0).

Lemma line_mask_built :
  make_Mask [line_region] (line1D_boundary 800) = Some line_mask.
Proof.
  unfold make_Mask, line_region, line1D_boundary, make_Box, _make_region. simpl.
  unfold set_bypass, signed_area. simpl. unfold point_at. simpl.
  case_Rltb (1 * (-250 / 2 - 250 / 2)) 0; [|exfalso; lra].
  simpl. unfold Rectangle, left_bottom, right_top, sizes, point_sub, point_add, point_divs, flip.
  simpl. Rbool; simpl. unfold line_mask. Rfields.
Qed.

(** An imaging tool at 248 nm and NA 0.6 whose source has its only non-zero
    point at the origin: the limits of the support are all zero. *)
Definition coherent_tool (cx cy : list R) (values : mat R) (non_zeros : list (nat * nat))
  : ImagingTool :=
  mkImagingTool (mkSourceShape cx cy values non_zeros 0 0 0 0) 248 0.6.

Definition line_spectrum_grid (ss : SourceShape) : Diffraction :=
  mkDiffraction (mat_fill 1 3 c_zero)
    [IZR (-1) / 800; IZR 0 / 800; IZR 1 / 800] [0]
    [(-1)%Z; 0%Z; 1%Z] [0%Z]
    (_init_cosines [IZR (-1) / 800 * 248; IZR 0 / 800 * 248; IZR 1 / 800 * 248] [0])
    [IZR (-1) / 800 * 248; IZR 0 / 800 * 248; IZR 1 / 800 * 248] [0]
    ss (mkPoint2d 800 0) 0.6 248.

Lemma calc_size_x : _calc_size 0.6 248 800 0 0 = Some ((-1)%Z, 1%Z).
Proof.
  unfold _calc_size. case_Rltb 0 0; [exfalso; lra|].
  rewrite (Zfloor_eq 1 (0.6 * (1 - 0) / 248 * 800)) by (simpl; lra).
  rewrite (Zfloor_eq 1 (0.6 * (1 + 0) / 248 * 800)) by (simpl; lra).
  done.
Qed.

Lemma calc_size_y : _calc_size 0.6 248 0 0 0 = Some (0%Z, 0%Z).
Proof.
  unfold _calc_size. case_Rltb 0 0; [exfalso; lra|].
  rewrite (Zfloor_eq 0 (0.6 * (1 - 0) / 248 * 0)) by (simpl; lra).
  rewrite (Zfloor_eq 0 (0.6 * (1 + 0) / 248 * 0)) by (simpl; lra).
  done.
Qed.

Lemma line_grid_built (cx cy : list R) (values : mat R) (non_zeros : list (nat * nat)) :
  make_Diffraction line_mask (coherent_tool cx cy values non_zeros)
  = Some (line_spectrum_grid (mkSourceShape cx cy values non_zeros 0 0 0 0)).
Proof.
  unfold make_Diffraction. simpl. rewrite calc_size_x, calc_size_y. simpl.
  unfold _init_vectors. Rbool.
  change (limits_count ((-1)%Z, 1%Z)) with 3%nat.
  change (limits_count (0%Z, 0%Z)) with 1%nat.
  reflexivity.
Qed.

(** The contribution of the line to the spectrum. *)
Definition line_mask_region : Region :=
  mkRegion (mkGeometry [mkEdge2d (mkPoint2d (-125) 0) (mkPoint2d 125 0)] DIM_1D_X) 0 0.

Lemma line_region_added (ss : SourceShape) :
  add_region (line_spectrum_grid ss) line_mask_region
    (region_etransmit line_mask_region - box_etransmit (_boundary line_mask))%cx
  = Some (set_values (line_spectrum_grid ss)
            (mkMat 1 3 [cx_of (- sin (PI * 250 / 800) / PI);
                        cx_of (- (250 / 800));
                        cx_of (- sin (PI * 250 / 800) / PI)])).
Proof.
  unfold add_region. simpl.
  unfold region_etransmit, box_etransmit. simpl.
  rewrite etransmit_black, etransmit_clear.
  unfold _add_1d_region, line_mask_region. simpl.
  unfold point_at. simpl.
  rewrite (term_1d_symmetric 1 (1 / 800) (-125) 125) by (done || lra).
  rewrite (term_1d_symmetric (-1) (-1 / 800) (-125) 125) by (done || lra).
  rewrite term_1d_zero.
  unfold mat_update, mat_fill. simpl. do 3 f_equal.
  assert (HPI := PI_RGT_0).
  replace (2 * PI * (-1 / 800) * 125) with (- (PI * 250 / 800)) by lra.
  replace (2 * PI * (1 / 800) * 125) with (PI * 250 / 800) by lra.
  rewrite sin_neg.
  repeat (f_equal; try (apply cx_ext; simpl; field; lra)).
Qed.

Lemma line_regions_added (ss : SourceShape) :
  add_regions (line_spectrum_grid ss) (_boundary line_mask) (_regions line_mask)
  = Some (set_values (line_spectrum_grid ss)
            (mkMat 1 3 [cx_of (- sin (PI * 250 / 800) / PI);
                        cx_of (- (250 / 800));
                        cx_of (- sin (PI * 250 / 800) / PI)])).
Proof.
  change (_regions line_mask) with [line_mask_region].
  unfold add_regions. by rewrite line_region_added.
Qed.

Lemma line_background_indices (ss : SourceShape) :
  mat_find (fun c => Reqb c 0) (_cxy (line_spectrum_grid ss)) = [1%nat].
Proof.
  unfold mat_find. simpl.
  assert (H0 : sqrt (0 / 800 * 248 * (0 / 800 * 248) + 0 * 0) = 0).
  { replace (0 / 800 * 248 * (0 / 800 * 248) + 0 * 0) with 0 by lra. apply sqrt_0. }
  assert (Hm : sqrt (-1 / 800 * 248 * (-1 / 800 * 248) + 0 * 0) <> 0).
  { intros H. apply sqrt_eq_0 in H; lra. }
  assert (Hp : sqrt (1 / 800 * 248 * (1 / 800 * 248) + 0 * 0) <> 0).
  { intros H. apply sqrt_eq_0 in H; lra. }
  apply Reqb_true_iff in H0. apply Reqb_false_iff in Hm, Hp.
  by rewrite H0, Hm, Hp.
Qed.

Lemma line_background_added (ss : SourceShape) :
  add_background
    (set_values (line_spectrum_grid ss)
       (mkMat 1 3 [cx_of (- sin (PI * 250 / 800) / PI);
                   cx_of (- (250 / 800));
                   cx_of (- sin (PI * 250 / 800) / PI)]))
    line_mask
  = set_values (line_spectrum_grid ss)
      (mkMat 1 3 [mk_cx (- sin (PI * 250 / 800) / PI) 0;
                  mk_cx (1 - 250 / 800) 0;
                  mk_cx (- sin (PI * 250 / 800) / PI) 0]).
Proof.
  unfold add_background, is_opaque. simpl.
  case_Reqb 1 0; [exfalso; lra|]. simpl.
  change (_init_cosines _ _) with (_cxy (line_spectrum_grid ss)).
  rewrite line_background_indices. unfold box_etransmit; simpl.
  rewrite etransmit_clear. unfold mat_elem_add, mat_update; simpl.
  unfold set_values; simpl. do 3 f_equal. f_equal.
  apply cx_ext; simpl; lra.
Qed.

(** A source whose single non-zero grid point lies at the origin has the
    limits [sx_min = sx_max = sy_min = sy_max = 0]. *)
Lemma coherent_source_limits (cx cy : list R) (values : mat R) (r0 c0 : nat) :
  _get_non_zeros_indexes values = [(r0, c0)] ->
  cx !! c0 = Some 0 -> cy !! r0 = Some 0 ->
  SourceShape_of_grid cx cy values
  = Some (mkSourceShape cx cy values [(r0, c0)] 0 0 0 0).
Proof.
  intros Hnz Hx Hy. unfold SourceShape_of_grid, _get_limits. rewrite Hnz. simpl.
  by rewrite Hx, Hy.
Qed.

(** [pi] and the sine of [pi*250/800] in decimals: the series of
    [pi/4 = 2*atan(1/3) + atan(1/7)] and the alternating series of the sine. *)
Lemma PI_enclosure : 3.14159 < PI < 3.1416.
Proof.
  destruct (PI_2_3_7_ineq 3) as [Hlo Hhi].
  unfold PI_2_3_7_tg, Ratan_seq, tg_alt in Hlo, Hhi.
  cbn [sum_f_R0 Nat.mul Nat.add pow INR] in Hlo, Hhi.
  split; lra.
Qed.

Lemma sin_approx_3 (a : R) :
  sin_approx a 3 = a - a ^ 3 / 6 + a ^ 5 / 120 - a ^ 7 / 5040.
Proof.
  unfold sin_approx, sin_term. cbn [sum_f_R0 Nat.mul Nat.add].
  change (INR (Factorial.fact 1)) with 1.
  replace (INR (Factorial.fact 3)) with 6 by (cbn; lra).
  replace (INR (Factorial.fact 5)) with 120 by (cbn; lra).
  replace (INR (Factorial.fact 7)) with 5040
    by (rewrite !fact_simpl, !mult_INR; cbn; lra).
  cbn [pow]. field.
Qed.

Lemma sin_approx_4 (a : R) :
  sin_approx a 4 = a - a ^ 3 / 6 + a ^ 5 / 120 - a ^ 7 / 5040 + a ^ 9 / 362880.
Proof.
  assert (Hstep : sin_approx a 4 = sin_approx a 3 + sin_term a 4) by reflexivity.
  rewrite Hstep, sin_approx_3. unfold sin_term. cbn [Nat.mul Nat.add].
  replace (INR (Factorial.fact 9)) with 362880
    by (rewrite !fact_simpl, !mult_INR; cbn; lra).
  cbn [pow]. field.
Qed.

Lemma first_order_enclosure : 0.26466 < sin (PI * 250 / 800) / PI < 0.26467.
Proof.
  destruct PI_enclosure as [Hlo Hhi].
  set (x := PI * 250 / 800).
  set (x_lo := 3.14159 * 250 / 800). set (x_hi := 3.1416 * 250 / 800).
  assert (Hx : x_lo <= x <= x_hi) by (unfold x, x_lo, x_hi; lra).
  assert (Hsin_lo : sin x_lo <= sin x)
    by (apply sin_incr_1; unfold x, x_lo, x_hi in *; lra).
  assert (Hsin_hi : sin x <= sin x_hi)
    by (apply sin_incr_1; unfold x, x_lo, x_hi in *; lra).
  assert (Hb_lo := sin_bound x_lo 1 ltac:(unfold x_lo; lra) ltac:(unfold x_lo; lra)).
  assert (Hb_hi := sin_bound x_hi 1 ltac:(unfold x_hi; lra) ltac:(unfold x_hi; lra)).
  change (2 * 1 + 1)%nat with 3%nat in *. change (2 * (1 + 1))%nat with 4%nat in *.
  rewrite sin_approx_3, sin_approx_4 in *.
  assert (Hl : 0.831466 <= sin x).
  { apply Rle_trans with (2 := Hsin_lo). apply Rle_trans with (2 := proj1 Hb_lo).
    unfold x_lo. lra. }
  assert (Hu : sin x <= 0.831472).
  { apply Rle_trans with (1 := Hsin_hi). apply Rle_trans with (1 := proj2 Hb_hi).
    unfold x_hi. lra. }
  assert (Hinv_lo : / 3.1416 <= / PI) by (apply Rinv_le_contravar; lra).
  assert (Hinv_hi : / PI <= / 3.14159) by (apply Rinv_le_contravar; lra).
  assert (Hinv_pos : 0 < / PI) by (apply Rinv_0_lt_compat; lra).
  unfold Rdiv. split.
  - apply Rlt_le_trans with (0.831466 * / 3.1416); [lra|].
    apply Rle_trans with (0.831466 * / PI).
    + apply Rmult_le_compat_l; [lra|assumption].
    + apply Rmult_le_compat_r; [lra|assumption].
  - apply Rle_lt_trans with (0.831472 * / 3.14159); [|lra].
    apply Rle_trans with (0.831472 * / PI).
    + apply Rmult_le_compat_r; [lra|assumption].
    + apply Rmult_le_compat_l; [lra|assumption].
Qed.

(** The spectrum of the line under a source whose support is one point. *)
Lemma line_spectrum_computed (cx cy : list R) (values : mat R) (r0 c0 : nat) :
  exists d : Diffraction,
    diffraction (mkImagingTool (mkSourceShape cx cy values [(r0, c0)] 0 0 0 0) 248 0.6)
                line_mask = Some d /\
    _kx d = [(-1)%Z; 0%Z; 1%Z] /\ _ky d = [0%Z] /\
    n_rows (_values d) = 1%nat /\ n_cols (_values d) = 3%nat /\
    mem (_values d) = [mk_cx (- sin (PI * 250 / 800) / PI) 0;
                       mk_cx (1 - 250 / 800) 0;
                       mk_cx (- sin (PI * 250 / 800) / PI) 0].
Proof.
  eexists. split.
  - assert (Hbad : is_bad line_mask = false).
    { unfold is_bad; simpl. case_Reqb 800 0; [exfalso; lra|done]. }
    unfold diffraction. rewrite Hbad.
    change (mkImagingTool _ 248 0.6) with (coherent_tool cx cy values [(r0, c0)]).
    rewrite line_grid_built. cbn [mbind option_bind].
    rewrite line_regions_added. cbn [mbind option_bind].
    rewrite line_background_added. reflexivity.
  - simpl. by repeat split.
Qed.



Definition example_source : SourceShape := mkSourceShape [0] [0] (mkMat 1 1 [1]) [(0, 0)%nat] 0 0 0 0.
Definition example_tool : ImagingTool := mkImagingTool example_source 248 0.6.
(** The first order that [diffraction] computes for the line lies more than
    a hundredth away from -0.2759: it is -0.26466... *)
Lemma first_order_is_not_02759 :
  exists (d : Diffraction) (v : cx_double),
    diffraction example_tool line_mask = Some d /\
    mem (_values d) !! 0%nat = Some v /\ im v = 0 /\
    -0.26467 < re v < -0.26466 /\ 0.011 < Rabs (re v - (-0.2759)).
Proof.
  destruct (line_spectrum_computed [0] [0] (mkMat 1 1 [1]) 0 0)
    as (d & Hd & _ & _ & _ & _ & Hmem).
  exists d, (mk_cx (- sin (PI * 250 / 800) / PI) 0).
  split; [exact Hd|]. split; [by rewrite Hmem|]. split; [done|].
  assert (H := first_order_enclosure). unfold Rdiv in H. cbn [re].
  assert (Hv : -0.26467 < - sin (PI * 250 / 800) / PI < -0.26466)
    by (unfold Rdiv; lra).
  split; [exact Hv|]. rewrite Rabs_right; lra.
Qed.

Definition line_contribution : mat cx_double :=
  mkMat 1 3 [cx_of (- sin (PI * 250 / 800) / PI);
             cx_of (- (250 / 800));
             cx_of (- sin (PI * 250 / 800) / PI)].

Lemma line_contribution_computed :
  Forall2 (fun region C =>
             contribution (line_spectrum_grid example_source) (_boundary line_mask) region
             = Some C)
          (_regions line_mask) [line_contribution].
Proof.
  change (_regions line_mask) with [line_mask_region].
  constructor; [|constructor].
  unfold contribution. by rewrite line_region_added.
Qed.

Lemma diffraction_background_term_witness :
  is_bad line_mask = false /\
  make_Diffraction line_mask example_tool = Some (line_spectrum_grid example_source) /\
  Forall2 (fun region C =>
             contribution (line_spectrum_grid example_source) (_boundary line_mask) region
             = Some C)
          (_regions line_mask) [line_contribution] /\
  exists d : Diffraction,
    diffraction example_tool line_mask = Some d /\
    _kx d = _kx (line_spectrum_grid example_source) /\
    _ky d = _ky (line_spectrum_grid example_source) /\
    _cxy d = _cxy (line_spectrum_grid example_source) /\
    (forall i, (i < length (mem (_values (line_spectrum_grid example_source))))%nat ->
       exists cxy_i, mat_elem (_cxy d) i = Some cxy_i /\
         mat_elem (_values d) i
         = Some (regions_sum [line_contribution] i
                 + (if negb (is_opaque line_mask) && Reqb cxy_i 0
                    then box_etransmit (_boundary line_mask) else c_zero))%cx) /\
    (forall r c, box_transmittance (_boundary line_mask) <> 0 ->
       _kx d !! c = Some 0%Z -> _ky d !! r = Some 0%Z ->
       mat_elem (_values d) (linear_index (_values d) r c)
       = Some (regions_sum [line_contribution] (linear_index (_values d) r c)
               + _etransmit (box_transmittance (_boundary line_mask))
                            (box_phase (_boundary line_mask)))%cx) /\
    (forall i cxy_i, (i < length (mem (_values (line_spectrum_grid example_source))))%nat ->
       mat_elem (_cxy d) i = Some cxy_i -> cxy_i <> 0 ->
       mat_elem (_values d) i = Some (regions_sum [line_contribution] i)) /\
    (box_transmittance (_boundary line_mask) = 0 ->
     forall i, (i < length (mem (_values (line_spectrum_grid example_source))))%nat ->
       mat_elem (_values d) i = Some (regions_sum [line_contribution] i)).
Proof.
  assert (Hbad : is_bad line_mask = false).
  { unfold is_bad; simpl. case_Reqb 800 0; [exfalso; lra|done]. }
  split; [exact Hbad|]. split; [apply line_grid_built|].
  split; [apply line_contribution_computed|].
  exact (diffraction_background_term example_tool line_mask
           (line_spectrum_grid example_source) [line_contribution]
           Hbad (line_grid_built _ _ _ _) line_contribution_computed).
Defined.

End line_mask_example.

(** ** One-dimensional convolutions ([opl_conv.h]) *)

Module conv.

(** [typedef enum { SYMMETRIC = 0, CIRCULAR = 1 } conv1d_type_t] *)
Inductive conv1d_type_t : Type := SYMMETRIC | CIRCULAR.

Section Conv.

(** The width of armadillo's [uword], 32 or 64 bits by the build. *)
Variable uword_bits : Z.

(** [kmin = -static_cast<int32_t>(std::floor(n_elem/2.0))] for the kernel
    length [n_elem]. *)
Definition kmin (kernel : list R) : Z := (- (Z.of_nat (length kernel) / 2))%Z.

(** The array index that [_symmetric_conv1d] reads for the output sample
    [i] and the kernel offset [s]; [c] is the array length. *)
Definition symmetric_index (c i s : Z) : Z :=
  let w := Z.abs (i + s) in
  if (c <=? w)%Z then
    let is_fall := ((w / (c - 1)) mod 2)%Z in
    if (is_fall =? 0)%Z then (w mod (c - 1))%Z else ((c - 1) - w mod (c - 1))%Z
  else w.

(** The index that [_circular_conv1d] reads:
    [(array.n_elem + i + s) % array.n_elem] in unsigned arithmetic. *)
Definition circular_index (n i s : Z) : Z :=
  (((n + i + s) mod 2 ^ uword_bits) mod n)%Z.

(** The inner loop: [sum += array(v) * kernel(k)] for [k = 0 .. n_elem-1],
    with [s = kmin + k]. *)
Definition conv_at (index : Z -> Z -> Z) (array kernel : list R) (i : nat) : R :=
  fold_left
    (fun sum k =>
       sum + (array !!! Z.to_nat (index (Z.of_nat i) (kmin kernel + Z.of_nat k)%Z))
             * (kernel !!! k))
    (seq 0 (length kernel)) 0.

Definition conv_with (index : Z -> Z -> Z -> Z) (array kernel : list R) : list R :=
  let n := length array in
  if (1 <? n)%nat then
    map (conv_at (index (Z.of_nat n)) array kernel) (seq 0 n)
  else if (n =? 1)%nat then [array !!! 0%nat]
  else [].

Definition _symmetric_conv1d (array kernel : list R) : list R :=
  conv_with symmetric_index array kernel.

Definition _circular_conv1d (array kernel : list R) : list R :=
  conv_with circular_index array kernel.

(** [conv::conv1d] on a row, a column or a tube. *)
Definition conv1d (array kernel : list R) (type : conv1d_type_t) : list R :=
  match type with
  | CIRCULAR => _circular_conv1d array kernel
  | SYMMETRIC => _symmetric_conv1d array kernel
  end.

End Conv.

End conv.

(** ** Resist models and resist volumes ([opl_capi.h], [opl_capi.cpp], [opl_physc.h]) *)

Module resist.
Import oplc.

(** [physc::R], the ideal gas constant, and [physc::T0], absolute zero. *)
Definition physc_R : R := 1.987204118e-3.
Definition physc_T0 : R := -273.15.

(** A value of the computation that IEEE arithmetic leaves finite.  Where the
    source divides by zero or takes the root of a negative number the result
    is an infinity or a NaN, which no real number models: [None]. *)
Definition fdiv (x y : R) : option R := if Reqb y 0 then None else Some (x / y).
Definition fsqrt (x : R) : option R := if Rltb x 0 then None else Some (sqrt x).

Record PostExposureBake : Type := mkPostExposureBake { peb_time : R; peb_temp : R }.

Record PebResistModel : Type := mkPebResistModel { ea : R; ln_ar : R }.

(** [PebResistModel::diffusivity]: [exp(ln_ar - ea/(R*tempk))] *)
Definition diffusivity (m : PebResistModel) (temp : R) : option R :=
  let tempk := temp - physc_T0 in
  q ← fdiv (ea m) (physc_R * tempk);
  Some (exp (ln_ar m - q)).

(** [PebResistModel::diffusion_length]: [sqrt(2.0 * diffusivity(temp) * time)] *)
Definition diffusion_length (m : PebResistModel) (temp time : R) : option R :=
  d ← diffusivity m temp;
  fsqrt (2 * d * time).

(** [std::ceil] and [std::fmod] *)
Definition ceil (x : R) : R := IZR (Zceil x).
Definition fmod (x y : R) : R := x - IZR (trunc (x / y)) * y.

(** The sample [k] of the Gaussian before normalisation:
    [step/sigma/sqrt(2*M_PI)*exp(-x*x/2/sigma/sigma)], [x = k*step - sigma_on_grid]. *)
Definition gauss_sample (step sigma sigma_on_grid : R) (k : nat) : R :=
  let x := INR k * step - sigma_on_grid in
  step / sigma / sqrt (2 * M_PI) * exp (- x * x / 2 / sigma / sigma).

(** [PebResistModel::kernel(peb, step)].  The samples divide by [sigma] and
    the normalisation [kernel / arma::accu(kernel)] by the sum. *)
Definition kernel (m : PebResistModel) (peb : PostExposureBake) (step : R)
  : option (list R) :=
  if negb (Reqb step 0) then
    sigma ← diffusion_length m (peb_temp peb) (peb_time peb);
    if Reqb sigma 0 then None
    else
      let sigma_on_grid := ceil (3 * sigma) - fmod (ceil (3 * sigma)) step + step in
      let count := Z.to_nat (trunc (2 * sigma_on_grid / step) + 1) in
      let kernel := map (gauss_sample step sigma sigma_on_grid) (seq 0 count) in
      if Reqb (accu kernel) 0 then None
      else Some (map (fun v => v / accu kernel) kernel)
  else Some [1].

End resist.

(** *** Sums of doubles *)

Module sums.

(** The sum of [f 0 .. f (n-1)]. *)
Fixpoint Rsum (f : nat -> R) (n : nat) : R :=
  match n with
  | O => 0
  | S n' => Rsum f n' + f n'
  end.

Lemma fold_left_Rplus_shift (l : list R) (a : R) : fold_left Rplus l a = a + accu l.
Proof.
  unfold accu. revert a. induction l as [|x l IH]; intros a; simpl; [lra|].
  rewrite (IH (a + x)), (IH (0 + x)). lra.
Qed.

Lemma accu_nil : accu [] = 0.
Proof. done. Qed.

Lemma accu_cons (x : R) (l : list R) : accu (x :: l) = x + accu l.
Proof. unfold accu at 1; simpl. rewrite fold_left_Rplus_shift. lra. Qed.

Lemma accu_app (l1 l2 : list R) : accu (l1 ++ l2) = accu l1 + accu l2.
Proof.
  induction l1 as [|x l1 IH]; simpl.
  - rewrite accu_nil. lra.
  - rewrite !accu_cons, IH. lra.
Qed.

Lemma accu_map_div (l : list R) (a : R) : accu (map (fun v => v / a) l) = accu l / a.
Proof.
  induction l as [|x l IH]; simpl.
  - rewrite accu_nil. unfold Rdiv. lra.
  - rewrite !accu_cons, IH. unfold Rdiv. lra.
Qed.

Lemma accu_pos (l : list R) : l <> [] -> Forall (fun v => 0 < v) l -> 0 < accu l.
Proof.
  intros Hne Hall. induction Hall as [|x l Hx Hall IH]; [done|].
  rewrite accu_cons. destruct l as [|y l].
  - rewrite accu_nil. lra.
  - assert (0 < accu (y :: l)) by (by apply IH). lra.
Qed.

Lemma accu_nonneg (l : list R) : Forall (fun v => 0 <= v) l -> 0 <= accu l.
Proof.
  induction 1 as [|x l Hx Hall IH]; [rewrite accu_nil; lra|].
  rewrite accu_cons. lra.
Qed.

Lemma accu_map_seq (f : nat -> R) (n : nat) : accu (map f (seq 0 n)) = Rsum f n.
Proof.
  induction n as [|n IH]; [done|].
  rewrite seq_S, map_app, accu_app, IH. simpl. rewrite accu_cons, accu_nil. lra.
Qed.

Lemma Rsum_ext (f g : nat -> R) (n : nat) :
  (forall i, (i < n)%nat -> f i = g i) -> Rsum f n = Rsum g n.
Proof.
  induction n as [|n IH]; intros H; simpl; [done|].
  rewrite IH, H by (intros; auto with lia). done.
Qed.

Lemma accu_lookup (l : list R) : accu l = Rsum (fun i => l !!! i) (length l).
Proof.
  rewrite <- accu_map_seq. f_equal. apply list_eq. intros i.
  rewrite list_lookup_fmap. destruct (decide (i < length l)%nat) as [Hi|Hi].
  - rewrite lookup_seq_lt by done. simpl.
    by rewrite (list_lookup_lookup_total_lt l i Hi).
  - rewrite lookup_seq_ge by lia. by rewrite lookup_ge_None_2 by lia.
Qed.

Lemma Rsum_plus (f g : nat -> R) (n : nat) :
  Rsum (fun i => f i + g i) n = Rsum f n + Rsum g n.
Proof. induction n as [|n IH]; simpl; [lra|]. rewrite IH. lra. Qed.

Lemma Rsum_scal_r (f : nat -> R) (c : R) (n : nat) :
  Rsum (fun i => f i * c) n = Rsum f n * c.
Proof. induction n as [|n IH]; simpl; [lra|]. rewrite IH. lra. Qed.

Lemma Rsum_const (c : R) (n : nat) : Rsum (fun _ => c) n = INR n * c.
Proof.
  induction n as [|n IH]; [simpl; lra|].
  rewrite S_INR. simpl Rsum. rewrite IH. lra.
Qed.

Lemma Rsum_swap (f : nat -> nat -> R) (n m : nat) :
  Rsum (fun i => Rsum (fun k => f i k) m) n = Rsum (fun k => Rsum (fun i => f i k) n) m.
Proof.
  induction n as [|n IH]; simpl.
  - induction m as [|m IHm]; simpl; [done|]. rewrite <- IHm. lra.
  - rewrite IH, <- Rsum_plus. done.
Qed.

Lemma Rsum_S_l (f : nat -> R) (n : nat) :
  Rsum f (S n) = f 0%nat + Rsum (fun i => f (S i)) n.
Proof.
  induction n as [|n IH]; [simpl; lra|].
  change (Rsum f (S (S n))) with (Rsum f (S n) + f (S n)).
  rewrite IH. simpl. lra.
Qed.

(** Shifting the index by one around the ring [0 .. n-1] keeps the sum. *)
Lemma Rsum_rotate_one (f : nat -> R) (n : nat) :
  Rsum (fun i => f ((i + 1) mod n)%nat) n = Rsum f n.
Proof.
  destruct n as [|n]; [done|].
  assert (H : forall m, (m <= n)%nat ->
            Rsum (fun i => f ((i + 1) mod S n)%nat) m = Rsum (fun i => f (S i)) m).
  { intros m Hm. apply Rsum_ext. intros i Hi.
    rewrite Nat.mod_small by lia. f_equal. lia. }
  rewrite (Rsum_S_l f n). cbn [Rsum]. rewrite H by lia.
  replace ((n + 1) mod S n)%nat with 0%nat
    by (replace (n + 1)%nat with (S n) by lia; by rewrite Nat.Div0.mod_same).
  lra.
Qed.

Lemma Rsum_rotate (f : nat -> R) (n t : nat) :
  Rsum (fun i => f ((i + t) mod n)%nat) n = Rsum f n.
Proof.
  induction t as [|t IH].
  - apply Rsum_ext. intros i Hi. rewrite Nat.add_0_r. by rewrite Nat.mod_small.
  - rewrite <- IH.
    rewrite <- (Rsum_rotate_one (fun j => f ((j + t) mod n)%nat) n).
    apply Rsum_ext. intros i Hi. f_equal.
    rewrite Nat.Div0.add_mod_idemp_l. f_equal. lia.
Qed.

End sums.

(** *** The diffusion kernel *)

Module resist_facts.
Import oplc resist sums.

Lemma trunc_nonneg (x : R) : 0 <= x -> trunc x = Zfloor x.
Proof. intros Hx. unfold trunc. case_Rltb x 0; [lra | done]. Qed.

Lemma trunc_IZR (z : Z) : (0 <= z)%Z -> trunc (IZR z) = z.
Proof.
  intros Hz. rewrite trunc_nonneg by (by apply IZR_le). apply ZfloorZ.
Qed.

Lemma diffusivity_pos (m : PebResistModel) (temp : R) :
  temp - physc_T0 <> 0 ->
  exists d, diffusivity m temp = Some d /\ 0 < d.
Proof.
  intros Htemp. unfold diffusivity, fdiv.
  case_Reqb (physc_R * (temp - physc_T0)) 0.
  - exfalso. unfold physc_R in *. nra.
  - eexists. split; [done|]. apply exp_pos.
Qed.

Lemma diffusion_length_pos (m : PebResistModel) (temp time : R) :
  temp - physc_T0 <> 0 -> 0 < time ->
  exists sigma, diffusion_length m temp time = Some sigma /\ 0 < sigma.
Proof.
  intros Htemp Htime. unfold diffusion_length.
  destruct (diffusivity_pos m temp Htemp) as (d & -> & Hd). simpl.
  unfold fsqrt. assert (0 < 2 * d * time) by nra.
  case_Rltb (2 * d * time) 0; [lra|].
  eexists. split; [done|]. by apply sqrt_lt_R0.
Qed.

(** No bake time: the diffusion length is zero. *)
Lemma diffusion_length_no_time (m : PebResistModel) (temp : R) :
  temp - physc_T0 <> 0 -> diffusion_length m temp 0 = Some 0.
Proof.
  intros Htemp. unfold diffusion_length.
  destruct (diffusivity_pos m temp Htemp) as (d & -> & Hd). simpl.
  unfold fsqrt. replace (2 * d * 0) with 0 by lra.
  case_Rltb 0 0; [lra|]. by rewrite sqrt_0.
Qed.

Lemma ceil_pos (x : R) : 0 < x -> 1 <= ceil x.
Proof.
  intros Hx. unfold ceil. apply IZR_le.
  assert (H := Zceil_bound x). destruct H as [_ H].
  assert (0 < IZR (Zceil x)) by lra.
  apply lt_IZR in H0. lia.
Qed.

(** The half width lies on the grid: it is a whole number of steps. *)
Lemma sigma_on_grid_multiple (a step : R) :
  0 <= a -> 0 < step ->
  exists q : Z, (0 <= q)%Z /\ a - fmod a step + step = IZR (q + 1) * step.
Proof.
  intros Ha Hstep. exists (Zfloor (a / step)).
  assert (Hq : 0 <= a / step) by (unfold Rdiv; apply Rmult_le_pos; [lra|]; left; apply Rinv_0_lt_compat; lra).
  split.
  - apply Zfloor_lub. simpl. lra.
  - unfold fmod. rewrite trunc_nonneg by done. rewrite plus_IZR. lra.
Qed.

Lemma kernel_count (q : Z) (step : R) :
  (0 <= q)%Z -> 0 < step ->
  Z.to_nat (trunc (2 * (IZR (q + 1) * step) / step) + 1) = (2 * Z.to_nat q + 3)%nat.
Proof.
  intros Hq Hstep.
  replace (2 * (IZR (q + 1) * step) / step) with (IZR (2 * (q + 1)))
    by (rewrite mult_IZR; field; lra).
  rewrite trunc_IZR by lia. lia.
Qed.

Lemma gauss_sample_pos (step sigma sigma_on_grid : R) (k : nat) :
  0 < step -> 0 < sigma -> 0 < gauss_sample step sigma sigma_on_grid k.
Proof.
  intros Hstep Hsigma. unfold gauss_sample.
  assert (Hpi : 0 < sqrt (2 * M_PI)).
  { apply sqrt_lt_R0. unfold M_PI. assert (H := PI_RGT_0). lra. }
  apply Rmult_lt_0_compat; [|apply exp_pos].
  apply Rdiv_lt_0_compat; [|done]. by apply Rdiv_lt_0_compat.
Qed.


(** Every kernel the model returns sums to one. *)
Lemma kernel_sum (m : PebResistModel) (peb : PostExposureBake) (step : R) (k : list R) :
  kernel m peb step = Some k -> accu k = 1.
Proof.
  unfold kernel. case_Reqb step 0; simpl.
  - intros [= <-]. rewrite accu_cons, accu_nil. lra.
  - destruct (diffusion_length _ _ _) as [sigma|]; [simpl|done].
    case_Reqb sigma 0; [done|].
    set (samples := map _ _).
    case_Reqb (accu samples) 0; [done|].
    intros [= <-]. rewrite accu_map_div. by field.
Qed.


(** C5, at a bake of no duration: the diffusion length is zero, the samples
    [step/sigma/...] divide by it and the kernel on a 5 nm grid is not a
    vector of finite numbers, while the degenerate grid [step = 0] is
    answered with the identity kernel [[1]]. *)
Theorem kernel_zero_bake_time (m : PebResistModel) :
  kernel m (mkPostExposureBake 0 110) 5 = None /\
  kernel m (mkPostExposureBake 0 110) 0 = Some [1].
Proof.
  split.
  - unfold kernel. case_Reqb 5 0; [lra|]. simpl.
    rewrite diffusion_length_no_time by (unfold physc_T0; lra). simpl.
    by rewrite Reqb_refl.
  - unfold kernel. by rewrite Reqb_refl.
Qed.

End resist_facts.

(** ** Resist volumes and the resist stages of the simulation
    ([opl_capi.h], [opl_capi.cpp], [opl_sim.cpp]) *)

Module volume.
Import geometry conv resist sums.

(** [arma::cube]: the three sizes and the element read [cube(r, c, s)]. *)
Record cube : Type := mkCube {
  cube_n_rows : nat;
  cube_n_cols : nat;
  cube_n_slices : nat;
  cube_at : nat -> nat -> nat -> R
}.

(** [cube.slice(s).row(r)], [cube.slice(s).col(c)] and [cube.tube(r, c)] *)
Definition cube_row (c : cube) (s r : nat) : list R :=
  map (fun j => cube_at c r j s) (seq 0 (cube_n_cols c)).
Definition cube_col (c : cube) (s j : nat) : list R :=
  map (fun r => cube_at c r j s) (seq 0 (cube_n_rows c)).
Definition cube_tube (c : cube) (r j : nat) : list R :=
  map (fun s => cube_at c r j s) (seq 0 (cube_n_slices c)).

(** An operation applied to every element, as [arma::exp] is. *)
Definition cube_map (f : R -> R) (c : cube) : cube :=
  mkCube (cube_n_rows c) (cube_n_cols c) (cube_n_slices c)
         (fun r j s => f (cube_at c r j s)).

(** The sum of the elements of one slice and of the whole cube. *)
Definition slice_accu (c : cube) (s : nat) : R :=
  Rsum (fun r => Rsum (fun j => cube_at c r j s) (cube_n_cols c)) (cube_n_rows c).
Definition cube_accu (c : cube) : R :=
  Rsum (slice_accu c) (cube_n_slices c).

(** The cubes live behind [std::shared_ptr<arma::cube>]: a store of cubes
    by address. *)
Abbreviation heap := (gmap nat cube).

(** [AbstractResistSimulations] with [ResistVolume]: the coordinate vectors,
    the steps, the cached input data and the pointer to the values. *)
Record ResistVolume : Type := mkResistVolume {
  _x : list R;
  _y : list R;
  _z : list R;
  _stepx : R;
  _stepy : R;
  _stepz : R;
  _values : nat;
  boundary : RectangleGeometry;
  thickness : R;
  desired_stepxy : R;
  desired_stepz : R
}.

Definition stepx (v : ResistVolume) : R := _stepx v.
Definition stepy (v : ResistVolume) : R := _stepy v.
Definition stepz (v : ResistVolume) : R := _stepz v.

Record Exposure : Type := mkExposure {
  focus : R;
  nominal_dose : R;
  correctable : R
}.

(** [Exposure::dose] *)
Definition dose (e : Exposure) : R := nominal_dose e * correctable e.

(** [ExposureResistModel]: the Dill constants and the real refractive index. *)
Record ExposureResistModel : Type := mkExposureResistModel {
  erm_wavelength : R;
  dill_a : R;
  dill_b : R;
  dill_c : R;
  dill_n : R
}.

(** The models of [ResistWaferLayer] that the stages below read. *)
Record ResistWaferLayer : Type := mkResistWaferLayer {
  rl_thickness : R;
  rl_exposure : ExposureResistModel;
  rl_peb : PebResistModel
}.

Section Stages.

(** The width of armadillo's [uword] and the content of memory that armadillo
    allocates without filling it. *)
Variable uword_bits : Z.
Variable uninitialised : nat -> nat -> nat -> R.

(** [ResistVolume::ResistVolume(const ResistVolume& other, bool copydata)]:
    the cube is allocated anew; it is a copy of the other's when [copydata]
    is false and an unfilled cube of the same sizes when it is true. *)
Definition ResistVolume_copy (h : heap) (other : ResistVolume) (copydata : bool)
  : option (ResistVolume * heap) :=
  data ← h !! _values other;
  let p := fresh (dom h) in
  let c := if copydata
           then mkCube (cube_n_rows data) (cube_n_cols data) (cube_n_slices data)
                       uninitialised
           else data in
  Some (mkResistVolume (_x other) (_y other) (_z other)
          (_stepx other) (_stepy other) (_stepz other) p
          (boundary other) (thickness other) (desired_stepxy other)
          (desired_stepz other),
        <[p := c]> h).

(** [latent_image]: [*result->values() = arma::exp(-values*dose*c)] *)
Definition latent_image (h : heap) (image_in_resist : ResistVolume)
    (resist : ResistWaferLayer) (exposure : Exposure) : option (ResistVolume * heap) :=
  '(result, h1) ← ResistVolume_copy h image_in_resist false;
  values ← h1 !! _values image_in_resist;
  let exposed :=
    cube_map (fun v => exp (- v * dose exposure * dill_c (rl_exposure resist))) values in
  Some (result, <[_values result := exposed]> h1).

(** The three loops of [peb_latent_image]: every row of every slice is
    convolved with [kernelx], then every column of the result with [kernely],
    both circularly; then every tube with [kernelz], symmetrically. *)
Definition convolve_rows (kernelx : list R) (input : cube) : cube :=
  mkCube (cube_n_rows input) (cube_n_cols input) (cube_n_slices input)
    (fun r j s => conv1d uword_bits (cube_row input s r) kernelx CIRCULAR !!! j).

Definition convolve_cols (kernely : list R) (output : cube) : cube :=
  mkCube (cube_n_rows output) (cube_n_cols output) (cube_n_slices output)
    (fun r j s => conv1d uword_bits (cube_col output s j) kernely CIRCULAR !!! r).

Definition convolve_tubes (kernelz : list R) (output : cube) : cube :=
  mkCube (cube_n_rows output) (cube_n_cols output) (cube_n_slices output)
    (fun r j s => conv1d uword_bits (cube_tube output r j) kernelz SYMMETRIC !!! s).

(** [peb_latent_image] *)
Definition peb_latent_image (h : heap) (latent_image : ResistVolume)
    (resist : ResistWaferLayer) (peb : PostExposureBake) : option (ResistVolume * heap) :=
  '(result, h1) ← ResistVolume_copy h latent_image false;
  kernelx ← kernel (rl_peb resist) peb (stepx latent_image);
  kernely ← kernel (rl_peb resist) peb (stepy latent_image);
  kernelz ← kernel (rl_peb resist) peb (stepz latent_image);
  input ← h1 !! _values latent_image;
  let output :=
    convolve_tubes kernelz (convolve_cols kernely (convolve_rows kernelx input)) in
  Some (result, <[_values result := output]> h1).

End Stages.

End volume.

(** *** Convolutions and sums *)

Module conv_facts.
Import conv sums.

Lemma fold_left_Rsum (g : nat -> R) (n : nat) :
  fold_left (fun sum k => sum + g k) (seq 0 n) 0 = Rsum g n.
Proof.
  induction n as [|n IH]; [done|].
  by rewrite seq_S, fold_left_app, IH.
Qed.

Section ConvFacts.

Variable uword_bits : Z.

Lemma conv_at_Rsum (index : Z -> Z -> Z) (array kernel : list R) (i : nat) :
  conv_at index array kernel i
  = Rsum (fun k => (array !!! Z.to_nat (index (Z.of_nat i) (kmin kernel + Z.of_nat k)%Z))
                   * (kernel !!! k)) (length kernel).
Proof. unfold conv_at. apply (fold_left_Rsum (fun k => _ * _)). Qed.

Lemma length_conv_with (index : Z -> Z -> Z -> Z) (array kernel : list R) :
  length (conv_with index array kernel) = length array.
Proof.
  unfold conv_with. destruct (1 <? length array)%nat eqn:Hn.
  - by rewrite length_map, length_seq.
  - destruct (length array =? 1)%nat eqn:H1.
    + apply Nat.eqb_eq in H1. by rewrite H1.
    + apply Nat.ltb_ge in Hn. apply Nat.eqb_neq in H1. simpl. lia.
Qed.

Lemma length_conv1d (array kernel : list R) (type : conv1d_type_t) :
  length (conv1d uword_bits array kernel type) = length array.
Proof. destruct type; apply length_conv_with. Qed.

(** A vector of one element is returned as it is, whatever the kernel. *)
Lemma conv1d_singleton (x : R) (kernel : list R) (type : conv1d_type_t) :
  conv1d uword_bits [x] kernel type = [x].
Proof. by destruct type. Qed.

Lemma conv_with_lookup (index : Z -> Z -> Z -> Z) (array kernel : list R) (i : nat) :
  (1 < length array)%nat -> (i < length array)%nat ->
  conv_with index array kernel !!! i
  = conv_at (index (Z.of_nat (length array))) array kernel i.
Proof.
  intros Hn Hi. unfold conv_with.
  apply Nat.ltb_lt in Hn. rewrite Hn.
  apply list_lookup_total_correct.
  rewrite list_lookup_fmap, lookup_seq_lt by done. done.
Qed.

(** The index read by the circular convolution, when neither the unsigned
    sum wraps nor the kernel reaches back beyond one period. *)
Lemma circular_index_nowrap (n i k len : nat) :
  (i < n)%nat -> (k < len)%nat -> (len / 2 <= n)%nat ->
  (2 * Z.of_nat n + Z.of_nat len <= 2 ^ uword_bits)%Z ->
  Z.to_nat (circular_index uword_bits (Z.of_nat n) (Z.of_nat i)
              (- (Z.of_nat len / 2) + Z.of_nat k))
  = ((i + (n - len / 2 + k)) mod n)%nat.
Proof.
  intros Hi Hk Hhalf Hwrap. unfold circular_index.
  assert (Hdiv : (Z.of_nat len / 2)%Z = Z.of_nat (len / 2))
    by (by rewrite (Nat2Z.inj_div len 2)).
  rewrite Hdiv.
  replace (Z.of_nat n + Z.of_nat i + (- Z.of_nat (len / 2) + Z.of_nat k))%Z
    with (Z.of_nat (i + (n - len / 2 + k))) by lia.
  assert (len / 2 <= len)%nat by (apply Nat.Div0.div_le_upper_bound; lia).
  rewrite (Z.mod_small _ (2 ^ uword_bits)) by lia.
  rewrite <- Nat2Z.inj_mod. apply Nat2Z.id.
Qed.

(** A circular convolution multiplies the sum of the array by the sum of the
    kernel. *)
Lemma circular_conv_accu (array kernel : list R) :
  (1 < length array)%nat ->
  (length kernel / 2 <= length array)%nat ->
  (2 * Z.of_nat (length array) + Z.of_nat (length kernel) <= 2 ^ uword_bits)%Z ->
  accu (_circular_conv1d uword_bits array kernel) = accu array * accu kernel.
Proof.
  intros Hn Hhalf Hwrap.
  unfold _circular_conv1d.
  rewrite accu_lookup, (length_conv_with (circular_index uword_bits)).
  rewrite (Rsum_ext _ (fun i => Rsum (fun k =>
             (array !!! ((i + (length array - length kernel / 2 + k)) mod length array)%nat)
             * (kernel !!! k)) (length kernel))).
  2:{ intros i Hi. rewrite conv_with_lookup by done.
      rewrite conv_at_Rsum. apply Rsum_ext. intros k Hk.
      unfold kmin. by rewrite circular_index_nowrap. }
  rewrite Rsum_swap.
  rewrite (Rsum_ext _ (fun k => kernel !!! k * accu array)).
  2:{ intros k Hk. rewrite Rsum_scal_r.
      rewrite (Rsum_rotate (fun i => array !!! i)), <- accu_lookup. lra. }
  rewrite Rsum_scal_r, <- accu_lookup. lra.
Qed.

(** With a kernel of unit sum the circular convolution keeps the sum of the
    array, whatever its length. *)
Lemma circular_conv_conserves (array kernel : list R) :
  accu kernel = 1 ->
  (length kernel / 2 <= length array)%nat ->
  (2 * Z.of_nat (length array) + Z.of_nat (length kernel) <= 2 ^ uword_bits)%Z ->
  accu (conv1d uword_bits array kernel CIRCULAR) = accu array.
Proof.
  intros Hk Hhalf Hwrap. simpl.
  destruct (decide (1 < length array)%nat) as [Hn|Hn].
  - rewrite circular_conv_accu, Hk by done. lra.
  - destruct array as [|x [|y array]]; [done|done|simpl in Hn; lia].
Qed.

(** The identity kernel [[1]] leaves the array as it is under the symmetric
    boundary. *)
Lemma symmetric_conv_identity (array : list R) (i : nat) :
  (i < length array)%nat ->
  conv1d uword_bits array [1] SYMMETRIC !!! i = array !!! i.
Proof.
  intros Hi. simpl. destruct (decide (1 < length array)%nat) as [Hn|Hn].
  - unfold _symmetric_conv1d. rewrite conv_with_lookup by done.
    rewrite conv_at_Rsum. simpl. unfold kmin, symmetric_index. simpl.
    rewrite Z.add_0_r, Z.abs_eq by lia.
    destruct (Z.leb_spec (Z.of_nat (length array)) (Z.of_nat i)); [lia|].
    rewrite Nat2Z.id. lra.
  - destruct array as [|x [|y array]]; [simpl in Hi; lia| |simpl in Hn; lia].
    by destruct i.
Qed.

End ConvFacts.

End conv_facts.

(** *** The exposure and the bake *)

Module volume_facts.
Import geometry conv resist sums volume conv_facts resist_facts.

Section StageFacts.

Variable uword_bits : Z.
Variable uninitialised : nat -> nat -> nat -> R.

Lemma fresh_not_allocated (h : heap) : h !! fresh (dom h) = None.
Proof. apply not_elem_of_dom. apply is_fresh. Qed.

Lemma ResistVolume_copy_data (h : heap) (other : ResistVolume) (data : cube) :
  h !! _values other = Some data ->
  exists result,
    ResistVolume_copy uninitialised h other false
      = Some (result, <[_values result := data]> h) /\
    h !! _values result = None /\
    _stepx result = _stepx other /\ _stepy result = _stepy other /\
    _stepz result = _stepz other.
Proof.
  intros Hdata. unfold ResistVolume_copy. rewrite Hdata. simpl.
  exists (mkResistVolume (_x other) (_y other) (_z other)
            (_stepx other) (_stepy other) (_stepz other) (fresh (dom h))
            (boundary other) (thickness other) (desired_stepxy other)
            (desired_stepz other)).
  split; [reflexivity|]. simpl. split; [apply fresh_not_allocated|done].
Qed.

Lemma exp_dose_bounds (v d c : R) : 0 <= v -> 0 <= d -> 0 <= c -> 0 <= exp (- v * d * c) <= 1.
Proof.
  intros Hv Hd Hc. split; [left; apply exp_pos|].
  rewrite <- exp_0. destruct (Req_dec (- v * d * c) 0) as [->|Hne]; [lra|].
  left. apply exp_increasing.
  assert (0 <= v * d * c) by (apply Rmult_le_pos; [apply Rmult_le_pos|]; done).
  lra.
Qed.

(** C6: [latent_image] allocates a volume of its own, whose cube has the
    sizes of the input and holds [exp(-I * dose * C)] element by element,
    with [dose = nominal_dose * correctable] and [C] the resist's Dill C;
    every cube that was allocated before, the input among them, is left as
    it was; where the input is not negative and neither are dose and C, the
    output lies between 0 and 1. *)
Theorem latent_image_exposed (h : heap) (image_in_resist : ResistVolume)
    (resist : ResistWaferLayer) (exposure : Exposure) (I : cube) :
  h !! _values image_in_resist = Some I ->
  exists (result : ResistVolume) (h' : heap) (L : cube),
    latent_image uninitialised h image_in_resist resist exposure = Some (result, h') /\
    h !! _values result = None /\
    h' !! _values result = Some L /\
    (forall p c, h !! p = Some c -> h' !! p = Some c) /\
    h' !! _values image_in_resist = Some I /\
    cube_n_rows L = cube_n_rows I /\ cube_n_cols L = cube_n_cols I /\
    cube_n_slices L = cube_n_slices I /\
    (forall r j s, cube_at L r j s
       = exp (- cube_at I r j s * (nominal_dose exposure * correctable exposure)
              * dill_c (rl_exposure resist))) /\
    (0 <= nominal_dose exposure * correctable exposure ->
     0 <= dill_c (rl_exposure resist) ->
     forall r j s, 0 <= cube_at I r j s -> 0 <= cube_at L r j s <= 1).
Proof.
  intros HI. unfold latent_image.
  destruct (ResistVolume_copy_data h image_in_resist I HI) as (result & -> & Hfresh & _).
  assert (Hne : _values result <> _values image_in_resist) by congruence.
  simpl. rewrite lookup_insert_ne, HI by done. simpl.
  eexists result, _, _. split; [done|]. split; [done|].
  split; [by rewrite lookup_insert_eq|].
  assert (Hframe : forall p c, h !! p = Some c ->
            <[_values result := cube_map
                 (fun v => exp (- v * dose exposure * dill_c (rl_exposure resist))) I]>
              (<[_values result := I]> h) !! p = Some c).
  { intros p c Hp. rewrite !lookup_insert_ne by congruence. done. }
  split; [done|]. split; [by apply Hframe|].
  repeat split; try done.
  - left. apply exp_pos.
  - by apply exp_dose_bounds.
Qed.

(** *** Sums of slices *)

Lemma slice_accu_rows (c : cube) (s : nat) :
  slice_accu c s = Rsum (fun r => accu (cube_row c s r)) (cube_n_rows c).
Proof.
  unfold slice_accu, cube_row. apply Rsum_ext. intros r _.
  by rewrite accu_map_seq.
Qed.

Lemma slice_accu_cols (c : cube) (s : nat) :
  slice_accu c s = Rsum (fun j => accu (cube_col c s j)) (cube_n_cols c).
Proof.
  unfold slice_accu, cube_col. rewrite Rsum_swap. apply Rsum_ext. intros j _.
  by rewrite accu_map_seq.
Qed.

Lemma length_cube_row (c : cube) (s r : nat) : length (cube_row c s r) = cube_n_cols c.
Proof. unfold cube_row. by rewrite length_map, length_seq. Qed.

Lemma length_cube_col (c : cube) (s j : nat) : length (cube_col c s j) = cube_n_rows c.
Proof. unfold cube_col. by rewrite length_map, length_seq. Qed.

Lemma length_cube_tube (c : cube) (r j : nat) : length (cube_tube c r j) = cube_n_slices c.
Proof. unfold cube_tube. by rewrite length_map, length_seq. Qed.

Lemma cube_tube_lookup (c : cube) (r j s : nat) :
  (s < cube_n_slices c)%nat -> cube_tube c r j !!! s = cube_at c r j s.
Proof.
  intros Hs. unfold cube_tube. apply list_lookup_total_correct.
  by rewrite list_lookup_fmap, lookup_seq_lt.
Qed.

(** The sum over the positions of a convolved vector. *)
Lemma Rsum_conv1d (array kernel : list R) (type : conv1d_type_t) (n : nat) :
  n = length array ->
  Rsum (fun i => conv1d uword_bits array kernel type !!! i) n
  = accu (conv1d uword_bits array kernel type).
Proof. intros ->. by rewrite accu_lookup, length_conv1d. Qed.

(** The circular convolution of the rows keeps the sum of every slice. *)
Lemma convolve_rows_slice_accu (kernelx : list R) (input : cube) (s : nat) :
  accu kernelx = 1 ->
  (length kernelx / 2 <= cube_n_cols input)%nat ->
  (2 * Z.of_nat (cube_n_cols input) + Z.of_nat (length kernelx) <= 2 ^ uword_bits)%Z ->
  slice_accu (convolve_rows uword_bits kernelx input) s = slice_accu input s.
Proof.
  intros Hk Hhalf Hwrap. rewrite (slice_accu_rows input).
  unfold slice_accu, convolve_rows. cbn [cube_at cube_n_rows cube_n_cols].
  apply Rsum_ext. intros r _.
  rewrite Rsum_conv1d by (by rewrite length_cube_row).
  apply circular_conv_conserves; by rewrite ?length_cube_row.
Qed.

(** So does the circular convolution of the columns. *)
Lemma convolve_cols_slice_accu (kernely : list R) (output : cube) (s : nat) :
  accu kernely = 1 ->
  (length kernely / 2 <= cube_n_rows output)%nat ->
  (2 * Z.of_nat (cube_n_rows output) + Z.of_nat (length kernely) <= 2 ^ uword_bits)%Z ->
  slice_accu (convolve_cols uword_bits kernely output) s = slice_accu output s.
Proof.
  intros Hk Hhalf Hwrap. rewrite (slice_accu_cols output).
  unfold slice_accu, convolve_cols. cbn [cube_at cube_n_rows cube_n_cols].
  rewrite Rsum_swap. apply Rsum_ext. intros j _.
  rewrite Rsum_conv1d by (by rewrite length_cube_col).
  apply circular_conv_conserves; by rewrite ?length_cube_col.
Qed.

Lemma cube_accu_ext (c1 c2 : cube) :
  cube_n_rows c1 = cube_n_rows c2 -> cube_n_cols c1 = cube_n_cols c2 ->
  cube_n_slices c1 = cube_n_slices c2 ->
  (forall r j s, (s < cube_n_slices c1)%nat -> cube_at c1 r j s = cube_at c2 r j s) ->
  cube_accu c1 = cube_accu c2.
Proof.
  intros Hr Hc Hs Hat. unfold cube_accu, slice_accu. rewrite Hr, Hc, <- Hs.
  apply Rsum_ext. intros s Hlt. apply Rsum_ext. intros r _.
  apply Rsum_ext. intros j _. by apply Hat.
Qed.

Lemma cube_accu_slices (c1 c2 : cube) :
  cube_n_slices c1 = cube_n_slices c2 ->
  (forall s, slice_accu c1 s = slice_accu c2 s) -> cube_accu c1 = cube_accu c2.
Proof.
  intros Hs Hsl. unfold cube_accu. rewrite Hs. apply Rsum_ext. intros s _. apply Hsl.
Qed.

(** The symmetric convolution of the tubes is the identity on a cube of one
    slice and under the identity kernel. *)
Lemma convolve_tubes_identity (kernelz : list R) (output : cube) (r j s : nat) :
  cube_n_slices output = 1%nat \/ kernelz = [1] ->
  (s < cube_n_slices output)%nat ->
  cube_at (convolve_tubes uword_bits kernelz output) r j s = cube_at output r j s.
Proof.
  intros Hz Hs. cbn [convolve_tubes cube_at].
  rewrite <- (cube_tube_lookup output r j s Hs).
  destruct Hz as [Hone| ->].
  - assert (Hlen := length_cube_tube output r j). rewrite Hone in Hlen.
    destruct (cube_tube output r j) as [|x [|y t]]; [done| |done].
    by rewrite conv1d_singleton.
  - apply symmetric_conv_identity. by rewrite length_cube_tube.
Qed.

(** C4, as the code has it: the bake allocates a volume whose cube is the
    input convolved along the rows, then the columns, then the tubes.  With
    kernels that reach back no further than one period, the two circular
    convolutions in the plane keep the sum of every slice, because the
    kernel sums to one.  The symmetric convolution in depth is the
    identity when the cube has one slice or the step in z is zero, and then
    the sum of the whole cube is kept. *)
Theorem peb_latent_image_conservation (h : heap) (latent : ResistVolume)
    (resist : ResistWaferLayer) (peb : PostExposureBake) (I : cube)
    (kernelx kernely kernelz : list R) :
  h !! _values latent = Some I ->
  kernel (rl_peb resist) peb (stepx latent) = Some kernelx ->
  kernel (rl_peb resist) peb (stepy latent) = Some kernely ->
  kernel (rl_peb resist) peb (stepz latent) = Some kernelz ->
  (length kernelx / 2 <= cube_n_cols I)%nat ->
  (length kernely / 2 <= cube_n_rows I)%nat ->
  (2 * Z.of_nat (cube_n_cols I) + Z.of_nat (length kernelx) <= 2 ^ uword_bits)%Z ->
  (2 * Z.of_nat (cube_n_rows I) + Z.of_nat (length kernely) <= 2 ^ uword_bits)%Z ->
  exists (result : ResistVolume) (h' : heap),
    let inplane := convolve_cols uword_bits kernely (convolve_rows uword_bits kernelx I) in
    let P := convolve_tubes uword_bits kernelz inplane in
    peb_latent_image uword_bits uninitialised h latent resist peb = Some (result, h') /\
    h' !! _values result = Some P /\
    (forall s, slice_accu inplane s = slice_accu I s) /\
    cube_accu inplane = cube_accu I /\
    (cube_n_slices I = 1%nat \/ stepz latent = 0 -> cube_accu P = cube_accu I).
Proof.
  intros HI Hkx Hky Hkz Hhx Hhy Hwx Hwy. unfold peb_latent_image.
  destruct (ResistVolume_copy_data h latent I HI) as (result & -> & Hfresh & _).
  assert (Hne : _values result <> _values latent) by congruence.
  simpl. rewrite Hkx, Hky, Hkz. simpl.
  rewrite lookup_insert_ne, HI by done. simpl.
  exists result. eexists. split; [done|]. split; [by rewrite lookup_insert_eq|].
  assert (Hslices : forall s,
            slice_accu (convolve_cols uword_bits kernely
                          (convolve_rows uword_bits kernelx I)) s = slice_accu I s).
  { intros s. rewrite convolve_cols_slice_accu; [|by eapply kernel_sum|done|done].
    apply convolve_rows_slice_accu; [by eapply kernel_sum|done|done]. }
  split; [done|]. split; [by apply cube_accu_slices|].
  intros Hz.
  rewrite <- (cube_accu_slices (convolve_cols uword_bits kernely
                (convolve_rows uword_bits kernelx I)) I eq_refl Hslices).
  apply cube_accu_ext; try done.
  intros r j s Hs. apply convolve_tubes_identity; [|done].
  destruct Hz as [Hone|Hzero]; [by left|right].
  unfold kernel in Hkz. rewrite Hzero, Reqb_refl in Hkz. simpl in Hkz. congruence.
Qed.

End StageFacts.

End volume_facts.

(** *** Exposure and bake of small volumes *)

Module resist_examples.
Import geometry conv resist sums volume conv_facts resist_facts volume_facts.

(** When three diffusion lengths fit within one step, the kernel has three
    samples, at [-step], [0] and [step]. *)
Lemma kernel_three (m : PebResistModel) (peb : PostExposureBake) (step sigma : R) :
  diffusion_length m (peb_temp peb) (peb_time peb) = Some sigma ->
  0 < sigma -> ceil (3 * sigma) < step ->
  let samples := map (gauss_sample step sigma step) [0; 1; 2]%nat in
  kernel m peb step = Some (map (fun v => v / accu samples) samples).
Proof.
  intros Hsigma Hpos Hstep samples.
  assert (Hceil : 1 <= ceil (3 * sigma)) by (apply ceil_pos; lra).
  assert (Hfmod : fmod (ceil (3 * sigma)) step = ceil (3 * sigma)).
  { unfold fmod.
    assert (Hq : 0 <= ceil (3 * sigma) / step < 1).
    { split.
      - unfold Rdiv. apply Rmult_le_pos; [lra|]. left. apply Rinv_0_lt_compat. lra.
      - apply (Rmult_lt_reg_r step); [lra|]. unfold Rdiv.
        rewrite Rmult_assoc, Rinv_l by lra. lra. }
    rewrite trunc_nonneg by lra.
    rewrite (Zfloor_eq 0) by (simpl; lra). simpl. lra. }
  unfold kernel. case_Reqb step 0; [lra|]. simpl.
  rewrite Hsigma. simpl. case_Reqb sigma 0; [lra|].
  rewrite Hfmod.
  replace (ceil (3 * sigma) - ceil (3 * sigma) + step) with step by lra.
  replace (2 * step / step) with 2 by (field; lra).
  rewrite (trunc_IZR 2) by lia.
  change (Z.to_nat (2 + 1)) with 3%nat.
  change (map (gauss_sample step sigma step) (seq 0 3)) with samples.
  assert (Hsum : 0 < accu samples).
  { apply accu_pos; [done|]. unfold samples.
    repeat constructor; apply gauss_sample_pos; lra. }
  case_Reqb (accu samples) 0; [lra|]. done.
Qed.

(** A resist of unit diffusivity baked for two seconds: the diffusion length
    is 2 nm. *)
Definition unit_resist : ResistWaferLayer :=
  mkResistWaferLayer 14 (mkExposureResistModel 248 0 0 0 1) (mkPebResistModel 0 0).

Definition short_bake : PostExposureBake := mkPostExposureBake 2 110.

Lemma unit_diffusion_length :
  diffusion_length (rl_peb unit_resist) (peb_temp short_bake) (peb_time short_bake)
  = Some 2.
Proof.
  unfold diffusion_length, diffusivity, fdiv. simpl.
  case_Reqb (physc_R * (110 - physc_T0)) 0.
  { exfalso. unfold physc_R, physc_T0 in *. lra. }
  simpl. replace (0 - 0 / (physc_R * (110 - physc_T0))) with 0 by (unfold Rdiv; lra).
  rewrite exp_0. unfold fsqrt. case_Rltb (2 * 1 * 2) 0; [lra|].
  replace (2 * 1 * 2) with (2 * 2) by lra. rewrite sqrt_square by lra. done.
Qed.

Lemma ceil_six : ceil (3 * 2) = 6.
Proof. unfold ceil. rewrite (Zceil_eq 6); [done|simpl; lra]. Qed.

(** The kernel of the short bake on a 7 nm grid. *)
Definition samples_7 : list R := map (gauss_sample 7 2 7) [0; 1; 2]%nat.
Definition kernel_7 : list R := map (fun v => v / accu samples_7) samples_7.

Lemma kernel_7_computed : kernel (rl_peb unit_resist) short_bake 7 = Some kernel_7.
Proof.
  apply (kernel_three _ short_bake 7 2 unit_diffusion_length); [lra|].
  rewrite ceil_six. lra.
Qed.

(** A column of resist, 14 nm thick and sampled every 7 nm, that holds one
    unit of the latent image in its first sample. *)
Definition impulse : cube :=
  mkCube 1 1 3 (fun r j s => if (s =? 0)%nat then 1 else 0).

Definition impulse_volume : ResistVolume :=
  mkResistVolume [-400] [0] [14; 7; 0] 0 0 7 0%nat
    (Rectangle (mkPoint2d (-400) 0) (mkPoint2d 400 0)) 14 0 7.

Lemma identity_kernel (m : PebResistModel) (peb : PostExposureBake) :
  kernel m peb 0 = Some [1].
Proof. unfold kernel. by rewrite Reqb_refl. Qed.

(** The symmetric boundary reflects about the end samples: the first sample
    of a tube is read once by the first output, once by the second and never
    by the third. *)
Lemma impulse_diffused (bits : Z) (k0 k1 k2 : R) :
  cube_accu (convolve_tubes bits [k0; k1; k2]
               (convolve_cols bits [1] (convolve_rows bits [1] impulse)))
  = k0 + k1.
Proof.
  unfold cube_accu, slice_accu. simpl.
  unfold conv_at, cube_tube, symmetric_index, kmin. simpl. lra.
Qed.

Lemma exp_8_bound : exp 8 <= 6561.
Proof.
  assert (H1 := exp_le_3). assert (P1 := exp_pos 1).
  assert (H2 : exp 2 <= 9).
  { replace 2 with (1 + 1) by lra. rewrite exp_plus. nra. }
  assert (P2 := exp_pos 2).
  assert (H4 : exp 4 <= 81).
  { replace 4 with (2 + 2) by lra. rewrite exp_plus. nra. }
  assert (P4 := exp_pos 4).
  replace 8 with (4 + 4) by lra. rewrite exp_plus. nra.
Qed.

Lemma gauss_tail_bound : / 6561 < exp (- (49 / 8)).
Proof.
  apply Rle_lt_trans with (exp (- (8))).
  - rewrite exp_Ropp. apply Rinv_le_contravar; [apply exp_pos|apply exp_8_bound].
  - apply exp_increasing. lra.
Qed.

(** The kernel of the short bake gives the two samples it reads less than
    0.9999 of its weight. *)
Lemma kernel_7_weights :
  exists k0 k1 k2, kernel_7 = [k0; k1; k2] /\ k0 + k1 < 0.9999.
Proof.
  eexists _, _, _. split; [reflexivity|].
  unfold samples_7. cbn [map]. rewrite !accu_cons, accu_nil.
  unfold gauss_sample. cbn [INR].
  set (c := 7 / 2 / sqrt (2 * oplc.M_PI)).
  assert (Hc : 0 < c).
  { unfold c. apply Rdiv_lt_0_compat; [lra|]. apply sqrt_lt_R0.
    unfold oplc.M_PI. assert (H := PI_RGT_0). lra. }
  replace (- (0 * 7 - 7) * (0 * 7 - 7) / 2 / 2 / 2) with (- (49 / 8)) by lra.
  replace (- (1 * 7 - 7) * (1 * 7 - 7) / 2 / 2 / 2) with 0 by lra.
  replace (- ((1 + 1) * 7 - 7) * ((1 + 1) * 7 - 7) / 2 / 2 / 2) with (- (49 / 8)) by lra.
  rewrite exp_0. assert (He := gauss_tail_bound).
  set (e := exp (- (49 / 8))) in *.
  assert (Hsum : 0 < c * e + (c * 1 + (c * e + 0))) by nra.
  apply (Rmult_lt_reg_r (c * e + (c * 1 + (c * e + 0)))); [done|].
  replace ((c * e / (c * e + (c * 1 + (c * e + 0)))
            + c * 1 / (c * e + (c * 1 + (c * e + 0))))
           * (c * e + (c * 1 + (c * e + 0))))
    with (c * e + c * 1) by (field; lra).
  assert (/ 6561 < e) by done. nra.
Qed.

(** C4 as the specification words it fails on this column: the bake of the
    impulse, whose sum is 1, has a sum below 0.9999. *)
Lemma peb_depth_loses_mass :
  exists (result : ResistVolume) (h' : heap) (P : cube),
    peb_latent_image 64 (fun _ _ _ => 0) {[0%nat := impulse]} impulse_volume
      unit_resist short_bake = Some (result, h') /\
    h' !! _values result = Some P /\
    cube_accu impulse = 1 /\ cube_accu P < 0.9999.
Proof.
  destruct (ResistVolume_copy_data (fun _ _ _ => 0) {[0%nat := impulse]}
              impulse_volume impulse) as (result & Hcopy & Hfresh & _).
  { apply lookup_singleton_eq. }
  assert (Hne : _values result <> 0%nat).
  { intros E. rewrite E in Hfresh. by rewrite lookup_singleton_eq in Hfresh. }
  destruct kernel_7_weights as (k0 & k1 & k2 & Hk & Hlt).
  exists result. eexists _, _. split; [|split; [|split]].
  - unfold peb_latent_image. rewrite Hcopy. cbn [mbind option_bind].
    change (stepx impulse_volume) with 0. change (stepy impulse_volume) with 0.
    change (stepz impulse_volume) with 7.
    rewrite identity_kernel, kernel_7_computed. cbn [mbind option_bind].
    change (_values impulse_volume) with 0%nat.
    rewrite lookup_insert_ne, lookup_singleton_eq by done.
    cbn [mbind option_bind]. reflexivity.
  - apply lookup_insert_eq.
  - unfold cube_accu, slice_accu. simpl. lra.
  - rewrite Hk, impulse_diffused. done.
Qed.

(** A row of three samples, 7 nm apart. *)
Definition ramp : cube := mkCube 1 3 1 (fun r j s => INR j).

Definition ramp_volume : ResistVolume :=
  mkResistVolume [-7; 0; 7] [0] [0] 7 0 0 0%nat
    (Rectangle (mkPoint2d (-7) 0) (mkPoint2d 7 0)) 0 7 0.

Lemma peb_latent_image_conservation_witness :
  exists (result : ResistVolume) (h' : heap),
    let inplane := convolve_cols 64 [1] (convolve_rows 64 kernel_7 ramp) in
    let P := convolve_tubes 64 [1] inplane in
    peb_latent_image 64 (fun _ _ _ => 0) {[0%nat := ramp]} ramp_volume
      unit_resist short_bake = Some (result, h') /\
    h' !! _values result = Some P /\
    (forall s, slice_accu inplane s = slice_accu ramp s) /\
    cube_accu inplane = cube_accu ramp /\
    (cube_n_slices ramp = 1%nat \/ stepz ramp_volume = 0 -> cube_accu P = cube_accu ramp).
Proof.
  apply (peb_latent_image_conservation 64 (fun _ _ _ => 0) {[0%nat := ramp]}
           ramp_volume unit_resist short_bake ramp kernel_7 [1] [1]).
  - apply lookup_singleton_eq.
  - exact kernel_7_computed.
  - apply identity_kernel.
  - apply identity_kernel.
  - simpl. lia.
  - simpl. lia.
  - simpl. lia.
  - simpl. lia.
Defined.

(** A resist with the Dill constants of the exposure example, exposed with
    a dose of 20. *)
Definition dill_resist : ResistWaferLayer :=
  mkResistWaferLayer 14 (mkExposureResistModel 248 0.7 0.05 0.02 1.7)
                     (mkPebResistModel 30 50).

Lemma latent_image_exposed_witness :
  exists (result : ResistVolume) (h' : heap) (L : cube),
    latent_image (fun _ _ _ => 0) {[0%nat := ramp]} ramp_volume dill_resist
      (mkExposure 0 20 1) = Some (result, h') /\
    ({[0%nat := ramp]} : heap) !! _values result = None /\
    h' !! _values result = Some L /\
    (forall p c, ({[0%nat := ramp]} : heap) !! p = Some c -> h' !! p = Some c) /\
    h' !! _values ramp_volume = Some ramp /\
    cube_n_rows L = cube_n_rows ramp /\ cube_n_cols L = cube_n_cols ramp /\
    cube_n_slices L = cube_n_slices ramp /\
    (forall r j s, cube_at L r j s
       = exp (- cube_at ramp r j s * (20 * 1) * 0.02)) /\
    (0 <= 20 * 1 -> 0 <= 0.02 ->
     forall r j s, 0 <= cube_at ramp r j s -> 0 <= cube_at L r j s <= 1).
Proof.
  apply (latent_image_exposed (fun _ _ _ => 0) {[0%nat := ramp]} ramp_volume
           dill_resist (mkExposure 0 20 1) ramp).
  apply lookup_singleton_eq.
Defined.

End resist_examples.


(** ** The wafer stack ([opl_capi.h], [opl_capi.cpp]) *)

Module wafer.
Import oplc.

Inductive layer_type_t : Type :=
  | ENVIRONMENT_LAYER
  | RESIST_LAYER
  | MATERIAL_LAYER
  | SUBSTRATE_LAYER.

Definition layer_type_eqb (a b : layer_type_t) : bool :=
  match a, b with
  | ENVIRONMENT_LAYER, ENVIRONMENT_LAYER | RESIST_LAYER, RESIST_LAYER
  | MATERIAL_LAYER, MATERIAL_LAYER | SUBSTRATE_LAYER, SUBSTRATE_LAYER => true
  | _, _ => false
  end.

(** [AbstractWaferLayer]: the type, the thickness and the virtual
    [refraction(wavelength)]. *)
Record AbstractWaferLayer : Type := mkWaferLayer {
  type : layer_type_t;
  layer_thickness : R;
  refraction : R -> cx_double
}.

Definition is_environment (l : AbstractWaferLayer) : bool :=
  layer_type_eqb (type l) ENVIRONMENT_LAYER.
Definition is_resist (l : AbstractWaferLayer) : bool :=
  layer_type_eqb (type l) RESIST_LAYER.
Definition is_material (l : AbstractWaferLayer) : bool :=
  layer_type_eqb (type l) MATERIAL_LAYER.
Definition is_substrate (l : AbstractWaferLayer) : bool :=
  layer_type_eqb (type l) SUBSTRATE_LAYER.

(** [std::cos] of a complex number *)
Definition c_cos (a : cx_double) : cx_double :=
  mk_cx (cos (re a) * cosh (im a)) (- (sin (re a) * sinh (im a))).

(** [effective_refraction]: [std::cos(incident_angle) * refraction(wavelength)] *)
Definition effective_refraction (l : AbstractWaferLayer) (incident_angle : cx_double)
    (wavelength : R) : cx_double :=
  (c_cos incident_angle * refraction l wavelength)%cx.

(** [internal_transmit(wavelength, power)]:
    [std::exp(2.0*M_PI*j*refraction(wavelength)*thickness/wavelength*power)] *)
Definition internal_transmit (l : AbstractWaferLayer) (wavelength power : R) : cx_double :=
  c_exp (c_muls (c_divv (c_muls (c_scale (2 * M_PI) j * refraction l wavelength)%cx
                                (layer_thickness l))
                        wavelength)
                power).

(** [WaferStack::_reflection] *)
Definition _reflection (top_refraction bottom_refraction : cx_double) : cx_double :=
  ((top_refraction - bottom_refraction) / (top_refraction + bottom_refraction))%cx.

Abbreviation cx_vec := (list cx_double).

(** [std::map<std::pair<double, double>, std::shared_ptr<arma::cx_vec>>]: the
    entries, at most one by key. *)
Abbreviation reflections_cache := (list ((R * R) * cx_vec)).

Definition key_eqb (a b : R * R) : bool := Reqb a.1 b.1 && Reqb a.2 b.2.

(** [map.find(key)] and [map[key] = value] *)
Fixpoint cache_find (key : R * R) (m : reflections_cache) : option cx_vec :=
  match m with
  | [] => None
  | (k, v) :: m' => if key_eqb key k then Some v else cache_find key m'
  end.

Definition cache_assign (key : R * R) (value : cx_vec) (m : reflections_cache)
  : reflections_cache :=
  (key, value) :: List.filter (fun e => negb (key_eqb key e.1)) m.

Record WaferStack : Type := mkWaferStack {
  _layers : list AbstractWaferLayer;
  _resist : option AbstractWaferLayer;
  _substrate : option AbstractWaferLayer;
  _environment : option AbstractWaferLayer;
  _cached_top_reflections : reflections_cache;
  _cached_bottom_reflections : reflections_cache;
  _cached_wavelength : R
}.

(** [WaferStack::WaferStack(void)] *)
Definition WaferStack_new : WaferStack :=
  mkWaferStack [] None None None [] [] (-1).

(** The exceptions of the stack, by the message they carry. *)
Inductive exception : Type :=
  | invalid_argument_after_environment
      (* Layer of any type can't be added after the environment layer set *)
  | invalid_argument_second_resist
      (* Can't push the second resist layer into the wafer stack *)
  | invalid_argument_material_on_resist
      (* Material layer on the resist layer not allowed *)
  | invalid_argument_first_not_substrate
      (* First layer must be substrate layer *)
  | out_of_range
      (* Can't calculate reflectivity for environment layer or layer that
         isn't in list *).

(** What a member call leaves behind: a value, a thrown exception, or a run
    that read outside a container, whose behaviour C++ leaves undefined. *)
Inductive outcome (A : Type) : Type :=
  | Value (a : A)
  | Throw (e : exception)
  | Undefined.
Arguments Value {A} _.
Arguments Throw {A} _.
Arguments Undefined {A}.

Definition is_set {A : Type} (p : option A) : bool :=
  match p with Some _ => true | None => false end.

(** [WaferStack::push]: the exception, if one is thrown, and the stack after
    the call. *)
Definition push (st : WaferStack) (layer : AbstractWaferLayer)
  : option exception * WaferStack :=
  if is_set (_environment st) then (Some invalid_argument_after_environment, st)
  else if is_set (_resist st) && is_resist layer
  then (Some invalid_argument_second_resist, st)
  else if is_set (_resist st) && negb (is_environment layer)
  then (Some invalid_argument_material_on_resist, st)
  else if bool_decide (_layers st = []) && negb (is_substrate layer)
  then (Some invalid_argument_first_not_substrate, st)
  else
    let environment := if is_environment layer then Some layer else _environment st in
    let resist :=
      if is_environment layer then _resist st
      else if is_resist layer then Some layer else _resist st in
    let substrate :=
      if is_environment layer then _substrate st
      else if is_resist layer then _substrate st
      else if is_substrate layer then Some layer else _substrate st in
    (None,
     mkWaferStack (layer :: _layers st) resist substrate environment
       (_cached_top_reflections st) (_cached_bottom_reflections st)
       (_cached_wavelength st)).

Section Reflections.

(** The width of [size_t]. *)
Variable size_t_bits : Z.

(** [_calc_effective_top_reflections] and [_calc_effective_bottom_reflections]
    of the layers, for [cxy] and the wavelength; [None] where the run reads
    a layer that the stack does not have. *)
Variable _calc_effective_top_reflections :
  list AbstractWaferLayer -> R -> R -> option cx_vec.
Variable _calc_effective_bottom_reflections :
  list AbstractWaferLayer -> R -> R -> option cx_vec.

Definition set_top_cache (st : WaferStack) (m : reflections_cache) (wavelength : R)
  : WaferStack :=
  mkWaferStack (_layers st) (_resist st) (_substrate st) (_environment st)
    m (_cached_bottom_reflections st) wavelength.

Definition set_bottom_cache (st : WaferStack) (m : reflections_cache) (wavelength : R)
  : WaferStack :=
  mkWaferStack (_layers st) (_resist st) (_substrate st) (_environment st)
    (_cached_top_reflections st) m wavelength.

(** [WaferStack::effective_top_reflection]: return the cached value or
    calculate. *)
Definition effective_top_reflection (st : WaferStack) (cx cy wavelength : R)
  : option (cx_vec * WaferStack) :=
  let st1 :=
    if negb (Reqb (_cached_wavelength st) wavelength)
    then set_top_cache st [] wavelength else st in
  match cache_find (cx, cy) (_cached_top_reflections st1) with
  | Some cached => Some (cached, st1)
  | None =>
      let cxy := sqrt (cx * cx + cy * cy) in
      reflections ← _calc_effective_top_reflections (_layers st1) cxy wavelength;
      Some (reflections,
            set_top_cache st1
              (cache_assign (cx, cy) reflections (_cached_top_reflections st1))
              (_cached_wavelength st1))
  end.

(** [WaferStack::effective_bottom_reflection] *)
Definition effective_bottom_reflection (st : WaferStack) (cx cy wavelength : R)
  : option (cx_vec * WaferStack) :=
  let st1 :=
    if negb (Reqb (_cached_wavelength st) wavelength)
    then set_bottom_cache st [] wavelength else st in
  match cache_find (cx, cy) (_cached_bottom_reflections st1) with
  | Some cached => Some (cached, st1)
  | None =>
      let cxy := sqrt (cx * cx + cy * cy) in
      reflections ← _calc_effective_bottom_reflections (_layers st1) cxy wavelength;
      Some (reflections,
            set_bottom_cache st1
              (cache_assign (cx, cy) reflections (_cached_bottom_reflections st1))
              (_cached_wavelength st1))
  end.

(** The guard of [WaferStack::reflectivity]:
    [indx == 0 || indx > this->_layers.size()-1], the difference taken in
    [size_t]. *)
Definition reflectivity_guard (st : WaferStack) (indx : nat) : bool :=
  (indx =? 0)%nat
  || (((Z.of_nat (length (_layers st)) - 1) mod 2 ^ size_t_bits) <? Z.of_nat indx)%Z.

(** [WaferStack::reflectivity] *)
Definition reflectivity (st : WaferStack) (indx : nat) (wavelength : R)
  : outcome cx_double * WaferStack :=
  if reflectivity_guard st indx then (Throw out_of_range, st)
  else
    match _layers st !! (indx - 1)%nat, _layers st !! indx with
    | Some above, Some layer =>
        let ro12 := _reflection (effective_refraction above (cx_of 0) wavelength)
                                (effective_refraction layer (cx_of 0) wavelength) in
        match effective_bottom_reflection st 0 0 wavelength with
        | Some (bottom_reflections, st1) =>
            match bottom_reflections !! indx with
            | Some ro23e =>
                let tau2d := internal_transmit layer wavelength 2 in
                (Value ((ro12 + ro23e * tau2d) / c_radd 1 (ro12 * ro23e * tau2d))%cx, st1)
            | None => (Undefined, st1)
            end
        | None => (Undefined, st)
        end
    | _, _ => (Undefined, st)
    end.

End Reflections.

End wafer.

(** *** The reflection caches and the guards of the stack *)

Module wafer_facts.
Import oplc wafer.

Lemma key_eqb_true_iff (a b : R * R) : key_eqb a b = true <-> a = b.
Proof.
  unfold key_eqb. rewrite andb_true_iff, !Reqb_true_iff.
  destruct a, b; simpl. split; [intros [-> ->]; done|by intros [= -> ->]].
Qed.

Lemma key_eqb_refl (a : R * R) : key_eqb a a = true.
Proof. by apply key_eqb_true_iff. Qed.

Lemma cache_find_assign (key key' : R * R) (value : cx_vec) (m : reflections_cache) :
  cache_find key' (cache_assign key value m)
  = if key_eqb key' key then Some value else cache_find key' m.
Proof.
  unfold cache_assign. simpl. destruct (key_eqb key' key) eqn:Hk; [done|].
  induction m as [|[k v] m IH]; [done|]. simpl.
  destruct (key_eqb key k) eqn:Hkk; simpl.
  - apply key_eqb_true_iff in Hkk as <-. by rewrite Hk.
  - by rewrite IH.
Qed.

Section ReflectionFacts.

Variable size_t_bits : Z.
Variable calc_top calc_bottom : list AbstractWaferLayer -> R -> R -> option cx_vec.

(** A query answered is answered again with the same vector, and the second
    query leaves the stack as it found it. *)
Lemma effective_bottom_reflection_repeat (st st' : WaferStack) (cx cy wavelength : R)
    (v : cx_vec) :
  effective_bottom_reflection calc_bottom st cx cy wavelength = Some (v, st') ->
  effective_bottom_reflection calc_bottom st' cx cy wavelength = Some (v, st').
Proof.
  unfold effective_bottom_reflection.
  set (st1 := if negb (Reqb (_cached_wavelength st) wavelength) then _ else st).
  assert (Hwl : _cached_wavelength st1 = wavelength).
  { unfold st1. case_Reqb (_cached_wavelength st) wavelength; done. }
  destruct (cache_find (cx, cy) (_cached_bottom_reflections st1)) as [cached|] eqn:Hfind.
  - intros [= <- <-]. rewrite Hwl, Reqb_refl. cbn [negb]. by rewrite Hfind.
  - destruct (calc_bottom _ _ _) as [reflections|]; [simpl|done].
    intros [= <- <-]. simpl. rewrite Hwl, Reqb_refl. simpl.
    by rewrite key_eqb_refl.
Qed.

Lemma effective_top_reflection_repeat (st st' : WaferStack) (cx cy wavelength : R)
    (v : cx_vec) :
  effective_top_reflection calc_top st cx cy wavelength = Some (v, st') ->
  effective_top_reflection calc_top st' cx cy wavelength = Some (v, st').
Proof.
  unfold effective_top_reflection.
  set (st1 := if negb (Reqb (_cached_wavelength st) wavelength) then _ else st).
  assert (Hwl : _cached_wavelength st1 = wavelength).
  { unfold st1. case_Reqb (_cached_wavelength st) wavelength; done. }
  destruct (cache_find (cx, cy) (_cached_top_reflections st1)) as [cached|] eqn:Hfind.
  - intros [= <- <-]. rewrite Hwl, Reqb_refl. cbn [negb]. by rewrite Hfind.
  - destruct (calc_top _ _ _) as [reflections|]; [simpl|done].
    intros [= <- <-]. simpl. rewrite Hwl, Reqb_refl. simpl.
    by rewrite key_eqb_refl.
Qed.

(** Every entry of the bottom cache is the vector of its key at the cached
    wavelength. *)
Definition bottom_cache_fresh (st : WaferStack) : Prop :=
  forall cx cy v,
    cache_find (cx, cy) (_cached_bottom_reflections st) = Some v ->
    calc_bottom (_layers st) (sqrt (cx * cx + cy * cy)) (_cached_wavelength st) = Some v.

(** As long as the stack is queried through [effective_bottom_reflection]
    only, as [reflectivity] and [standing_waves] do, every answer is the
    vector of the wavelength asked for. *)
Lemma effective_bottom_reflection_fresh (st st' : WaferStack) (cx cy wavelength : R)
    (v : cx_vec) :
  bottom_cache_fresh st ->
  effective_bottom_reflection calc_bottom st cx cy wavelength = Some (v, st') ->
  calc_bottom (_layers st) (sqrt (cx * cx + cy * cy)) wavelength = Some v /\
  bottom_cache_fresh st' /\ _layers st' = _layers st /\
  _cached_top_reflections st' = _cached_top_reflections st.
Proof.
  intros Hfresh. unfold effective_bottom_reflection.
  set (st1 := if negb (Reqb (_cached_wavelength st) wavelength) then _ else st).
  assert (Hwl : _cached_wavelength st1 = wavelength).
  { unfold st1. case_Reqb (_cached_wavelength st) wavelength; done. }
  assert (Hl : _layers st1 = _layers st).
  { unfold st1. by destruct (negb _). }
  assert (Ht : _cached_top_reflections st1 = _cached_top_reflections st).
  { unfold st1. by destruct (negb _). }
  assert (Hfresh1 : bottom_cache_fresh st1).
  { unfold st1. case_Reqb (_cached_wavelength st) wavelength; simpl; [done|].
    intros ? ? ? Hf. done. }
  destruct (cache_find (cx, cy) (_cached_bottom_reflections st1)) as [cached|] eqn:Hfind.
  - intros [= <- <-]. split; [|done].
    apply Hfresh1 in Hfind. by rewrite Hl, Hwl in Hfind.
  - destruct (calc_bottom _ _ _) as [reflections|] eqn:Hcalc; [simpl|done].
    intros [= <- <-]. rewrite Hl in Hcalc. split; [done|]. split; [|done].
    intros cx' cy' v'. unfold set_bottom_cache.
    cbn [_cached_bottom_reflections _layers _cached_wavelength].
    rewrite cache_find_assign.
    destruct (key_eqb (cx', cy') (cx, cy)) eqn:Hk.
    + apply key_eqb_true_iff in Hk as [= -> ->]. intros [= <-].
      by rewrite Hl, Hwl.
    + apply Hfresh1.
Qed.


(** The guard of [reflectivity] on a stack that has layers. *)
Lemma reflectivity_guard_spec (st : WaferStack) (indx : nat) :
  _layers st <> [] -> (Z.of_nat (length (_layers st)) <= 2 ^ size_t_bits)%Z ->
  reflectivity_guard size_t_bits st indx = true
  <-> indx = 0%nat \/ (length (_layers st) <= indx)%nat.
Proof.
  intros Hne Hsize. unfold reflectivity_guard.
  assert (0 < length (_layers st))%nat by (destruct (_layers st); [done|simpl; lia]).
  rewrite Z.mod_small by lia.
  rewrite orb_true_iff, Nat.eqb_eq, Z.ltb_lt. lia.
Qed.

Lemma reflectivity_out_of_range (st : WaferStack) (indx : nat) (wavelength : R) :
  _layers st <> [] -> (Z.of_nat (length (_layers st)) <= 2 ^ size_t_bits)%Z ->
  indx = 0%nat \/ (length (_layers st) <= indx)%nat ->
  reflectivity size_t_bits calc_bottom st indx wavelength = (Throw out_of_range, st).
Proof.
  intros Hne Hsize Hindx. unfold reflectivity.
  by rewrite (proj2 (reflectivity_guard_spec st indx Hne Hsize) Hindx).
Qed.

End ReflectionFacts.

(** The condition under which [push] throws. *)
Definition push_rejected (st : WaferStack) (layer : AbstractWaferLayer) : Prop :=
  (_layers st = [] /\ is_substrate layer = false) \/
  is_set (_environment st) = true \/
  (is_set (_resist st) = true /\ is_resist layer = true) \/
  (is_set (_resist st) = true /\ is_environment layer = false).

(** [push] throws exactly when the first layer is not a substrate, the
    environment is set already, a second resist is pushed, or a layer other
    than the environment is pushed on the resist; the stack is then left as
    it was.  In every other case the layer becomes the first of the list. *)
Lemma push_spec (st : WaferStack) (layer : AbstractWaferLayer) :
  (push_rejected st layer -> exists e, push st layer = (Some e, st)) /\
  (~ push_rejected st layer ->
   exists st', push st layer = (None, st') /\ _layers st' = layer :: _layers st).
Proof.
  unfold push_rejected, push, is_substrate, is_resist, is_environment.
  destruct (is_set (_environment st)), (is_set (_resist st)),
    (type layer), (_layers st) as [|l ls]; simpl; split.
  all: try (intros _; eexists; reflexivity).
  all: try (intros _; eexists; split; reflexivity).
  all: try (intros Hn; exfalso; apply Hn; tauto).
  all: intros [[? ?]|[?|[[? ?]|[? ?]]]]; congruence.
Qed.

(** C8, on a stack that has no layer yet: [this->_layers.size()-1] wraps to
    the largest [size_t], the guard of [reflectivity] lets the index 1
    through, no [out_of_range] is thrown and the run reads [_layers[0]] of an
    empty vector.  The index 0 is refused as on every stack. *)
Theorem reflectivity_empty_stack
    (calc_bottom : list AbstractWaferLayer -> R -> R -> option cx_vec) (wavelength : R) :
  reflectivity_guard 64 WaferStack_new 1 = false /\
  reflectivity 64 calc_bottom WaferStack_new 1 wavelength = (Undefined, WaferStack_new) /\
  reflectivity 64 calc_bottom WaferStack_new 0 wavelength
  = (Throw out_of_range, WaferStack_new).
Proof. by repeat split. Qed.

End wafer_facts.

(** *** A stack of two layers *)

Module wafer_examples.
Import oplc wafer wafer_facts.

Definition silicon : AbstractWaferLayer :=
  mkWaferLayer SUBSTRATE_LAYER 0 (fun _ => mk_cx 1.57 3.565).
Definition air : AbstractWaferLayer :=
  mkWaferLayer ENVIRONMENT_LAYER 0 (fun _ => mk_cx 1 0).

Definition bare_wafer : WaferStack :=
  mkWaferStack [air; silicon] None (Some silicon) (Some air) [] [] (-1).

Lemma bare_wafer_pushed :
  exists st, push WaferStack_new silicon = (None, st) /\ push st air = (None, bare_wafer).
Proof. eexists. split; reflexivity. Qed.

(** A calculation that answers with the wavelength it was asked for. *)
Definition wavelength_probe (layers : list AbstractWaferLayer) (cxy wavelength : R)
  : option cx_vec :=
  Some [cx_of wavelength].


Lemma reflectivity_out_of_range_witness :
  reflectivity 64 wavelength_probe bare_wafer 2 248 = (Throw out_of_range, bare_wafer).
Proof.
  apply (reflectivity_out_of_range 64 wavelength_probe bare_wafer 2 248).
  - done.
  - simpl. lia.
  - right. simpl. lia.
Defined.

Lemma effective_bottom_reflection_fresh_witness :
  wavelength_probe (_layers bare_wafer) (sqrt (0 * 0 + 0 * 0)) 248 = Some [cx_of 248] /\
  bottom_cache_fresh wavelength_probe
    (mkWaferStack [air; silicon] None (Some silicon) (Some air)
       [] [((0, 0), [cx_of 248])] 248) /\
  _layers (mkWaferStack [air; silicon] None (Some silicon) (Some air)
             [] [((0, 0), [cx_of 248])] 248) = _layers bare_wafer /\
  _cached_top_reflections
    (mkWaferStack [air; silicon] None (Some silicon) (Some air)
       [] [((0, 0), [cx_of 248])] 248) = _cached_top_reflections bare_wafer.
Proof.
  apply (effective_bottom_reflection_fresh wavelength_probe bare_wafer _ 0 0 248).
  - intros cx cy v Hfind. done.
  - unfold effective_bottom_reflection. simpl. case_Reqb (-1) 248; [lra|]. done.
Defined.

Lemma effective_bottom_reflection_repeat_witness :
  effective_bottom_reflection wavelength_probe
    (mkWaferStack [air; silicon] None (Some silicon) (Some air)
       [] [((0, 0), [cx_of 248])] 248) 0 0 248
  = Some ([cx_of 248],
          mkWaferStack [air; silicon] None (Some silicon) (Some air)
            [] [((0, 0), [cx_of 248])] 248).
Proof.
  apply (effective_bottom_reflection_repeat wavelength_probe bare_wafer).
  unfold effective_bottom_reflection. simpl. case_Reqb (-1) 248; [lra|]. done.
Defined.

End wafer_examples.


(** ** The butterflies of the Fourier library
    ([libs/fourier/include/basics.h], [libs/fourier/src/primes.c], [fourier.c]) *)

Module fourier.

(** [fft_complex_t] is [cx_double] here, [.r] and [.i] being [re] and [im]. *)

(** [FFT_LITHO_FORWARD] and [FFT_LITHO_BACKWARD] *)
Definition FFT_LITHO_FORWARD : Z := (-1)%Z.
Definition FFT_LITHO_BACKWARD : Z := 1%Z.

(** [c_mulpj], [c_mulnj] and [c_mulj]: by [+j], by [-j] and by the one the
    sign selects. *)
Definition c_mulpj (a : cx_double) : cx_double := mk_cx (- im a) (re a).
Definition c_mulnj (a : cx_double) : cx_double := mk_cx (im a) (- re a).
Definition c_mulj (a : cx_double) (sign : Z) : cx_double :=
  if (sign <? 0)%Z then c_mulpj a else c_mulnj a.

Definition c_add3 (a b c : cx_double) : cx_double :=
  mk_cx (re a + re b + re c) (im a + im b + im c).
Definition c_add4 (a b c d : cx_double) : cx_double :=
  mk_cx (re a + re b + re c + re d) (im a + im b + im c + im d).

(** The butterflies below transform one signal, [X k] being its sample [k]
    and the result the list of the output samples. *)
Section Butterflies.

Variable x : list cx_double.
Let X (k : nat) : cx_double := x !!! k.

(** [fft_singular]: copy input data to the output *)
Definition fft_singular : list cx_double := [X 0].

(** [fft_litho_c2] *)
Definition fft_litho_c2 : list cx_double :=
  [ c_add (X 0) (X 1); c_sub (X 0) (X 1) ].

(** [TWIDDLE_ARRAY_R3[plan->direction == FFT_LITHO_BACKWARD]], the numbers
    as the table writes them *)
Definition TWIDDLE_ARRAY_R3 (direction : Z) : list cx_double :=
  if (direction =? FFT_LITHO_BACKWARD)%Z then
    [ mk_cx 1.0000000000000000 0.0000000000000000;
      mk_cx (-0.4999999999999998) 0.8660254037844388;
      mk_cx (-0.5000000000000004) (-0.8660254037844384) ]
  else
    [ mk_cx 1.0000000000000000 0.0000000000000000;
      mk_cx (-0.4999999999999998) (-0.8660254037844388);
      mk_cx (-0.5000000000000004) 0.8660254037844384 ].

(** [fft_litho_c3], with [CALC_S3(k1, k2)] written out *)
Definition fft_litho_c3 (direction : Z) : list cx_double :=
  let w := TWIDDLE_ARRAY_R3 direction in
  [ c_add3 (X 0) (X 1) (X 2);
    c_add3 (X 0) (c_mul (w !!! 1%nat) (X 1)) (c_mul (w !!! 2%nat) (X 2));
    c_add3 (X 0) (c_mul (w !!! 2%nat) (X 1)) (c_mul (w !!! 1%nat) (X 2)) ].

(** [fft_litho_c4] *)
Definition fft_litho_c4 (direction : Z) : list cx_double :=
  let d := direction in
  [ c_add4 (X 0) (X 1) (X 2) (X 3);
    c_add4 (X 0) (c_mulj (X 1) (- d)) (c_neg (X 2)) (c_mulj (X 3) d);
    c_add4 (X 0) (c_neg (X 1)) (X 2) (c_neg (X 3));
    c_add4 (X 0) (c_mulj (X 1) d) (c_neg (X 2)) (c_mulj (X 3) (- d)) ].

End Butterflies.

End fourier.

Module fourier_facts.
Import fourier.

(** The butterflies of the lengths 1, 2 and 4 use no rounded constant:
    forward then backward multiplies every sample by the length, and so
    does backward then forward. *)
Lemma small_round_trips (a b c d : cx_double) :
  fft_singular (fft_singular [a]) = [a] /\
  fft_litho_c2 (fft_litho_c2 [a; b]) = [c_scale 2 a; c_scale 2 b] /\
  fft_litho_c4 (fft_litho_c4 [a; b; c; d] FFT_LITHO_FORWARD) FFT_LITHO_BACKWARD
  = [c_scale 4 a; c_scale 4 b; c_scale 4 c; c_scale 4 d] /\
  fft_litho_c4 (fft_litho_c4 [a; b; c; d] FFT_LITHO_BACKWARD) FFT_LITHO_FORWARD
  = [c_scale 4 a; c_scale 4 b; c_scale 4 c; c_scale 4 d].
Proof.
  destruct a, b, c, d.
  repeat split; unfold fft_litho_c2, fft_litho_c4, c_add4, c_mulj, c_add, c_sub, c_scale;
    simpl; Rfields.
Qed.

(** The forward butterfly of length 4 turns by [-j] from one sample to the
    next in its second output, the backward one by [+j]. *)
Lemma c4_direction (a b c d : cx_double) :
  fft_litho_c4 [a; b; c; d] FFT_LITHO_FORWARD !! 1%nat
  = Some (c_add4 a (c_mulnj b) (c_neg c) (c_mulpj d)) /\
  fft_litho_c4 [a; b; c; d] FFT_LITHO_BACKWARD !! 1%nat
  = Some (c_add4 a (c_mulpj b) (c_neg c) (c_mulnj d)).
Proof. done. Qed.

(** The table of the butterfly of length 3 holds its constants to sixteen
    decimals.  With the numbers as written, forward then backward of the
    impulse is three times the impulse only up to the last decimals. *)
Lemma c3_round_trip_impulse :
  fft_litho_c3 (fft_litho_c3 [mk_cx 1 0; mk_cx 0 0; mk_cx 0 0] FFT_LITHO_FORWARD)
               FFT_LITHO_BACKWARD
  = [ mk_cx 3 0; mk_cx (-2e-16) 4e-16; mk_cx (-2e-16) 4e-16 ].
Proof.
  unfold fft_litho_c3, c_add3, c_mul. simpl. repeat f_equal; lra.
Qed.

End fourier_facts.

(** ** Points and edges: order, classification, rotation, intersection
    ([opl_geometry.cpp]) *)

Module plane.
Import geometry oplc.

(** [Point2d::operator<] and [operator>] *)
Definition point_lt (p q : Point2d) : bool :=
  Rltb (p_x p) (p_x q) || (Reqb (p_x p) (p_x q) && Rltb (p_y p) (p_y q)).
Definition point_gt (p q : Point2d) : bool :=
  Rltb (p_x q) (p_x p) || (Reqb (p_x p) (p_x q) && Rltb (p_y q) (p_y p)).

(** [operator*(double, const Point2d&)], [dot] and [Point2d::length] *)
Definition point_scale (s : R) (p : Point2d) : Point2d := mkPoint2d (s * p_x p) (s * p_y p).
Definition dot (p q : Point2d) : R := p_x p * p_x q + p_y p * p_y q.
Definition point_length (p : Point2d) : R := sqrt (p_x p * p_x p + p_y p * p_y p).

(** [Edge2d::length] *)
Definition edge_length (e : Edge2d) : R := point_length (sizes e).

Inductive classify_type_t : Type :=
  LEFT | RIGHT | BEYOND | BEHIND | BETWEEN | ORIGIN | DESTINATION.

Definition DEFAULT_CLASSIFY_PRECISION : R := 1e-2.

(** [Point2d::classify(p0, p1, precision)] of the point [p2] *)
Definition classify (p2 p0 p1 : Point2d) (precision : R) : classify_type_t :=
  let a := point_sub p1 p0 in
  let b := point_sub p2 p0 in
  let sa := p_x a * p_y b - p_x b * p_y a in
  if Rltb precision sa then LEFT
  else if Rltb sa (- precision) then RIGHT
  else if Rltb (p_x a * p_x b) 0 || Rltb (p_y a * p_y b) 0 then BEHIND
  else if Rltb (point_length a) (point_length b) then BEYOND
  else if point_eqb p0 p2 then ORIGIN
  else if point_eqb p1 p2 then DESTINATION
  else BETWEEN.

Definition classify_edge (p : Point2d) (e : Edge2d) : classify_type_t :=
  classify p (org e) (dst e) DEFAULT_CLASSIFY_PRECISION.

(** [Point2d::polar_angle], in degrees *)
Definition polar_angle (p : Point2d) : R :=
  if Reqb (p_x p) 0 && Reqb (p_y p) 0 then -1
  else if Reqb (p_x p) 0 then (if Rltb 0 (p_y p) then 90 else 270)
  else
    let theta := atan (p_y p / p_x p) * (360 / (2 * M_PI)) in
    if Rltb 0 (p_x p) then (if Rleb 0 (p_y p) then theta else 360 + theta)
    else 180 + theta.

(** [Point2d::transform(sign, mag, angle)] *)
Definition transform (p : Point2d) (sign : Z) (mag angle : R) : Point2d :=
  let xp := p_x p in
  let yp := p_y p in
  let cos_ang := cos angle in
  let sin_ang := sin angle in
  mkPoint2d (mag * (xp * cos_ang - IZR sign * yp * sin_ang))
            (mag * (xp * sin_ang + IZR sign * yp * cos_ang)).

(** [Edge2d::rot]: a quarter turn about the middle of the edge *)
Definition rot (dir : rotation_type_t) (e : Edge2d) : Edge2d :=
  let sign := match dir with CW => -1 | CCW => 1 end in
  let m := point_scale 0.5 (point_add (org e) (dst e)) in
  let v := point_sub (dst e) (org e) in
  let n := mkPoint2d (p_y v) (- p_x v) in
  mkEdge2d (point_add m (point_scale (sign * 0.5) n))
           (point_sub m (point_scale (sign * 0.5) n)).

Inductive cross_type_t : Type :=
  COLLINEAR | PARALLEL | SKEW | SKEW_NO_CROSS | SKEW_CROSS.

Definition is_skew_free (c : cross_type_t) : bool :=
  match c with COLLINEAR | PARALLEL => true | _ => false end.

(** [Edge2d::intersect(e, t)]: the kind of crossing of the two lines and the
    value left in [t], which is written only for skew lines. *)
Definition intersect (this e : Edge2d) (t : R) : cross_type_t * R :=
  let a := org this in
  let b := dst this in
  let c := org e in
  let d := dst e in
  let n := mkPoint2d (p_y (point_sub d c)) (p_x (point_sub c d)) in
  let denom := dot n (point_sub b a) in
  if Reqb denom 0 then
    match classify_edge (org this) e with
    | LEFT | RIGHT => (PARALLEL, t)
    | _ => (COLLINEAR, t)
    end
  else
    let num := dot n (point_sub a c) in
    (SKEW, - num / denom).

(** [Edge2d::point(t)] and [Edge2d::point(e)] *)
Definition point_on (this : Edge2d) (t : R) : Point2d :=
  point_add (org this) (point_scale t (point_sub (dst this) (org this))).

Definition crossing_point (this e : Edge2d) : Point2d :=
  point_on this (snd (intersect this e 0)).

(** [Edge2d::cross_type]; the last test of the source is
    [0.0 <= t || t <= 1.0]. *)
Definition cross_type (this e : Edge2d) : cross_type_t :=
  let '(cross, s) := intersect e this 0 in
  if is_skew_free cross then cross
  else if Rltb s 0 || Rltb 1 s then SKEW_NO_CROSS
  else
    let '(_, t) := intersect this e 0 in
    if Rleb 0 t || Rleb t 1 then SKEW_CROSS else SKEW_NO_CROSS.

(** [Point2d::normal_intersect] and [Point2d::distance] *)
Definition normal_intersect (p : Point2d) (e : Edge2d) : Point2d :=
  let ab := rot CCW e in
  let n := point_sub (dst ab) (org ab) in
  let normal := mkEdge2d p (point_add p n) in
  crossing_point e normal.

Definition distance (p : Point2d) (e : Edge2d) : R :=
  edge_length (mkEdge2d p (normal_intersect p e)).

End plane.

Module plane_facts.
Import geometry oplc plane.

Ltac Rcases :=
  repeat match goal with
  | |- context [Reqb ?a ?b] => case_Reqb a b
  | |- context [Rltb ?a ?b] => case_Rltb a b
  | |- context [Rleb ?a ?b] =>
      let H := fresh "H" in
      destruct (Rleb a b) eqn:H;
      [apply Rleb_true_iff in H | apply not_true_iff_false in H; rewrite Rleb_true_iff in H]
  end.

(** [operator<] is a strict total order on the points, [operator>] is its
    converse, and of [p < q], [p == q], [p > q] exactly one holds. *)
Lemma point_order (p q r : Point2d) :
  point_gt p q = point_lt q p /\
  point_lt p p = false /\
  (point_lt p q = true -> point_lt q r = true -> point_lt p r = true) /\
  (point_lt p q = true /\ point_eqb p q = false /\ point_gt p q = false \/
   point_lt p q = false /\ point_eqb p q = true /\ point_gt p q = false \/
   point_lt p q = false /\ point_eqb p q = false /\ point_gt p q = true) /\
  (point_eqb p q = true <-> p = q).
Proof.
  destruct p as [px py], q as [qx qy], r as [rx ry].
  unfold point_gt, point_lt, point_eqb; simpl.
  repeat split.
  - Rcases; simpl; try done; lra.
  - Rcases; simpl; try done; lra.
  - Rcases; simpl; try done; lra.
  - Rcases; simpl; try tauto; try lra.
  - Rcases; simpl; try done; intros _; f_equal; lra.
  - intros [= -> ->]. by rewrite !Reqb_refl.
Qed.

Lemma edge_ext (e f : Edge2d) :
  p_x (org e) = p_x (org f) -> p_y (org e) = p_y (org f) ->
  p_x (dst e) = p_x (dst f) -> p_y (dst e) = p_y (dst f) -> e = f.
Proof.
  destruct e as [[] []], f as [[] []]; simpl. by intros -> -> -> ->.
Qed.

(** [rot] turns an edge by a quarter about its middle: the middle and the
    length stay, two turns the same way give the flipped edge, and a turn
    one way undoes a turn the other way. *)
Lemma rot_quarter_turn (d : rotation_type_t) (e : Edge2d) :
  point_add (org (rot d e)) (dst (rot d e)) = point_add (org e) (dst e) /\
  edge_length (rot d e) = edge_length e /\
  dot (sizes (rot d e)) (sizes e) = 0 /\
  rot d (rot d e) = flip e /\
  rot CW (rot CCW e) = e /\ rot CCW (rot CW e) = e.
Proof.
  destruct e as [[ox oy] [tx ty]].
  repeat split.
  - destruct d; unfold rot, point_add, point_sub, point_scale; simpl; f_equal; lra.
  - destruct d; unfold edge_length, point_length, sizes, rot, point_add, point_sub,
      point_scale; simpl; f_equal; lra.
  - destruct d; unfold dot, sizes, rot, point_add, point_sub, point_scale; simpl; lra.
  - destruct d; apply edge_ext; simpl; lra.
  - apply edge_ext; simpl; lra.
  - apply edge_ext; simpl; lra.
Qed.

(** The direction of a line turned by a quarter, as [intersect] builds it,
    and the denominator of the crossing. *)
Definition cross_product (a b : Point2d) : R := p_x a * p_y b - p_y a * p_x b.

Lemma intersect_kind (this e : Edge2d) (t : R) :
  (cross_product (sizes this) (sizes e) = 0 <-> is_skew_free (fst (intersect this e t)) = true) /\
  (cross_product (sizes this) (sizes e) <> 0 <-> fst (intersect this e t) = SKEW) /\
  (cross_product (sizes this) (sizes e) = 0 -> snd (intersect this e t) = t).
Proof.
  destruct this as [[ax ay] [bx b_y]], e as [[cx cy] [dx_ dy_]].
  unfold intersect, cross_product, sizes, dot, point_sub; simpl.
  match goal with |- context [Reqb ?a 0] => case_Reqb a 0 end.
  - assert (Hc : (bx - ax) * (dy_ - cy) - (b_y - ay) * (dx_ - cx) = 0) by lra.
    split; [|split].
    + split; [intros _; by destruct (classify_edge _ _)|done].
    + split; [intros Hne; lra|by destruct (classify_edge _ _)].
    + intros _. by destruct (classify_edge _ _).
  - assert (Hc : (bx - ax) * (dy_ - cy) - (b_y - ay) * (dx_ - cx) <> 0) by lra.
    split; [|split]; [split; [lra|done]|done|lra].
Qed.

(** For two lines that are not parallel, [intersect] leaves in [t] the
    place of their common point on [this]: [this.point(t)] lies on the line
    through [e] as well, and both edges compute the same point. *)
Lemma intersect_skew (this e : Edge2d) :
  cross_product (sizes this) (sizes e) <> 0 ->
  exists t u,
    intersect this e 0 = (SKEW, t) /\ intersect e this 0 = (SKEW, u) /\
    point_on this t = point_on e u /\
    crossing_point this e = crossing_point e this.
Proof.
  destruct this as [[ax ay] [bx b_y]], e as [[cx cy] [dx_ dy_]].
  unfold crossing_point, intersect, cross_product, sizes, dot, point_sub; simpl.
  intros Hc.
  match goal with |- context [Reqb ?a 0] => case_Reqb a 0 end; [lra|].
  match goal with |- context [Reqb ?a 0] => case_Reqb a 0 end; [lra|].
  eexists _, _. split; [reflexivity|]. split; [reflexivity|].
  assert (Hp : forall P Q : Point2d, p_x P = p_x Q -> p_y P = p_y Q -> P = Q).
  { intros [] []; simpl; by intros -> ->. }
  split; [|simpl]; apply Hp; unfold point_on, point_add, point_scale, point_sub; simpl;
    field; lra.
Qed.

(** [cross_type] as the code decides it: lines that are not parallel are
    reported to cross as soon as their common point lies between the ends of
    [e]; the test on the place [t] along [this], [0.0 <= t || t <= 1.0],
    holds for every [t] and rules nothing out. *)
Lemma cross_type_decided (this e : Edge2d) :
  cross_product (sizes this) (sizes e) <> 0 ->
  exists u,
    intersect e this 0 = (SKEW, u) /\
    crossing_point this e = point_on e u /\
    cross_type this e = (if Rleb 0 u && Rleb u 1 then SKEW_CROSS else SKEW_NO_CROSS).
Proof.
  intros Hc. destruct (intersect_skew this e Hc) as (t & u & Ht & Hu & Hp & _).
  exists u. split; [done|]. split.
  - unfold crossing_point. by rewrite Ht.
  - unfold cross_type. rewrite Hu, Ht. simpl.
    Rcases; simpl; try done; lra.
Qed.

(** An edge along the x axis from 0 to 1 and an upright edge at [x = 5]
    that spans the axis: the lines meet at [(5, 0)], beyond the end of the
    first edge, and [cross_type] reports a crossing. *)
Lemma cross_type_beyond_the_end :
  cross_type (mkEdge2d (mkPoint2d 0 0) (mkPoint2d 1 0))
             (mkEdge2d (mkPoint2d 5 (-1)) (mkPoint2d 5 1)) = SKEW_CROSS /\
  intersect (mkEdge2d (mkPoint2d 0 0) (mkPoint2d 1 0))
            (mkEdge2d (mkPoint2d 5 (-1)) (mkPoint2d 5 1)) 0 = (SKEW, 5).
Proof.
  unfold cross_type, intersect, dot, point_sub; simpl.
  repeat match goal with |- context [Reqb ?a 0] => case_Reqb a 0; [lra|] end.
  split.
  - Rcases; simpl; try done; lra.
  - f_equal. lra.
Qed.

Lemma cross_type_decided_witness :
  exists u,
    intersect (mkEdge2d (mkPoint2d 5 (-1)) (mkPoint2d 5 1))
              (mkEdge2d (mkPoint2d 0 0) (mkPoint2d 1 0)) 0 = (SKEW, u) /\
    crossing_point (mkEdge2d (mkPoint2d 0 0) (mkPoint2d 1 0))
                   (mkEdge2d (mkPoint2d 5 (-1)) (mkPoint2d 5 1))
    = point_on (mkEdge2d (mkPoint2d 5 (-1)) (mkPoint2d 5 1)) u /\
    cross_type (mkEdge2d (mkPoint2d 0 0) (mkPoint2d 1 0))
               (mkEdge2d (mkPoint2d 5 (-1)) (mkPoint2d 5 1))
    = (if Rleb 0 u && Rleb u 1 then SKEW_CROSS else SKEW_NO_CROSS).
Proof.
  apply (cross_type_decided (mkEdge2d (mkPoint2d 0 0) (mkPoint2d 1 0))
                            (mkEdge2d (mkPoint2d 5 (-1)) (mkPoint2d 5 1))).
  unfold cross_product, sizes, point_sub. simpl. lra.
Defined.

(** [normal_intersect] is the foot of the perpendicular from the point on
    the line through the edge, and [distance] the length of that
    perpendicular; for an edge without length both refer to its origin. *)
Lemma normal_intersect_foot (p : Point2d) (e : Edge2d) :
  (org e <> dst e ->
     dot (point_sub p (normal_intersect p e)) (sizes e) = 0 /\
     (exists t, normal_intersect p e = point_on e t) /\
     distance p e * edge_length e = Rabs (cross_product (sizes e) (point_sub p (org e)))) /\
  (org e = dst e -> normal_intersect p e = org e).
Proof.
  destruct p as [px py], e as [[ax ay] [bx b_y]].
  assert (Hp : forall P Q : Point2d, p_x P = p_x Q -> p_y P = p_y Q -> P = Q).
  { intros [] []; simpl; by intros -> ->. }
  split.
  - intros Hne.
    assert (Hlen : (bx - ax) * (bx - ax) + (b_y - ay) * (b_y - ay) <> 0).
    { intros H0. apply Hne. simpl.
      destruct (Rplus_sqr_eq_0 (bx - ax) (b_y - ay) H0) as [? ?].
      f_equal; lra. }
    unfold normal_intersect, crossing_point, intersect. simpl.
    unfold dot, point_sub; simpl.
    match goal with |- context [Reqb ?a 0] => case_Reqb a 0 end.
    { exfalso. apply Hlen. lra. }
    split; [|split].
    + unfold point_on, point_add, point_scale, point_sub, sizes, point_sub; simpl.
      field. lra.
    + eexists. reflexivity.
    + unfold distance, edge_length, point_length, sizes, normal_intersect,
        crossing_point, intersect, cross_product. simpl.
      unfold dot, point_sub; simpl.
      match goal with |- context [Reqb ?a 0] => case_Reqb a 0 end; [lra|].
      unfold point_on, point_add, point_scale, point_sub. simpl.
      rewrite <- sqrt_mult_alt.
      2:{ apply Rplus_le_le_0_compat; apply Rle_0_sqr. }
      rewrite <- sqrt_Rsqr_abs. f_equal. unfold Rsqr. field. lra.
  - intros [= -> ->].
    unfold normal_intersect, crossing_point, intersect. simpl.
    unfold dot, point_sub; simpl.
    match goal with |- context [Reqb ?a 0] => case_Reqb a 0 end; [|lra].
    destruct (classify_edge _ _); simpl; apply Hp; simpl; lra.
Qed.

(** [polar_angle] answers [-1] for the origin and an angle in degrees from
    0 up to, not including, 360 for every other point. *)
Lemma polar_angle_range (p : Point2d) :
  (p = mkPoint2d 0 0 -> polar_angle p = -1) /\
  (p <> mkPoint2d 0 0 -> 0 <= polar_angle p < 360).
Proof.
  destruct p as [x y]. unfold polar_angle; simpl. split.
  - intros [= -> ->]. by rewrite !Reqb_refl.
  - intros Hne.
    assert (Hpi := PI_RGT_0). unfold M_PI.
    assert (Hbound := atan_bound (y / x)).
    set (k := 360 / (2 * PI)).
    assert (Hk : 0 < k) by (unfold k; apply Rdiv_lt_0_compat; lra).
    assert (Hk90 : k * (PI / 2) = 90) by (unfold k; field; lra).
    assert (Hlo : -90 < atan (y / x) * k) by nra.
    assert (Hhi : atan (y / x) * k < 90) by nra.
    case_Reqb x 0; simpl.
    + case_Reqb y 0; [exfalso; apply Hne; f_equal; done|].
      case_Rltb 0 y; lra.
    + case_Rltb 0 x.
      * destruct (Rleb 0 y) eqn:Hy.
        -- apply Rleb_true_iff in Hy.
           assert (0 <= atan (y / x)).
           { rewrite <- atan_0. destruct (Req_dec (y / x) 0) as [->|Hq]; [lra|].
             left. apply atan_increasing.
             assert (0 <= y / x) by (apply Rmult_le_pos; [lra|left; by apply Rinv_0_lt_compat]).
             lra. }
           nra.
        -- apply not_true_iff_false in Hy. rewrite Rleb_true_iff in Hy.
           assert (atan (y / x) < 0).
           { rewrite <- atan_0. apply atan_increasing.
             assert (0 < - y * / x) by (apply Rmult_lt_0_compat; [lra|by apply Rinv_0_lt_compat]).
             unfold Rdiv. lra. }
           nra.
      * lra.
Qed.

(** [transform] with a sign of one or minus one turns, mirrors and scales:
    the distance to the origin is multiplied by the magnitude. *)
Lemma transform_length (p : Point2d) (sign : Z) (mag angle : R) :
  (sign = 1 \/ sign = -1)%Z ->
  point_length (transform p sign mag angle) = Rabs mag * point_length p.
Proof.
  intros Hsign. destruct p as [x y]. unfold point_length, transform; simpl.
  assert (Hs : IZR sign * IZR sign = 1) by (destruct Hsign as [-> | ->]; simpl; lra).
  assert (Htrig := sin2_cos2 angle). unfold Rsqr in Htrig.
  rewrite <- sqrt_Rsqr_abs, <- sqrt_mult_alt by apply Rle_0_sqr.
  f_equal. unfold Rsqr.
  set (c := cos angle) in *. set (s := sin angle) in *. set (g := IZR sign) in *.
  replace (mag * (x * c - g * y * s) * (mag * (x * c - g * y * s)) +
           mag * (x * s + g * y * c) * (mag * (x * s + g * y * c)))
    with (mag * mag * ((x * x) * (s * s + c * c) + (g * g) * (y * y) * (s * s + c * c)))
    by ring.
  rewrite Htrig, Hs. ring.
Qed.

Lemma transform_length_witness :
  point_length (transform (mkPoint2d 3 4) (-1) 2 0) = Rabs 2 * point_length (mkPoint2d 3 4).
Proof. apply transform_length. by right. Defined.

(** [within_circle]: for a radius that is not negative the three shortcuts
    decide exactly whether the point lies in the closed disc. *)
Lemma within_circle_disc (x y cx cy r : R) :
  0 <= r ->
  within_circle x y cx cy r = true
  <-> (x - cx) * (x - cx) + (y - cy) * (y - cy) <= r * r.
Proof.
  intros Hr. unfold within_circle, within_circle3.
  set (u := x - cx). set (v := y - cy).
  assert (Hu := Rabs_pos u). assert (Hv := Rabs_pos v).
  assert (Hu2 : Rabs u * Rabs u = u * u).
  { unfold Rabs. destruct (Rcase_abs u); ring. }
  assert (Hv2 : Rabs v * Rabs v = v * v).
  { unfold Rabs. destruct (Rcase_abs v); ring. }
  rewrite Hu2, Hv2.
  destruct (Rleb (Rabs u + Rabs v) r) eqn:H1.
  - apply Rleb_true_iff in H1. split; [intros _|done]. nra.
  - apply not_true_iff_false in H1. rewrite Rleb_true_iff in H1.
    case_Rltb r (Rabs u); simpl.
    + split; [done|]. intros Hd. exfalso. nra.
    + case_Rltb r (Rabs v); simpl.
      * split; [done|]. intros Hd. exfalso. nra.
      * destruct (Rleb (u * u + v * v) (r * r)) eqn:H2.
        -- apply Rleb_true_iff in H2. done.
        -- apply not_true_iff_false in H2. rewrite Rleb_true_iff in H2.
           split; [done|]. intros Hd. by exfalso.
Qed.

Lemma within_circle_disc_witness :
  within_circle 0.3 0.4 0 0 0.5 = true <-> (0.3 - 0) * (0.3 - 0) + (0.4 - 0) * (0.4 - 0) <= 0.5 * 0.5.
Proof. apply within_circle_disc. lra. Defined.

End plane_facts.




(** *** Polygons as the constructors build them, and the regions of a mask *)

Module polygon_facts.
Import geometry oplc geometry_facts.

Lemma chain_edges_org (p : Point2d) (rest : list Point2d) :
  map org (chain_edges p rest) = removelast (p :: rest) /\
  map dst (chain_edges p rest) = rest.
Proof.
  revert p. induction rest as [|q rest IH]; intros p; [done|].
  destruct (IH q) as [Ho Hd]. split.
  - change (map org (chain_edges p (q :: rest)))
      with (p :: map org (chain_edges q rest)).
    rewrite Ho. done.
  - simpl. by rewrite Hd.
Qed.

Lemma chain_closed (p : Point2d) (rest : list Point2d) :
  map org (chain_edges p rest ++ [mkEdge2d (List.last (p :: rest) p) p]) = p :: rest /\
  map dst (chain_edges p rest ++ [mkEdge2d (List.last (p :: rest) p) p]) = rest ++ [p].
Proof.
  destruct (chain_edges_org p rest) as [Ho Hd].
  rewrite !map_app, Ho, Hd. cbn [map org dst]. split; [|done].
  symmetry. by apply app_removelast_last.
Qed.

Lemma PolygonGeometry_cases (points : list Point2d) :
  (PolygonGeometry points = None <->
     (length points < 2)%nat \/
     exists p0 p1, points = [p0; p1] /\ p_x p0 <> p_x p1 /\ p_y p0 <> p_y p1) /\
  (forall g, PolygonGeometry points = Some g ->
     well_formed g /\
     (forall p0 p1, points = [p0; p1] ->
        _edges g = [mkEdge2d p1 p0] /\
        _axis g = (if Reqb (p_y p0) (p_y p1) then DIM_1D_X else DIM_1D_Y)) /\
     ((3 <= length points)%nat ->
        _axis g = DIM_2D /\
        map org (_edges g) = points /\
        map dst (_edges g) = tl points ++ take 1 points)).
Proof.
  destruct points as [|p0 [|p1 [|p2 rest]]].
  - split; [split; [intros _; left; simpl; lia|done]|done].
  - split; [split; [intros _; left; simpl; lia|done]|done].
  - unfold PolygonGeometry, is_1d_possible, is_2d_possible, is_vertical, is_horizontal.
    simpl. case_Reqb (p_x p0) (p_x p1); simpl.
    + split.
      * split; [done|]. intros [Hl|(q0 & q1 & [= <- <-] & Hx & _)]; [simpl in Hl; lia|done].
      * intros g [= <-]. split; [|split].
        -- unfold well_formed. simpl. by destruct (Reqb (p_y p1) (p_y p0)).
        -- intros q0 q1 [= <- <-]. split; [done|]. simpl.
           case_Reqb (p_y p1) (p_y p0); case_Reqb (p_y p0) (p_y p1); try done; congruence.
        -- simpl. lia.
    + case_Reqb (p_y p0) (p_y p1); simpl.
      * split.
        -- split; [done|].
           intros [Hl|(q0 & q1 & [= <- <-] & _ & Hy)]; [simpl in Hl; lia|done].
        -- intros g [= <-]. split; [|split].
           ++ unfold well_formed. simpl. by destruct (Reqb (p_y p1) (p_y p0)).
           ++ intros q0 q1 [= <- <-]. split; [done|]. simpl.
              case_Reqb (p_y p1) (p_y p0); case_Reqb (p_y p0) (p_y p1); try done; congruence.
           ++ simpl. lia.
      * split; [|done]. split; [|done]. intros _. right. by exists p0, p1.
  - assert (Hpg : PolygonGeometry (p0 :: p1 :: p2 :: rest)
                  = Some (mkGeometry
                            (chain_edges p0 (p1 :: p2 :: rest)
                               ++ [mkEdge2d (List.last (p0 :: p1 :: p2 :: rest) p0) p0])
                            DIM_2D)) by reflexivity.
    rewrite Hpg. split.
    + split; [done|].
      intros [Hl|(q0 & q1 & Hq & _)]; [simpl in Hl; lia|done].
    + intros g Hg.
      assert (g = mkGeometry
                    (chain_edges p0 (p1 :: p2 :: rest)
                       ++ [mkEdge2d (List.last (p0 :: p1 :: p2 :: rest) p0) p0])
                    DIM_2D) as -> by congruence.
      split; [done|]. split; [done|]. intros _.
      split; [done|]. cbn [_edges].
      by destruct (chain_closed p0 (p1 :: p2 :: rest)) as [-> ->].
Qed.

(** The constructor refuses fewer than two points and two points that
    differ in both coordinates.  Two points on a common axis give the one
    edge from the second to the first; three points or more give the closed
    chain through the points in their order: every edge starts at its point
    and ends at the next one, the last one at the first. *)
Lemma PolygonGeometry_chain (points : list Point2d) :
  (PolygonGeometry points = None <->
     (length points < 2)%nat \/
     exists p0 p1, points = [p0; p1] /\ p_x p0 <> p_x p1 /\ p_y p0 <> p_y p1) /\
  (forall g, PolygonGeometry points = Some g ->
     well_formed g /\
     (forall p0 p1, points = [p0; p1] ->
        _edges g = [mkEdge2d p1 p0] /\
        _axis g = (if Reqb (p_y p0) (p_y p1) then DIM_1D_X else DIM_1D_Y)) /\
     ((3 <= length points)%nat ->
        _axis g = DIM_2D /\
        map org (_edges g) = points /\
        map dst (_edges g) = tl points ++ take 1 points)).
Proof. exact (PolygonGeometry_cases points). Qed.

(** The sum of the steps in x along a chain; it is zero for a closed one. *)
Definition sum_dx (edges : list Edge2d) : R := accu (map dx edges).

Import sums.

Lemma sum_dx_ends (edges : list Edge2d) :
  sum_dx edges = accu (map p_x (map dst edges)) - accu (map p_x (map org edges)).
Proof.
  unfold sum_dx. induction edges as [|e edges IH]; simpl.
  - rewrite accu_nil. lra.
  - rewrite !accu_cons, IH. unfold dx. lra.
Qed.

Lemma sum_dx_closed (edges : list Edge2d) :
  map dst edges = tl (map org edges) ++ take 1 (map org edges) -> sum_dx edges = 0.
Proof.
  intros Hc. rewrite sum_dx_ends, Hc.
  destruct (map org edges) as [|p rest]; simpl; [lra|].
  rewrite map_app, accu_app. simpl. rewrite !accu_cons, accu_nil. lra.
Qed.

Lemma sum_dx_reversed (edges : list Edge2d) :
  sum_dx (map flip (rev edges)) = - sum_dx edges.
Proof.
  unfold sum_dx. induction edges as [|e edges IH]; simpl.
  - rewrite accu_nil. lra.
  - rewrite !map_app, accu_app, IH. simpl. rewrite !accu_cons, accu_nil.
    unfold dx, flip; simpl. lra.
Qed.

(** The move of every edge by [- offset], as [_make_region] does it. *)
Definition moved (offset : Point2d) (edges : list Edge2d) : list Edge2d :=
  map (fun edge => mkEdge2d (point_sub (org edge) offset) (point_sub (dst edge) offset))
      edges.

Lemma sum_areas_moved (offset : Point2d) (edges : list Edge2d) :
  sum_areas 0 (moved offset edges) = sum_areas 0 edges - p_y offset * sum_dx edges.
Proof.
  unfold sum_dx. induction edges as [|e edges IH].
  - simpl. rewrite accu_nil. unfold sum_areas. simpl. lra.
  - change (moved offset (e :: edges))
      with (mkEdge2d (point_sub (org e) offset) (point_sub (dst e) offset)
              :: moved offset edges).
    rewrite !sum_areas_cons, IH. simpl. rewrite accu_cons.
    unfold area, dx, point_sub; simpl. lra.
Qed.

(** Moving a closed polygon, or an interval, keeps its signed area. *)
Lemma signed_area_moved (g : AbstractGeometry) (offset : Point2d) (a : R) :
  well_formed g -> (_axis g = DIM_2D -> sum_dx (_edges g) = 0) ->
  signed_area g = Some a ->
  signed_area (mkGeometry (moved offset (_edges g)) (_axis g)) = Some a.
Proof.
  destruct g as [edges ax]. unfold well_formed. simpl. intros Hwf Hclosed.
  destruct ax.
  - destruct edges as [|e [|]]; simpl in Hwf; try discriminate.
    unfold signed_area; simpl. intros [= <-]. f_equal.
    unfold point_at, point_sub; simpl. lra.
  - destruct edges as [|e [|]]; simpl in Hwf; try discriminate.
    unfold signed_area; simpl. intros [= <-]. f_equal.
    unfold point_at, point_sub; simpl. lra.
  - unfold signed_area; simpl. intros [= <-]. f_equal.
    fold (sum_areas 0 (moved offset edges)). fold (sum_areas 0 edges).
    rewrite sum_areas_moved, Hclosed by done. lra.
Qed.

(** [Mask::_make_region] on a region that the constructor built: the copy
    has the attributes and the number of edges of the region, and its
    signed area is the absolute value of the region's, wherever the mask is
    centred. *)
Lemma make_region_normalised (points : list Point2d) (transmittance phase : R)
    (region : Region) (center_offset : Point2d) :
  make_Region points transmittance phase = Some region ->
  exists (result : Region) (a : R),
    _make_region region center_offset = Some result /\
    signed_area (region_geometry region) = Some a /\
    signed_area (region_geometry result) = Some (Rabs a) /\
    _axis (region_geometry result) = _axis (region_geometry region) /\
    length (_edges (region_geometry result)) = length (_edges (region_geometry region)) /\
    region_transmittance result = transmittance /\ region_phase result = phase.
Proof.
  unfold make_Region. destruct (PolygonGeometry points) as [g|] eqn:Hg; [simpl|done].
  intros [= <-]. simpl.
  destruct (PolygonGeometry_cases points) as [_ Hchain].
  destruct (Hchain g Hg) as (Hwf & H1d & H2d).
  assert (Hclosed : _axis g = DIM_2D -> sum_dx (_edges g) = 0).
  { intros Hax. destruct (decide (3 <= length points)%nat) as [H3|H3].
    - destruct (H2d H3) as (_ & Ho & Hd). apply sum_dx_closed. by rewrite Ho, Hd.
    - destruct points as [|p0 [|p1 [|? ?]]]; try done; [|simpl in H3; lia].
      destruct (H1d p0 p1 eq_refl) as [_ Hax1]. rewrite Hax in Hax1.
      by destruct (Reqb (p_y p0) (p_y p1)). }
  destruct (signed_area_defined g Hwf) as [a Ha].
  unfold _make_region. cbn [region_geometry region_transmittance region_phase].
  rewrite (set_bypass_unfold CW g a Ha). simpl.
  replace (1 * a) with a by lra.
  case_Rltb a 0; simpl.
  - eexists _, a. split; [reflexivity|]. split; [done|]. simpl.
    split; [|by rewrite !length_map, length_rev].
    rewrite Rabs_left by done.
    apply (signed_area_moved (mkGeometry (map flip (rev (_edges g))) (_axis g))).
    + destruct g as [edges ax]. unfold well_formed in *. simpl in *.
      destruct ax; try done; by rewrite length_map, length_rev.
    + simpl. intros Hax. rewrite sum_dx_reversed, Hclosed by done. lra.
    + by apply signed_area_reversed.
  - eexists _, a. split; [reflexivity|]. split; [done|]. simpl.
    split; [|by rewrite length_map].
    rewrite Rabs_right by lra.
    apply (signed_area_moved g); done.
Qed.

(** The constructor of [Mask]: every region is copied, turned so that its
    signed area is not negative, and moved with the boundary so that the
    boundary box is centred at the origin; the pitch is the size of the
    boundary that was passed, and the attributes are kept. *)
Lemma make_Mask_centred (regions : list Region) (boundary : Box) :
  Forall (fun region => exists points t ph, make_Region points t ph = Some region) regions ->
  let lb0 := left_bottom (box_rectangle boundary) in
  let rt0 := right_top (box_rectangle boundary) in
  exists m : Mask,
    make_Mask regions boundary = Some m /\
    Forall2 (fun region result =>
               exists a, signed_area (region_geometry region) = Some a /\
                         signed_area (region_geometry result) = Some (Rabs a) /\
                         region_transmittance result = region_transmittance region /\
                         region_phase result = region_phase region)
            regions (_regions m) /\
    p_x (mask_pitch m) = p_x rt0 - p_x lb0 /\ p_y (mask_pitch m) = p_y rt0 - p_y lb0 /\
    p_x (left_bottom (box_rectangle (_boundary m))) = - (p_x rt0 - p_x lb0) / 2 /\
    p_y (left_bottom (box_rectangle (_boundary m))) = - (p_y rt0 - p_y lb0) / 2 /\
    p_x (right_top (box_rectangle (_boundary m))) = (p_x rt0 - p_x lb0) / 2 /\
    p_y (right_top (box_rectangle (_boundary m))) = (p_y rt0 - p_y lb0) / 2 /\
    box_transmittance (_boundary m) = box_transmittance boundary /\
    box_phase (_boundary m) = box_phase boundary.
Proof.
  intros Hregions lb0 rt0. unfold make_Mask. fold lb0 rt0.
  set (center_offset := point_add lb0 (point_divs (point_sub rt0 lb0) 2)).
  assert (Hmap : exists rs,
            mapM (fun region => _make_region region center_offset) regions = Some rs /\
            Forall2 (fun region result =>
               exists a, signed_area (region_geometry region) = Some a /\
                         signed_area (region_geometry result) = Some (Rabs a) /\
                         region_transmittance result = region_transmittance region /\
                         region_phase result = region_phase region) regions rs).
  { induction Hregions as [|region regions (points & t & ph & Hr) _ IH].
    - exists []. split; [done|constructor].
    - destruct IH as (rs & Hrs & Hall).
      destruct (make_region_normalised points t ph region center_offset Hr)
        as (result & a & Hres & Ha & Ha' & _ & _ & Ht & Hph).
      exists (result :: rs). split.
      + cbn [mapM]. rewrite Hres. cbn [mbind option_bind]. rewrite Hrs. done.
      + constructor; [|done]. exists a. repeat split; try done.
        * unfold make_Region in Hr. destruct (PolygonGeometry points); [|done].
          simpl in Hr. injection Hr as <-. done.
        * unfold make_Region in Hr. destruct (PolygonGeometry points); [|done].
          simpl in Hr. injection Hr as <-. done. }
  destruct Hmap as (rs & -> & Hall). cbn [mbind option_bind].
  eexists. split; [reflexivity|]. split; [done|].
  unfold mask_pitch, make_Box, Rectangle, left_bottom, right_top, sizes, center_offset,
    point_sub, point_add, point_divs; simpl.
  repeat split; lra.
Qed.

Lemma make_Mask_centred_witness :
  exists m : Mask,
    make_Mask [mkRegion (mkGeometry
                 [mkEdge2d (mkPoint2d 0 0) (mkPoint2d 1 0);
                  mkEdge2d (mkPoint2d 1 0) (mkPoint2d 1 1);
                  mkEdge2d (mkPoint2d 1 1) (mkPoint2d 0 0)] DIM_2D) 0 180]
              (make_Box (mkPoint2d 0 0) (mkPoint2d 4 2) 1 0) = Some m /\
    Forall2 (fun region result =>
               exists a, signed_area (region_geometry region) = Some a /\
                         signed_area (region_geometry result) = Some (Rabs a) /\
                         region_transmittance result = region_transmittance region /\
                         region_phase result = region_phase region)
            [mkRegion (mkGeometry
                 [mkEdge2d (mkPoint2d 0 0) (mkPoint2d 1 0);
                  mkEdge2d (mkPoint2d 1 0) (mkPoint2d 1 1);
                  mkEdge2d (mkPoint2d 1 1) (mkPoint2d 0 0)] DIM_2D) 0 180]
            (_regions m) /\
    p_x (mask_pitch m) = 4 - 0 /\ p_y (mask_pitch m) = 2 - 0 /\
    p_x (left_bottom (box_rectangle (_boundary m))) = - (4 - 0) / 2 /\
    p_y (left_bottom (box_rectangle (_boundary m))) = - (2 - 0) / 2 /\
    p_x (right_top (box_rectangle (_boundary m))) = (4 - 0) / 2 /\
    p_y (right_top (box_rectangle (_boundary m))) = (2 - 0) / 2 /\
    box_transmittance (_boundary m) = 1 /\
    box_phase (_boundary m) = 0.
Proof.
  apply (make_Mask_centred _ (make_Box (mkPoint2d 0 0) (mkPoint2d 4 2) 1 0)).
  constructor; [|constructor].
  exists [mkPoint2d 0 0; mkPoint2d 1 0; mkPoint2d 1 1], 0, 180. reflexivity.
Defined.

End polygon_facts.

(** ** The grid of a resist volume ([opl_capi.h], [opl_capi.cpp], [opl_sim.cpp]) *)

Module volume_grid.
Import geometry oplc resist volume.

(** [round]: to the nearest integer, halves away from zero *)
Definition round (x : R) : R :=
  IZR (if Rltb x 0 then Zceil (x - 0.5) else Zfloor (x + 0.5)).

(** [ResistVolume::_calc_lateral_step].  The quotient [mask_pitch/(n-1)] is
    an infinity when [n = 1]; the comparison is then decided by its sign, and
    a step that is no finite number is [None]. *)
Definition _calc_lateral_step (mask_pitch desired_step : R) : option R :=
  if Reqb mask_pitch 0 || Reqb desired_step 0 then Some 0
  else
    let n := trunc (ceil (mask_pitch / desired_step)) in
    let exceeds :=
      if (n - 1 =? 0)%Z then Rltb 0 mask_pitch
      else Rltb desired_step (mask_pitch / IZR (n - 1)) in
    let n := if exceeds then (n + (if (Z.rem n 2 =? 0)%Z then 1 else 2))%Z else n in
    if (n - 1 =? 0)%Z then None else Some (mask_pitch / IZR (n - 1)).

(** [ResistVolume::_calc_normal_step]; a division by zero is [None]. *)
Definition _calc_normal_step (thickness desired_step : R) : option R :=
  if Reqb thickness 0 || Reqb desired_step 0 then Some 0
  else
    let tmp := thickness / desired_step in
    if negb (Reqb (tmp - round tmp) 0) then fdiv thickness (ceil (tmp + 1))
    else Some desired_step.

(** [ResistVolume::_get_count]; the conversion of a negative number to
    [uint32_t], which C leaves undefined, is taken as zero. *)
Definition _get_count (size step : R) (offset : Z) : nat :=
  if Reqb size 0 || Reqb step 0 then 1%nat
  else Z.to_nat (trunc (ceil (size / step) + IZR offset)).

(** [ResistVolume::_init_vector]: [vec(k) = k * step + start] *)
Definition _init_vector (n : nat) (start step : R) : list R :=
  map (fun k => INR k * step + start) (seq 0 n).

Section Constructor.

Variable uninitialised : nat -> nat -> nat -> R.

(** [ResistVolume::ResistVolume(boundary, thickness, desired_stepxy,
    desired_stepz)]; the cube is allocated and left unfilled. *)
Definition make_ResistVolume (h : heap) (boundary : RectangleGeometry)
    (thickness desired_stepxy desired_stepz : R) : option (ResistVolume * heap) :=
  let sizes := geometry._sizes boundary in
  stepx ← _calc_lateral_step (p_x sizes) desired_stepxy;
  stepy ← _calc_lateral_step (p_y sizes) desired_stepxy;
  stepz ← _calc_normal_step thickness desired_stepz;
  let row := _get_count (p_y sizes) stepy 1 in
  let col := _get_count (p_x sizes) stepx 1 in
  let slices := _get_count thickness stepz 0 in
  let slices := if negb (slices =? 1)%nat then S slices else slices in
  let p := fresh (dom h) in
  let left_bottom := left_bottom boundary in
  Some (mkResistVolume
          (_init_vector col (p_x left_bottom) stepx)
          (_init_vector row (p_y left_bottom) stepy)
          (_init_vector slices thickness (- stepz))
          stepx stepy stepz p boundary thickness desired_stepxy desired_stepz,
        <[p := mkCube row col slices uninitialised]> h).

(** [ResistVolume::ResistVolume(boundary, desired_step)], for the aerial
    image *)
Definition make_ResistVolume_2d (h : heap) (boundary : RectangleGeometry)
    (desired_step : R) : option (ResistVolume * heap) :=
  make_ResistVolume h boundary 0 desired_step 0.

End Constructor.

(** [has_x], [has_y], [has_z] *)
Definition has_x (v : ResistVolume) : bool := (1 <? length (_x v))%nat.
Definition has_y (v : ResistVolume) : bool := (1 <? length (_y v))%nat.
Definition has_z (v : ResistVolume) : bool := (1 <? length (_z v))%nat.

(** The start of [_calc_aerial_image]: the sizes of the transform, taken
    in [uint32_t], and the two checks on them; [None] is the
    [std::invalid_argument]. *)
Definition transform_size (n : nat) : nat :=
  if negb (n =? 1)%nat then Z.to_nat ((Z.of_nat n - 1) mod 2 ^ 32) else n.

Definition transform_sizes (result : cube) : option (nat * nat) :=
  let n_rows := transform_size (cube_n_rows result) in
  let n_cols := transform_size (cube_n_cols result) in
  if negb (n_rows =? 1)%nat && negb (n_rows mod 2 =? 0)%nat then None
  else if negb (n_cols =? 1)%nat && negb (n_cols mod 2 =? 0)%nat then None
  else Some (n_rows, n_cols).

End volume_grid.

Module volume_grid_facts.
Import geometry oplc resist volume volume_grid resist_facts.

Lemma trunc_IZR_all (z : Z) : trunc (IZR z) = z.
Proof.
  unfold trunc. case_Rltb (IZR z) 0.
  - apply Zceil_eq. lra.
  - apply ZfloorZ.
Qed.

Lemma Zceil_IZR (z : Z) : Zceil (IZR z) = z.
Proof. apply Zceil_eq. lra. Qed.

(** On a pitch and a desired step that are positive the lateral grid has an
    odd number [n >= 3] of points; its step [pitch/(n-1)] does not exceed the
    desired one, and [_get_count] finds the same [n] again. *)
Lemma lateral_step_spec (pitch desired : R) :
  0 < pitch -> 0 < desired ->
  exists n : Z,
    (3 <= n)%Z /\ Z.odd n = true /\
    _calc_lateral_step pitch desired = Some (pitch / IZR (n - 1)) /\
    0 < pitch / IZR (n - 1) <= desired /\
    _get_count pitch (pitch / IZR (n - 1)) 1 = Z.to_nat n.
Proof.
  intros Hp Hd.
  set (r := pitch / desired).
  assert (Hr : 0 < r) by (by apply Rdiv_lt_0_compat).
  assert (Hpr : pitch = r * desired) by (unfold r; field; lra).
  set (n0 := Zceil r).
  destruct (Zceil_bound r) as [Hlo Hhi]. fold n0 in Hlo, Hhi.
  assert (Hn0 : (1 <= n0)%Z).
  { assert (0 < IZR n0) by lra. apply lt_IZR in H. lia. }
  set (n := (n0 + (if (Z.rem n0 2 =? 0)%Z then 1 else 2))%Z).
  assert (Hrem : Z.rem n0 2 = (n0 mod 2)%Z) by (apply Z.rem_mod_nonneg; lia).
  assert (Hn : (n0 + 1 <= n)%Z /\ Z.odd n = true).
  { unfold n. rewrite Hrem.
    assert (Hdm := Z.div_mod n0 2 ltac:(lia)).
    assert (Hmb := Z.mod_pos_bound n0 2 ltac:(lia)).
    destruct (Z.eqb_spec (n0 mod 2) 0) as [H0|H0]; (split; [lia|]); apply Z.odd_spec.
    - exists (n0 / 2)%Z. lia.
    - exists (n0 / 2 + 1)%Z. lia. }
  destruct Hn as [Hge Hodd].
  assert (Hn3 : (3 <= n)%Z).
  { destruct (Z.odd n) eqn:Ho; [|done]. apply Z.odd_spec in Ho as [k Hk]. lia. }
  assert (Hpos : 0 < IZR (n - 1)) by (apply IZR_lt; lia).
  assert (Hcalc : _calc_lateral_step pitch desired = Some (pitch / IZR (n - 1))).
  { unfold _calc_lateral_step. case_Reqb pitch 0; [lra|]. case_Reqb desired 0; [lra|].
    simpl. fold r. unfold ceil. rewrite trunc_IZR_all. fold n0.
    assert (Hex : (if (n0 - 1 =? 0)%Z then Rltb 0 pitch
                   else Rltb desired (pitch / IZR (n0 - 1))) = true).
    { destruct (Z.eqb_spec (n0 - 1) 0) as [H0|H0].
      - by apply Rltb_true_iff.
      - apply Rltb_true_iff.
        assert (0 < IZR (n0 - 1)) by (apply IZR_lt; lia).
        apply (Rmult_lt_reg_r (IZR (n0 - 1))); [done|].
        unfold Rdiv. rewrite Rmult_assoc, Rinv_l by lra.
        rewrite minus_IZR in *. nra. }
    rewrite Hex. fold n.
    destruct (Z.eqb_spec (n - 1) 0); [lia|done]. }
  exists n. split; [done|]. split; [done|]. split; [done|].
  assert (Hstep : pitch / IZR (n - 1) <= desired).
  { apply (Rmult_le_reg_r (IZR (n - 1))); [done|].
    unfold Rdiv. rewrite Rmult_assoc, Rinv_l by lra.
    assert (IZR n0 <= IZR (n - 1)) by (apply IZR_le; lia). nra. }
  split; [split; [by apply Rdiv_lt_0_compat|done]|].
  unfold _get_count. case_Reqb pitch 0; [lra|].
  assert (0 < pitch / IZR (n - 1)) by (by apply Rdiv_lt_0_compat).
  case_Reqb (pitch / IZR (n - 1)) 0; [lra|]. simpl.
  replace (pitch / (pitch / IZR (n - 1))) with (IZR (n - 1)) by (field; lra).
  unfold ceil. rewrite Zceil_IZR, <- plus_IZR, trunc_IZR_all. f_equal. lia.
Qed.

Lemma round_integer (x : R) : 0 <= x -> x - round x = 0 -> x = IZR (Zfloor (x + 0.5)).
Proof. intros Hx. unfold round. case_Rltb x 0; [lra|]. lra. Qed.

(** The step in depth on a thickness and a desired step that are positive:
    it does not exceed the desired step and divides the thickness into
    [count] equal parts, [count] being what [_get_count] returns; the count
    is 1 exactly when the thickness equals the desired step. *)
Lemma normal_step_spec (thickness desired : R) :
  0 < thickness -> 0 < desired ->
  exists (stepz : R) (count : nat),
    _calc_normal_step thickness desired = Some stepz /\
    _get_count thickness stepz 0 = count /\
    0 < stepz <= desired /\ INR count * stepz = thickness /\
    (1 <= count)%nat /\ (count = 1%nat <-> thickness = desired).
Proof.
  intros Ht Hd. set (tmp := thickness / desired).
  assert (Htmp : 0 < tmp) by (by apply Rdiv_lt_0_compat).
  assert (Htd : thickness = tmp * desired) by (unfold tmp; field; lra).
  unfold _calc_normal_step. case_Reqb thickness 0; [lra|]. case_Reqb desired 0; [lra|].
  simpl. fold tmp.
  assert (Hcount : forall m : Z, (1 <= m)%Z ->
            _get_count thickness (thickness / IZR m) 0 = Z.to_nat m /\
            INR (Z.to_nat m) * (thickness / IZR m) = thickness).
  { intros m Hm. assert (0 < IZR m) by (apply IZR_lt; lia).
    assert (0 < thickness / IZR m) by (by apply Rdiv_lt_0_compat).
    unfold _get_count. case_Reqb thickness 0; [lra|].
    case_Reqb (thickness / IZR m) 0; [lra|]. simpl.
    replace (thickness / (thickness / IZR m)) with (IZR m) by (field; lra).
    unfold ceil. rewrite Zceil_IZR, Rplus_0_r, trunc_IZR_all. split; [done|].
    rewrite INR_IZR_INZ, Z2Nat.id by lia. field. lra. }
  case_Reqb (tmp - round tmp) 0; simpl.
  - apply round_integer in E1; [|lra]. set (q := Zfloor (tmp + 0.5)) in *.
    assert (Hq : (1 <= q)%Z).
    { assert (0 < IZR q) by lra. apply lt_IZR in H. lia. }
    destruct (Hcount q Hq) as [Hc Hm].
    assert (Hstep : thickness / IZR q = desired) by (rewrite <- E1; unfold tmp; field; lra).
    rewrite Hstep in Hc, Hm.
    exists desired, (Z.to_nat q). split; [done|]. split; [done|].
    split; [lra|]. split; [done|]. split; [lia|]. split.
    + intros H1. assert (q = 1%Z) as Hq1 by lia. rewrite Hq1 in Hstep.
      rewrite <- Hstep. field.
    + intros Heq. assert (IZR q = 1) by (rewrite <- E1; unfold tmp; rewrite Heq; field; lra).
      apply eq_IZR in H. lia.
  - set (m := Zceil (tmp + 1)).
    assert (Hm1 : m = (Zceil tmp + 1)%Z) by (unfold m; apply Zceil_addz).
    destruct (Zceil_bound tmp) as [Hlo Hhi].
    assert (Hc1 : (1 <= Zceil tmp)%Z).
    { assert (0 < IZR (Zceil tmp)) by lra. apply lt_IZR in H. lia. }
    assert (Hm : (2 <= m)%Z) by lia.
    assert (Hmpos : 0 < IZR m) by (apply IZR_lt; lia).
    unfold fdiv, ceil. fold m. case_Reqb (IZR m) 0; [lra|].
    destruct (Hcount m ltac:(lia)) as [Hc Hmul].
    exists (thickness / IZR m), (Z.to_nat m). split; [done|]. split; [done|].
    split.
    + split; [by apply Rdiv_lt_0_compat|].
      apply (Rmult_le_reg_r (IZR m)); [done|].
      unfold Rdiv. rewrite Rmult_assoc, Rinv_l by lra.
      assert (IZR (Zceil tmp) + 1 = IZR m) by (rewrite Hm1, plus_IZR; done).
      nra.
    + split; [done|]. split; [lia|]. split; [lia|].
      intros Heq. exfalso. apply E1.
      assert (tmp = 1) as -> by (unfold tmp; rewrite Heq; field; lra).
      unfold round. case_Rltb 1 0; [lra|].
      rewrite (Zfloor_eq 1) by (simpl; lra). simpl. lra.
Qed.

Lemma length_init_vector (n : nat) (start step : R) :
  length (_init_vector n start step) = n.
Proof. unfold _init_vector. by rewrite length_map, length_seq. Qed.

Lemma init_vector_lookup (n i : nat) (start step : R) :
  (i < n)%nat -> _init_vector n start step !!! i = INR i * step + start.
Proof.
  intros Hi. unfold _init_vector. apply list_lookup_total_correct.
  by rewrite list_lookup_fmap, lookup_seq_lt.
Qed.

(** What the constructor makes of one lateral axis from [lo] to [hi]: one
    point at [lo] when the extent or the desired step is zero; otherwise an
    odd number of points, three at least, from [lo] to [hi] with a common
    step that does not exceed the desired one. *)
Definition lateral_axis (xs : list R) (step lo hi desired : R) : Prop :=
  (hi - lo = 0 \/ desired = 0 -> length xs = 1%nat /\ xs !!! 0%nat = lo /\ step = 0) /\
  (0 < hi - lo -> 0 < desired ->
     (exists k, length xs = (2 * k + 3)%nat) /\ 0 < step <= desired /\
     xs !!! 0%nat = lo /\ xs !!! (length xs - 1)%nat = hi /\
     forall i, (i < length xs)%nat -> xs !!! i = lo + INR i * step).

(** And of the axis in depth: one point at the thickness when the thickness
    or the desired step is zero, and also when the two are equal; otherwise
    three points at least, from the thickness down to zero. *)
Definition depth_axis (zs : list R) (step thickness desired : R) : Prop :=
  (thickness = 0 \/ desired = 0 \/ thickness = desired ->
     length zs = 1%nat /\ zs !!! 0%nat = thickness) /\
  (0 < thickness -> 0 < desired -> thickness <> desired ->
     (3 <= length zs)%nat /\ 0 < step <= desired /\
     zs !!! 0%nat = thickness /\ zs !!! (length zs - 1)%nat = 0 /\
     forall i, (i < length zs)%nat -> zs !!! i = thickness - INR i * step).

Lemma lateral_axis_spec (lo hi desired : R) :
  lo <= hi -> 0 <= desired ->
  exists (step : R) (n : nat),
    _calc_lateral_step (hi - lo) desired = Some step /\
    _get_count (hi - lo) step 1 = n /\
    lateral_axis (_init_vector n lo step) step lo hi desired /\
    (n = 1%nat \/ exists k, n = (2 * k + 3)%nat).
Proof.
  intros Hlo Hd.
  destruct (Req_dec (hi - lo) 0) as [H0|H0]; [|destruct (Req_dec desired 0) as [Hd0|Hd0]].
  - exists 0, 1%nat. unfold _calc_lateral_step, _get_count.
    rewrite H0, Reqb_refl. simpl. repeat split; try done; try lra.
    + rewrite init_vector_lookup by lia. simpl. lra.
    + by left.
  - exists 0, 1%nat. unfold _calc_lateral_step, _get_count.
    rewrite Hd0, !Reqb_refl, !orb_true_r. repeat split; try done; try lra.
    + rewrite init_vector_lookup by lia. simpl. lra.
    + by left.
  - destruct (lateral_step_spec (hi - lo) desired) as (n & Hn3 & Hodd & Hs & Hb & Hc);
      [lra|lra|].
    apply Z.odd_spec in Hodd as [m Hm].
    set (step := (hi - lo) / IZR (n - 1)) in *.
    assert (Hlen : Z.to_nat n = (2 * Z.to_nat (m - 1) + 3)%nat) by lia.
    assert (Hpos : 0 < IZR (n - 1)) by (apply IZR_lt; lia).
    exists step, (Z.to_nat n). split; [done|]. split; [done|]. split.
    + split; [intros [?|?]; lra|]. intros _ _.
      rewrite length_init_vector. split; [by eexists|]. split; [done|].
      split; [rewrite init_vector_lookup by lia; simpl; lra|].
      split.
      * rewrite init_vector_lookup by lia.
        replace (INR (Z.to_nat n - 1)) with (IZR (n - 1)).
        2:{ rewrite INR_IZR_INZ. f_equal. lia. }
        unfold step. field. lra.
      * intros i Hi. rewrite init_vector_lookup by done. lra.
    + right. by eexists.
Qed.

Lemma depth_axis_spec (thickness desired : R) :
  0 <= thickness -> 0 <= desired ->
  exists (step : R) (count : nat),
    _calc_normal_step thickness desired = Some step /\
    _get_count thickness step 0 = count /\
    depth_axis (_init_vector (if negb (count =? 1)%nat then S count else count)
                             thickness (- step))
               step thickness desired.
Proof.
  intros Ht Hd.
  destruct (Req_dec thickness 0) as [H0|H0]; [|destruct (Req_dec desired 0) as [Hd0|Hd0]].
  - exists 0, 1%nat. unfold _calc_normal_step, _get_count.
    rewrite H0, Reqb_refl. simpl. repeat split; try done; try lra.
    all: change (if negb (1 =? 1)%nat then 2%nat else 1%nat) with 1%nat.
    all: try (rewrite length_init_vector; done).
    rewrite init_vector_lookup by lia. simpl. lra.
  - exists 0, 1%nat. unfold _calc_normal_step, _get_count.
    rewrite Hd0, !Reqb_refl, !orb_true_r. repeat split; try done; try lra.
    all: change (if negb (1 =? 1)%nat then 2%nat else 1%nat) with 1%nat.
    all: try (rewrite length_init_vector; done).
    rewrite init_vector_lookup by lia. simpl. lra.
  - destruct (normal_step_spec thickness desired) as (step & count & Hs & Hc & Hb & Hm & H1 & Heq);
      [lra|lra|].
    exists step, count. split; [done|]. split; [done|].
    destruct (Nat.eqb_spec count 1) as [Hone|Hone]; simpl.
    + split.
      * intros _. rewrite length_init_vector. split; [done|].
        all: change (if negb (1 =? 1)%nat then 2%nat else 1%nat) with 1%nat.
    all: try (rewrite length_init_vector; done).
    rewrite init_vector_lookup by lia. simpl. lra.
      * intros _ _ Hne. exfalso. apply Hne. by apply Heq.
    + split.
      * intros [?|[?|?]]; try lra. exfalso. apply Hone. by apply Heq.
      * intros _ _ _. rewrite length_init_vector. split; [lia|]. split; [done|].
        split; [rewrite init_vector_lookup by lia; simpl; lra|]. split.
        -- rewrite init_vector_lookup by lia.
           replace (S count - 1)%nat with count by lia. lra.
        -- intros i Hi. rewrite init_vector_lookup by done. lra.
Qed.

Lemma transform_size_axis (n : nat) :
  (Z.of_nat n < 2 ^ 32)%Z -> n = 1%nat \/ (exists k, n = (2 * k + 3)%nat) ->
  (transform_size n =? 1)%nat = true \/ (transform_size n mod 2 =? 0)%nat = true.
Proof.
  intros Hn [->|[k ->]]; [by left|right].
  unfold transform_size.
  replace (2 * k + 3 =? 1)%nat with false by (symmetry; apply Nat.eqb_neq; lia).
  simpl negb. cbv iota. rewrite Z.mod_small by lia.
  replace (Z.to_nat (Z.of_nat (2 * k + 3) - 1)) with (2 * (k + 1))%nat by lia.
  apply Nat.eqb_eq. rewrite Nat.mul_comm. apply Nat.Div0.mod_mul.
Qed.

Section ConstructorFacts.

Variable uninitialised : nat -> nat -> nat -> R.


End ConstructorFacts.


End volume_grid_facts.

(** *** The bake keeps the range of the latent image *)

Module peb_bounds.
Import geometry conv resist sums volume conv_facts resist_facts volume_facts.

Lemma diffusion_length_nonneg (m : PebResistModel) (temp time sigma : R) :
  diffusion_length m temp time = Some sigma -> 0 <= sigma.
Proof.
  unfold diffusion_length. destruct (diffusivity m temp) as [d|]; [simpl|done].
  unfold fsqrt. destruct (Rltb (2 * d * time) 0); [done|].
  intros [= <-]. apply sqrt_pos.
Qed.

(** Every weight of a kernel is positive. *)
Lemma kernel_weights_pos (m : PebResistModel) (peb : PostExposureBake) (step : R)
    (k : list R) :
  kernel m peb step = Some k -> Forall (fun v => 0 < v) k.
Proof.
  unfold kernel. case_Reqb step 0; simpl.
  - intros [= <-]. constructor; [lra|constructor].
  - destruct (diffusion_length _ _ _) as [sigma|] eqn:Hs; [simpl|done].
    apply diffusion_length_nonneg in Hs.
    case_Reqb sigma 0; [done|].
    set (sog := ceil (3 * sigma) - fmod (ceil (3 * sigma)) step + step).
    set (samples := map _ _).
    case_Reqb (accu samples) 0; [done|]. intros [= <-].
    assert (Hpi : 0 < sqrt (2 * oplc.M_PI)).
    { apply sqrt_lt_R0. unfold oplc.M_PI. assert (H := PI_RGT_0). lra. }
    assert (Hc : 0 < step / sigma / sqrt (2 * oplc.M_PI) \/
                 step / sigma / sqrt (2 * oplc.M_PI) < 0).
    { destruct (Rlt_dec 0 step) as [Hp|Hn].
      - left. apply Rdiv_lt_0_compat; [|done]. apply Rdiv_lt_0_compat; lra.
      - right. assert (0 < - step / sigma / sqrt (2 * oplc.M_PI)).
        { apply Rdiv_lt_0_compat; [|done]. apply Rdiv_lt_0_compat; lra. }
        unfold Rdiv in *. lra. }
    destruct Hc as [Hc|Hc].
    + assert (Hall : Forall (fun v => 0 < v) samples).
      { apply Forall_forall. intros v (i & -> & _)%list_elem_of_fmap.
        unfold gauss_sample. apply Rmult_lt_0_compat; [done|apply exp_pos]. }
      assert (0 < accu samples).
      { apply accu_pos; [|done]. intros Hnil. rewrite Hnil, accu_nil in *. done. }
      apply Forall_forall. intros v (w & -> & Hw)%list_elem_of_fmap.
      apply Rdiv_lt_0_compat; [|done]. by apply (proj1 (Forall_forall _ _) Hall).
    + assert (Hall : Forall (fun v => 0 < v) (map Ropp samples)).
      { apply Forall_forall. intros v (w & -> & (i & -> & _)%list_elem_of_fmap)%list_elem_of_fmap.
        unfold gauss_sample.
        assert (He := exp_pos (- (INR i * step - sog) * (INR i * step - sog) / 2 / sigma / sigma)).
        nra. }
      assert (Hneg : accu (map Ropp samples) = - accu samples).
      { clear. induction samples as [|x l IH]; simpl; [rewrite accu_nil; lra|].
        rewrite !accu_cons, IH. lra. }
      assert (0 < accu (map Ropp samples)).
      { apply accu_pos; [|done]. intros Hnil. apply fmap_nil_inv in Hnil.
        rewrite Hnil, accu_nil in *. done. }
      apply Forall_forall. intros v (w & -> & Hw)%list_elem_of_fmap.
      assert (0 < - w).
      { apply (proj1 (Forall_forall _ _) Hall). apply list_elem_of_fmap. by exists w. }
      replace (w / accu samples) with (- w / - accu samples) by (field; lra).
      apply Rdiv_lt_0_compat; lra.
Qed.

(** A sum of values of a range, weighted with weights that are not negative
    and sum to one, lies in the range. *)
Lemma Rsum_weighted_range (a w : nat -> R) (n : nat) (lo hi : R) :
  (forall k, (k < n)%nat -> lo <= a k <= hi) ->
  (forall k, (k < n)%nat -> 0 <= w k) -> Rsum w n = 1 ->
  lo <= Rsum (fun k => a k * w k) n <= hi.
Proof.
  intros Ha Hw Hsum.
  assert (H : lo * Rsum w n <= Rsum (fun k => a k * w k) n <= hi * Rsum w n).
  { clear Hsum. induction n as [|n IH]; simpl; [lra|].
    destruct IH as [IHl IHh]; [intros; auto with lia..|].
    assert (Han := Ha n ltac:(lia)). assert (Hwn := Hw n ltac:(lia)). nra. }
  rewrite Hsum in H. lra.
Qed.

Section Range.

Variable uword_bits : Z.

Lemma circular_index_range (n i s : Z) :
  (0 < n)%Z -> (0 <= circular_index uword_bits n i s < n)%Z.
Proof. intros Hn. unfold circular_index. by apply Z.mod_pos_bound. Qed.

Lemma symmetric_index_range (c i s : Z) :
  (2 <= c)%Z -> (0 <= symmetric_index c i s < c)%Z.
Proof.
  intros Hc. unfold symmetric_index.
  assert (Hw := Z.abs_nonneg (i + s)).
  assert (Hm := Z.mod_pos_bound (Z.abs (i + s)) (c - 1) ltac:(lia)).
  destruct (Z.leb_spec c (Z.abs (i + s))); [|lia].
  destruct (Z.eqb_spec ((Z.abs (i + s) / (c - 1)) mod 2) 0); lia.
Qed.

(** A convolution, circular or symmetric, with a kernel of weights that
    are not negative and sum to one keeps every sample within the range of
    the array. *)
Lemma conv1d_range (array kernel : list R) (type : conv1d_type_t) (lo hi : R) :
  Forall (fun v => 0 <= v) kernel -> accu kernel = 1 ->
  Forall (fun v => lo <= v <= hi) array ->
  Forall (fun v => lo <= v <= hi) (conv1d uword_bits array kernel type).
Proof.
  intros Hk Hsum Ha.
  destruct (decide (1 < length array)%nat) as [Hn|Hn].
  - apply Forall_lookup. intros i v Hv.
    assert (Hi : (i < length array)%nat).
    { apply lookup_lt_Some in Hv. by rewrite length_conv1d in Hv. }
    apply list_lookup_total_correct in Hv as <-.
    assert (Hgen : forall index : Z -> Z -> Z -> Z,
              (forall i s, (0 <= index (Z.of_nat (length array)) i s < Z.of_nat (length array))%Z) ->
              lo <= conv_with index array kernel !!! i <= hi).
    { intros index Hidx. rewrite conv_with_lookup by done. rewrite conv_at_Rsum.
      apply Rsum_weighted_range.
      - intros k Hlt. apply (proj1 (Forall_lookup _ _) Ha (Z.to_nat (index (Z.of_nat (length array)) (Z.of_nat i) (kmin kernel + Z.of_nat k)%Z))).
        apply list_lookup_lookup_total_lt.
        specialize (Hidx (Z.of_nat i) (kmin kernel + Z.of_nat k)%Z). lia.
      - intros k Hlt. apply (proj1 (Forall_lookup _ _) Hk k).
        by apply list_lookup_lookup_total_lt.
      - by rewrite <- accu_lookup. }
    destruct type; apply Hgen; intros i0 s0.
    + apply symmetric_index_range. lia.
    + apply circular_index_range. lia.
  - destruct array as [|x [|y array]]; [|by destruct type|simpl in Hn; lia].
    destruct type; constructor.
Qed.

(** The values of a cube at the places within its sizes. *)
Definition cube_within (c : cube) (lo hi : R) : Prop :=
  forall r j s, (r < cube_n_rows c)%nat -> (j < cube_n_cols c)%nat ->
    (s < cube_n_slices c)%nat -> lo <= cube_at c r j s <= hi.

Lemma conv1d_lookup_range (f : nat -> R) (n i : nat) (kernel : list R)
    (type : conv1d_type_t) (lo hi : R) :
  Forall (fun v => 0 <= v) kernel -> accu kernel = 1 ->
  (forall k, (k < n)%nat -> lo <= f k <= hi) -> (i < n)%nat ->
  lo <= conv1d uword_bits (map f (seq 0 n)) kernel type !!! i <= hi.
Proof.
  intros Hk Hsum Hf Hi.
  assert (Hall : Forall (fun v => lo <= v <= hi) (conv1d uword_bits (map f (seq 0 n)) kernel type)).
  { apply conv1d_range; [done|done|].
    apply Forall_forall. intros v (k & -> & Hin)%list_elem_of_fmap.
    apply Hf. apply elem_of_seq in Hin. lia. }
  apply (proj1 (Forall_lookup _ _) Hall i).
  apply list_lookup_lookup_total_lt.
  by rewrite length_conv1d, length_map, length_seq.
Qed.

Variable uninitialised : nat -> nat -> nat -> R.


End Range.

Import resist_examples.


End peb_bounds.

(** ** Linear interpolation ([opl_interp.h], [opl_interp.cpp]) *)

Module interp.

(** A double that may be the [NAN] with which a table is filled. *)
Inductive number : Type := finite (v : R) | nan.

(** [LinearInterpolation1d]: the nodes, the values, the coefficients [_s]
    and [_b] of the segments, and the filler.  The source allocates [_s] and
    [_b] with the length of [x] and writes all but the last element; the
    lists hold the elements that are written. *)
Record LinearInterpolation1d : Type := mkLinearInterpolation1d {
  _px : list R;
  _py : list R;
  _b : list R;
  _s : list R;
  _fill : number
}.

(** [const int32_t sdx = (x(x.n_elem-1) - x(0)) > 0 ? 1 : -1] *)
Definition direction (x : list R) : option R :=
  x0 ← x !! 0%nat;
  xl ← x !! (length x - 1)%nat;
  Some (if Rltb 0 (xl - x0) then 1 else -1).

(** [_get_base_index]: the first segment that holds [xi], and 0 when there
    is none. *)
Definition _get_base_index (x : list R) (xi : R) : option nat :=
  sdx ← direction x;
  Some (default 0%nat
          (List.find (fun k => Rleb (sdx * (x !!! k)) (sdx * xi)
                               && Rleb (sdx * xi) (sdx * (x !!! S k)))
                     (seq 0 (length x - 1)))).

(** [_interp1] *)
Definition _interp1 (xi x0 x1 v0 v1 : R) : R :=
  ((x1 - xi) * v0 + (xi - x0) * v1) / (x1 - x0).

(** The constructor: slope and offset of every segment.  [None] when the
    node vector is empty or the values are too few, where the source reads
    outside a vector, and when two neighbouring nodes coincide, where the
    coefficients are no finite numbers. *)
Definition segment (x y : list R) (k : nat) : option (R * R) :=
  x0 ← x !! k; x1 ← x !! S k; y0 ← y !! k; y1 ← y !! S k;
  if Reqb (x1 - x0) 0 then None
  else Some ((y1 - y0) / (x1 - x0), (x1 * y0 - x0 * y1) / (x1 - x0)).

Definition make_LinearInterpolation1d (px py : list R) (fill : number)
  : option LinearInterpolation1d :=
  if bool_decide (px = []) then None
  else
    sb ← mapM (segment px py) (seq 0 (length px - 1));
    Some (mkLinearInterpolation1d px py (map snd sb) (map fst sb) fill).

(** [LinearInterpolation1d::interpolate(double xi)] *)
Definition interpolate (it : LinearInterpolation1d) (xi : R) : option number :=
  let x := _px it in
  let y := _py it in
  sdx ← direction x;
  x0 ← x !! 0%nat;
  xl ← x !! (length x - 1)%nat;
  if Rltb (sdx * xi) (sdx * x0) || Rltb (sdx * xl) (sdx * xi) then Some (_fill it)
  else if Reqb xi x0 then finite <$> y !! 0%nat
  else if Reqb xi xl then finite <$> y !! (length y - 1)%nat
  else
    k ← _get_base_index x xi;
    s ← _s it !! k;
    b ← _b it !! k;
    Some (finite (s * xi + b)).

(** [LinearInterpolation1d::interpolate(const arma::vec& xi)] *)
Definition interpolate_vec (it : LinearInterpolation1d) (xi : list R) : option (list number) :=
  mapM (interpolate it) xi.

End interp.

Module interp_facts.
Import interp.

(** Nodes in strictly increasing order. *)
Definition increasing (x : list R) : Prop :=
  forall i j, (i < j < length x)%nat -> x !!! i < x !!! j.

Lemma direction_increasing (x : list R) :
  increasing x -> (2 <= length x)%nat -> direction x = Some 1.
Proof.
  intros Hinc Hn. unfold direction.
  rewrite (list_lookup_lookup_total_lt x 0) by lia.
  rewrite (list_lookup_lookup_total_lt x (length x - 1)) by lia. simpl.
  assert (H := Hinc 0%nat (length x - 1)%nat ltac:(lia)).
  case_Rltb 0 (x !!! (length x - 1)%nat - x !!! 0%nat); [done|lra].
Qed.

Lemma segment_exists (x : list R) (xi : R) (m : nat) :
  (1 <= m < length x)%nat -> x !!! 0%nat <= xi <= x !!! m ->
  exists k, (k < m)%nat /\ x !!! k <= xi <= x !!! S k.
Proof.
  induction m as [|m IH]; [lia|]. intros Hm Hxi.
  destruct (Rle_dec xi (x !!! m)) as [Hle|Hgt].
  - destruct m as [|m]; [exists 0%nat; split; [lia|lra]|].
    destruct IH as (k & Hk & Hseg); [lia|lra|]. exists k. split; [lia|done].
  - exists m. split; [lia|lra].
Qed.

Lemma base_index_increasing (x : list R) (xi : R) :
  increasing x -> (2 <= length x)%nat ->
  x !!! 0%nat <= xi <= x !!! (length x - 1)%nat ->
  exists k, _get_base_index x xi = Some k /\ (S k < length x)%nat /\
            x !!! k <= xi <= x !!! S k.
Proof.
  intros Hinc Hn Hxi. unfold _get_base_index.
  rewrite direction_increasing by done. simpl.
  destruct (List.find _ _) as [k|] eqn:Hfind.
  - apply find_some in Hfind as [Hin Htest]. apply in_seq in Hin.
    apply andb_true_iff in Htest as [H1 H2].
    apply Rleb_true_iff in H1, H2.
    exists k. split; [done|]. split; [lia|lra].
  - exfalso.
    destruct (segment_exists x xi (length x - 1)) as (k & Hk & Hseg); [lia|done|].
    assert (Hnone := find_none _ _ Hfind k).
    rewrite in_seq in Hnone. specialize (Hnone ltac:(lia)). simpl in Hnone.
    apply andb_false_iff in Hnone as [H|H];
      apply not_true_iff_false in H; rewrite Rleb_true_iff in H; lra.
Qed.

Lemma coefficients (px py : list R) (fill : number) (it : LinearInterpolation1d) (k : nat) :
  make_LinearInterpolation1d px py fill = Some it -> (S k < length px)%nat ->
  _px it = px /\ _py it = py /\ _fill it = fill /\
  px !!! S k - px !!! k <> 0 /\
  (S k < length py)%nat /\
  _s it !! k = Some ((py !!! S k - py !!! k) / (px !!! S k - px !!! k)) /\
  _b it !! k = Some ((px !!! S k * py !!! k - px !!! k * py !!! S k)
                     / (px !!! S k - px !!! k)).
Proof.
  unfold make_LinearInterpolation1d. case_bool_decide; [done|].
  destruct (mapM _ _) as [sb|] eqn:Hsb; [simpl|done]. intros [= <-] Hk. simpl.
  apply mapM_Some in Hsb.
  assert (Hseq : seq 0 (length px - 1) !! k = Some k) by (apply lookup_seq_lt; lia).
  destruct (Forall2_lookup_l _ _ _ _ _ Hsb Hseq) as ((s & b) & Hlk & Hseg).
  unfold segment in Hseg.
  rewrite (list_lookup_lookup_total_lt px k) in Hseg by lia.
  rewrite (list_lookup_lookup_total_lt px (S k)) in Hseg by lia. simpl in Hseg.
  destruct (py !! k) as [y0|] eqn:Hy0; [simpl in Hseg|done].
  destruct (py !! S k) as [y1|] eqn:Hy1; [simpl in Hseg|done].
  case_Reqb (px !!! S k - px !!! k) 0; [done|]. injection Hseg as <- <-.
  apply list_lookup_total_correct in Hy0 as Hy0', Hy1 as Hy1'.
  rewrite Hy0', Hy1'.
  repeat split; try done.
  - by apply lookup_lt_Some in Hy1.
  - rewrite list_lookup_fmap, Hlk. done.
  - rewrite list_lookup_fmap, Hlk. done.
Qed.

(** A table over increasing nodes: outside the nodes the interpolation
    answers with the filler; between two neighbouring nodes it is the value
    of the straight line through their values, which lies between them; at
    every node it is the value of the node. *)
Lemma interpolate_spec (px py : list R) (fill : number) (it : LinearInterpolation1d) :
  make_LinearInterpolation1d px py fill = Some it ->
  increasing px -> (2 <= length px)%nat -> length py = length px ->
  (forall xi, xi < px !!! 0%nat \/ px !!! (length px - 1)%nat < xi ->
     interpolate it xi = Some fill) /\
  (forall xi, px !!! 0%nat <= xi <= px !!! (length px - 1)%nat ->
     exists k v,
       (S k < length px)%nat /\ px !!! k <= xi <= px !!! S k /\
       interpolate it xi = Some (finite v) /\
       v = _interp1 xi (px !!! k) (px !!! S k) (py !!! k) (py !!! S k) /\
       Rmin (py !!! k) (py !!! S k) <= v <= Rmax (py !!! k) (py !!! S k)) /\
  (forall k, (k < length px)%nat ->
     exists v, interpolate it (px !!! k) = Some (finite v) /\ v = py !!! k).
Proof.
  intros Hmake Hinc Hn Hlen.
  assert (Hfirst : px !!! 0%nat < px !!! (length px - 1)%nat) by (apply Hinc; lia).
  assert (Hhead : forall xi, interpolate it xi =
            if Rltb xi (px !!! 0%nat) || Rltb (px !!! (length px - 1)%nat) xi
            then Some fill
            else if Reqb xi (px !!! 0%nat) then Some (finite (py !!! 0%nat))
            else if Reqb xi (px !!! (length px - 1)%nat)
                 then Some (finite (py !!! (length px - 1)%nat))
            else k ← _get_base_index px xi; s ← _s it !! k; b ← _b it !! k;
                 Some (finite (s * xi + b))).
  { intros xi. destruct (coefficients px py fill it 0 Hmake ltac:(lia))
      as (Hpx & Hpy & Hfill & _).
    unfold interpolate. rewrite Hpx, Hpy, Hfill, direction_increasing by done.
    cbn [mbind option_bind].
    rewrite (list_lookup_lookup_total_lt px 0) by lia.
    rewrite (list_lookup_lookup_total_lt px (length px - 1)) by lia.
    cbn [mbind option_bind]. rewrite !Rmult_1_l.
    rewrite (list_lookup_lookup_total_lt py 0) by lia. rewrite Hlen.
    rewrite (list_lookup_lookup_total_lt py (length px - 1)) by lia. done. }
  assert (Hline : forall xi k, (S k < length px)%nat -> px !!! k <= xi <= px !!! S k ->
            forall s b, _s it !! k = Some s -> _b it !! k = Some b ->
            s * xi + b = _interp1 xi (px !!! k) (px !!! S k) (py !!! k) (py !!! S k) /\
            Rmin (py !!! k) (py !!! S k) <= s * xi + b <= Rmax (py !!! k) (py !!! S k)).
  { intros xi k Hk Hseg s b Hs Hb.
    destruct (coefficients px py fill it k Hmake Hk) as (_ & _ & _ & Hne & _ & Hs' & Hb').
    rewrite Hs' in Hs. rewrite Hb' in Hb. injection Hs as <-. injection Hb as <-.
    assert (Hlt : px !!! k < px !!! S k) by (apply Hinc; lia).
    set (x0 := px !!! k) in *. set (x1 := px !!! S k) in *.
    set (y0 := py !!! k). set (y1 := py !!! S k).
    assert (Heq : (y1 - y0) / (x1 - x0) * xi + (x1 * y0 - x0 * y1) / (x1 - x0)
                  = _interp1 xi x0 x1 y0 y1) by (unfold _interp1; field; lra).
    split; [done|]. rewrite Heq. unfold _interp1.
    set (t := (xi - x0) / (x1 - x0)).
    assert (Ht : 0 <= t <= 1).
    { unfold t. split.
      - apply Rmult_le_pos; [lra|]. left. apply Rinv_0_lt_compat. lra.
      - apply (Rmult_le_reg_r (x1 - x0)); [lra|]. unfold Rdiv.
        rewrite Rmult_assoc, Rinv_l by lra. lra. }
    replace (((x1 - xi) * y0 + (xi - x0) * y1) / (x1 - x0))
      with ((1 - t) * y0 + t * y1) by (unfold t; field; lra).
    unfold Rmin, Rmax. destruct (Rle_dec y0 y1); nra. }
  assert (Hinside : forall xi, px !!! 0%nat <= xi <= px !!! (length px - 1)%nat ->
     exists k v,
       (S k < length px)%nat /\ px !!! k <= xi <= px !!! S k /\
       interpolate it xi = Some (finite v) /\
       v = _interp1 xi (px !!! k) (px !!! S k) (py !!! k) (py !!! S k) /\
       Rmin (py !!! k) (py !!! S k) <= v <= Rmax (py !!! k) (py !!! S k)).
  { intros xi Hxi. rewrite Hhead.
    case_Rltb xi (px !!! 0%nat); [lra|].
    case_Rltb (px !!! (length px - 1)%nat) xi; [lra|]. simpl.
    case_Reqb xi (px !!! 0%nat).
    { assert (H01 : px !!! 0%nat < px !!! 1%nat) by (apply Hinc; lia).
      exists 0%nat, (py !!! 0%nat). subst xi.
      split; [lia|]. split; [lra|]. split; [done|].
      assert (Hv : py !!! 0%nat = _interp1 (px !!! 0%nat) (px !!! 0%nat) (px !!! 1%nat)
                                   (py !!! 0%nat) (py !!! 1%nat))
        by (unfold _interp1; field; lra).
      split; [done|]. unfold Rmin, Rmax. destruct (Rle_dec _ _); lra. }
    case_Reqb xi (px !!! (length px - 1)%nat).
    { set (m := (length px - 2)%nat).
      assert (Hm : (length px - 1)%nat = S m) by lia. rewrite Hm in *.
      assert (Hmm : px !!! m < px !!! S m) by (apply Hinc; lia).
      exists m, (py !!! S m). subst xi.
      split; [lia|]. split; [lra|]. split; [done|].
      assert (Hv : py !!! S m = _interp1 (px !!! S m) (px !!! m) (px !!! S m)
                                   (py !!! m) (py !!! S m))
        by (unfold _interp1; field; lra).
      split; [done|]. unfold Rmin, Rmax. destruct (Rle_dec _ _); lra. }
    destruct (base_index_increasing px xi Hinc Hn Hxi) as (k & -> & Hk & Hseg).
    cbn [mbind option_bind].
    destruct (coefficients px py fill it k Hmake Hk) as (_ & _ & _ & _ & _ & Hs & Hb).
    rewrite Hs, Hb. cbn [mbind option_bind].
    destruct (Hline xi k Hk Hseg _ _ Hs Hb) as [Hv Hr].
    eexists k, _. split; [done|]. split; [done|]. split; [reflexivity|]. done. }
  split; [|split; [done|]].
  - intros xi Hout. rewrite Hhead.
    destruct Hout as [Hl|Hr].
    + case_Rltb xi (px !!! 0%nat); [done|lra].
    + case_Rltb (px !!! (length px - 1)%nat) xi; [by rewrite orb_true_r|lra].
  - intros k Hk.
    assert (Hxi : px !!! 0%nat <= px !!! k <= px !!! (length px - 1)%nat).
    { split.
      - destruct k; [lra|]. left. apply Hinc. lia.
      - destruct (decide (k = length px - 1)%nat) as [->|]; [lra|].
        left. apply Hinc. lia. }
    destruct (Hinside _ Hxi) as (k' & v & Hk' & Hseg & Hint & Hv & _).
    exists v. split; [done|]. rewrite Hv.
    assert (Hlt : px !!! k' < px !!! S k') by (apply Hinc; lia).
    destruct (lt_eq_lt_dec k k') as [[Hlt1|Heq]|Hgt].
    + assert (px !!! k < px !!! k') by (apply Hinc; lia). lra.
    + subst k'. unfold _interp1. field. lra.
    + destruct (decide (k = S k')) as [->|Hne].
      * unfold _interp1. field. lra.
      * assert (px !!! S k' < px !!! k) by (apply Hinc; lia). lra.
Qed.

(** A table of three nodes: 2 at 0, 4 at 1 and 0 at 3, with [NAN] outside. *)
Definition table_x : list R := [0; 1; 3].
Definition table_y : list R := [2; 4; 0].
Definition table : LinearInterpolation1d :=
  mkLinearInterpolation1d table_x table_y
    [(1 * 2 - 0 * 4) / (1 - 0); (3 * 4 - 1 * 0) / (3 - 1)]
    [(4 - 2) / (1 - 0); (0 - 4) / (3 - 1)] nan.

Lemma table_built : make_LinearInterpolation1d table_x table_y nan = Some table.
Proof.
  unfold make_LinearInterpolation1d, table_x, table_y, segment. simpl.
  case_Reqb (1 - 0) 0; [lra|]. simpl.
  case_Reqb (3 - 1) 0; [lra|]. reflexivity.
Qed.

Lemma table_increasing : increasing table_x.
Proof.
  intros i j Hij. simpl in Hij.
  destruct i as [|[|[|i]]], j as [|[|[|j]]]; simpl; try lia; lra.
Qed.

Lemma interpolate_spec_witness :
  (forall xi, xi < table_x !!! 0%nat \/ table_x !!! (length table_x - 1)%nat < xi ->
     interpolate table xi = Some nan) /\
  (forall xi, table_x !!! 0%nat <= xi <= table_x !!! (length table_x - 1)%nat ->
     exists k v,
       (S k < length table_x)%nat /\ table_x !!! k <= xi <= table_x !!! S k /\
       interpolate table xi = Some (finite v) /\
       v = _interp1 xi (table_x !!! k) (table_x !!! S k) (table_y !!! k) (table_y !!! S k) /\
       Rmin (table_y !!! k) (table_y !!! S k) <= v
         <= Rmax (table_y !!! k) (table_y !!! S k)) /\
  (forall k, (k < length table_x)%nat ->
     exists v, interpolate table (table_x !!! k) = Some (finite v) /\ v = table_y !!! k).
Proof.
  apply (interpolate_spec table_x table_y nan table table_built table_increasing);
    simpl; lia.
Defined.

End interp_facts.

(** ** The order of the layers of a wafer stack ([opl_capi.cpp]) *)

Module stack.
Import oplc wafer.

(** [WaferStack::WaferStack(ArrayOfSharedAbstractWaferLayers layers)]: the
    layers are pushed one by one; the first exception leaves the
    constructor. *)
Definition push_next (acc : exception + WaferStack) (layer : AbstractWaferLayer)
  : exception + WaferStack :=
  match acc with
  | inl e => inl e
  | inr st =>
      match push st layer with
      | (Some e, _) => inl e
      | (None, st') => inr st'
      end
  end.

Definition WaferStack_layers (layers : list AbstractWaferLayer) : exception + WaferStack :=
  foldl push_next (inr WaferStack_new) layers.

(** [WaferStack::is_ok] *)
Definition is_ok (st : WaferStack) : bool :=
  is_set (_environment st) && is_set (_resist st) && is_set (_substrate st).

Section Index.

(** The width of [size_t]. *)
Variable size_t_bits : Z.

(** The index of [WaferStack::operator[](int32_t i)]:
    [(this->_layers.size() + i) % this->_layers.size()], the sum taken in
    [size_t]; [None] on a stack without layers, where the remainder is
    undefined. *)
Definition index (st : WaferStack) (i : Z) : option nat :=
  let size := Z.of_nat (length (_layers st)) in
  if (size =? 0)%Z then None
  else Some (Z.to_nat (((size + i) mod 2 ^ size_t_bits) mod size)).

(** [WaferStack::operator[]] *)
Definition at_index (st : WaferStack) (i : Z) : option AbstractWaferLayer :=
  k ← index st i; _layers st !! k.

End Index.

End stack.

Module stack_facts.
Import oplc wafer stack.

(** The stacks that [push] builds from the empty one. *)
Inductive reachable : WaferStack -> Prop :=
  | reachable_new : reachable WaferStack_new
  | reachable_push st layer st' :
      reachable st -> push st layer = (None, st') -> reachable st'.

Definition below_resist (l : AbstractWaferLayer) : bool :=
  is_material l || is_substrate l.

(** From the top: the environment if it is set, the resist if it is set, then
    material and substrate layers only, the lowest of them a substrate;
    [_substrate] is the highest substrate of the stack. *)
Definition shape (st : WaferStack) : Prop :=
  exists below,
    _layers st = option_list (_environment st) ++ option_list (_resist st) ++ below /\
    from_option is_environment true (_environment st) = true /\
    from_option is_resist true (_resist st) = true /\
    forallb below_resist below = true /\
    _substrate st = List.find is_substrate below /\
    match last below with
    | Some s => is_substrate s = true
    | None => _environment st = None /\ _resist st = None
    end.

Lemma shape_new : shape WaferStack_new.
Proof. exists []. by repeat split. Qed.

Lemma shape_push (st st' : WaferStack) (layer : AbstractWaferLayer) :
  shape st -> push st layer = (None, st') -> shape st'.
Proof.
  intros (below & Hl & He & Hr & Hb & Hs & Hlast).
  unfold push, is_substrate, is_resist, is_environment, below_resist in *.
  destruct st as [ls r s e ct cb w]; simpl in *.
  destruct e as [e|]; simpl; [done|].
  destruct r as [r|], (type layer) eqn:Ht, (bool_decide (ls = [])) eqn:Hls;
    simpl; try done.
  all: intros Hst; injection Hst as Hst; subst st'.
  all: apply bool_decide_eq_false in Hls || apply bool_decide_eq_true in Hls.
  all: unfold shape, below_resist, is_environment, is_resist, is_substrate, is_material;
    cbn [_layers _resist _substrate _environment].
  - exists below. rewrite Hl. cbn. rewrite Ht. repeat split; try done.
    destruct (last below); [done|]. by destruct Hlast.
  - exists below. rewrite Hl. cbn. rewrite Ht. repeat split; try done.
    destruct below; [by subst ls|]. rewrite last_cons in *. by destruct (last below).
  - exists below. rewrite Hl. cbn. rewrite Ht. repeat split; try done.
    destruct below; [by subst ls|]. rewrite last_cons in *. by destruct (last below).
  - exists (layer :: below). rewrite Hl. cbn. rewrite Ht. cbn.
    repeat split; try done.
    destruct below; [by subst ls|]. rewrite ?last_cons. rewrite last_cons in Hlast.
    by destruct (last below).
  - exists [layer]. rewrite Hls. cbn. rewrite Ht. cbn. repeat split; try done.
  - exists (layer :: below). rewrite Hl. cbn. rewrite Ht. cbn.
    repeat split; try done.
    destruct below; [by subst ls|]. rewrite ?last_cons. rewrite last_cons in Hlast.
    by destruct (last below).
Qed.

Lemma push_layers (st st' : WaferStack) (layer : AbstractWaferLayer) :
  push st layer = (None, st') -> _layers st' = layer :: _layers st.
Proof.
  unfold push.
  repeat (match goal with |- context [if ?b then _ else _] => destruct b end; try done).
  all: by intros [= <-].
Qed.

Lemma reachable_shape (st : WaferStack) : reachable st -> shape st.
Proof.
  induction 1 as [|st layer st' _ IH Hpush]; [apply shape_new|].
  by apply (shape_push st st' layer).
Qed.

Lemma push_next_thrown (e : exception) (layers : list AbstractWaferLayer) :
  foldl push_next (inl e) layers = inl e.
Proof. induction layers as [|l layers IH]; [done|]. simpl. apply IH. Qed.

Lemma push_next_layers (layers : list AbstractWaferLayer) (st st' : WaferStack) :
  foldl push_next (inr st) layers = inr st' ->
  reachable st -> reachable st' /\ _layers st' = reverse layers ++ _layers st.
Proof.
  revert st. induction layers as [|l layers IH]; intros st; simpl.
  - intros [= ->] Hst. done.
  - destruct (push st l) as [[e|] st1] eqn:Hpush; [by rewrite push_next_thrown|].
    intros Hfold Hst.
    destruct (IH st1 Hfold) as [Hr Hl]; [by apply (reachable_push st l)|].
    split; [done|]. rewrite Hl, reverse_cons, <- app_assoc. simpl.
    by rewrite (push_layers st st1 l Hpush).
Qed.

(** The layer lists that the constructor takes: none, or a substrate, then
    material and substrate layers, then at most one resist and at most one
    environment, in this order. *)
Definition top_layers (top : list AbstractWaferLayer) : bool :=
  match top with
  | [] => true
  | [a] => is_resist a || is_environment a
  | [a; b] => is_resist a && is_environment b
  | _ => false
  end.

Definition accepted (layers : list AbstractWaferLayer) : Prop :=
  layers = [] \/
  exists s mids top,
    layers = s :: mids ++ top /\ is_substrate s = true /\
    forallb below_resist mids = true /\ top_layers top = true.

Lemma push_below (mids : list AbstractWaferLayer) (st : WaferStack) :
  _environment st = None -> _resist st = None -> _layers st <> [] ->
  forallb below_resist mids = true ->
  exists st', foldl push_next (inr st) mids = inr st' /\
    _environment st' = None /\ _resist st' = None /\ _layers st' <> [].
Proof.
  revert st. induction mids as [|l mids IH]; intros st He Hr Hl Hm; simpl.
  - by exists st.
  - simpl in Hm. apply andb_true_iff in Hm as [Hlm Hm].
    assert (Hpush : exists st1, push st l = (None, st1) /\ _environment st1 = None /\
                      _resist st1 = None /\ _layers st1 <> []).
    { unfold push, below_resist, is_material, is_substrate, is_resist, is_environment in *.
      rewrite He, Hr. simpl.
      destruct (bool_decide (_layers st = [])) eqn:Hd;
        [by apply bool_decide_eq_true in Hd|].
      destruct (type l); simpl in *; try done; eexists; by repeat split. }
    destruct Hpush as (st1 & -> & He1 & Hr1 & Hl1). by apply IH.
Qed.

Lemma WaferStack_layers_reachable (layers : list AbstractWaferLayer) (st : WaferStack) :
  WaferStack_layers layers = inr st ->
  reachable st /\ _layers st = reverse layers.
Proof.
  intros Hfold.
  destruct (push_next_layers layers WaferStack_new st Hfold reachable_new) as [Hr Hl].
  split; [done|]. by rewrite Hl, app_nil_r.
Qed.

(** The constructor from a list of layers returns a stack exactly for the
    lists that are empty or hold a substrate first, then material and
    substrate layers, then at most one resist and at most one environment;
    for every other list it throws.  The stack it returns holds the layers
    in the opposite order, the last one given first. *)
Lemma WaferStack_layers_accepted (layers : list AbstractWaferLayer) :
  (accepted layers <-> exists st, WaferStack_layers layers = inr st) /\
  (forall st, WaferStack_layers layers = inr st -> _layers st = reverse layers).
Proof.
  split; [split|].
  - intros [->|(s & mids & top & -> & Hs & Hm & Ht)]; [by exists WaferStack_new|].
    unfold WaferStack_layers. cbn [foldl push_next].
    assert (Hfirst : exists st1, push WaferStack_new s = (None, st1) /\
              _environment st1 = None /\ _resist st1 = None /\ _layers st1 <> []).
    { unfold push, is_substrate, is_resist, is_environment in *. simpl.
      destruct (type s); simpl in *; try done; eexists; by repeat split. }
    destruct Hfirst as (st1 & -> & He1 & Hr1 & Hl1). rewrite foldl_app.
    destruct (push_below mids st1 He1 Hr1 Hl1 Hm) as (st2 & -> & He2 & Hr2 & Hl2).
    destruct st2 as [ls r sub e ct cb w]. simpl in He2, Hr2, Hl2. subst r e.
    assert (Hd : bool_decide (ls = []) = false) by by apply bool_decide_eq_false.
    destruct top as [|a [|b [|c top]]]; simpl in Ht; [by eexists| | |done].
    + unfold is_resist, is_environment in Ht. cbn [foldl push_next].
      unfold push, is_substrate, is_resist, is_environment. simpl. rewrite Hd.
      destruct (type a); simpl in *; try done; by eexists.
    + apply andb_true_iff in Ht as [Ha Hb].
      unfold is_resist, is_environment in Ha, Hb. cbn [foldl push_next].
      unfold push, is_substrate, is_resist, is_environment. simpl. rewrite Hd.
      destruct (type a); simpl in *; try done.
      unfold push, is_substrate, is_resist, is_environment. simpl.
      destruct (type b); simpl in *; try done. by eexists.
  - intros (st & Hst).
    destruct (WaferStack_layers_reachable layers st Hst) as [Hr Hl].
    destruct (reachable_shape st Hr) as (below & Hls & He & Hres & Hb & _ & Hlast).
    rewrite Hl in Hls. apply (f_equal reverse) in Hls.
    rewrite reverse_involutive, !reverse_app in Hls.
    destruct (last below) as [s|] eqn:Hlb.
    + right. apply last_Some in Hlb as (mids & ->).
      rewrite reverse_app in Hls. simpl in Hls.
      exists s, (reverse mids), (reverse (option_list (_resist st))
                                  ++ reverse (option_list (_environment st))).
      split; [by rewrite Hls, <- app_assoc|]. split; [done|]. split.
      * apply forallb_forall. intros l Hin.
        apply (proj1 (forallb_forall _ _) Hb).
        apply in_or_app. left. apply list_elem_of_In.
        apply elem_of_reverse. by apply list_elem_of_In.
      * destruct (_resist st), (_environment st); simpl in *; try done.
        -- by rewrite Hres, He.
        -- by rewrite Hres.
        -- by rewrite He, orb_true_r.
    + left. destruct Hlast as [Henv Hrst]. rewrite Henv, Hrst in Hls.
      apply last_None in Hlb as ->. by rewrite Hls.
  - intros st Hst. by destruct (WaferStack_layers_reachable layers st Hst).
Qed.

(** On a stack that [push] has built, [is_ok] means: the environment lies on
    top, the resist right below it, under them only material and substrate
    layers, and the lowest layer is a substrate.  [_substrate] is the highest
    substrate of the stack, which need not be the lowest layer. *)
Lemma is_ok_stack (st : WaferStack) :
  reachable st -> is_ok st = true ->
  exists e r below s,
    _layers st = e :: r :: below ++ [s] /\
    _environment st = Some e /\ _resist st = Some r /\
    is_environment e = true /\ is_resist r = true /\
    forallb below_resist below = true /\ is_substrate s = true /\
    _substrate st = List.find is_substrate (below ++ [s]).
Proof.
  intros Hr Hok.
  destruct (reachable_shape st Hr) as (below & Hls & He & Hres & Hb & Hsub & Hlast).
  unfold is_ok in Hok.
  destruct (_environment st) as [e|]; [|done].
  destruct (_resist st) as [r|]; [|done]. simpl in *.
  destruct (last below) as [s|] eqn:Hlb; [|by destruct Hlast].
  apply last_Some in Hlb as (mids & ->).
  exists e, r, mids, s. repeat split; try done.
  rewrite forallb_app in Hb. by apply andb_true_iff in Hb as [Hb _].
Qed.

(** [operator[]] on a stack of [size] layers, [0 < size < 2^31], with a
    [size_t] of 32 bits or more: from [-size] upwards the index goes round
    the stack, [-1] being the last layer and [size] the first again; below
    [-size] the sum has wrapped in [size_t], and the layer returned is the
    one at [(i + 2^size_t_bits) mod size].  In both cases the index lies in
    the stack. *)
Lemma index_circular (size_t_bits : Z) (st : WaferStack) (i : Z) :
  (32 <= size_t_bits)%Z -> (- 2 ^ 31 <= i < 2 ^ 31)%Z ->
  (0 < Z.of_nat (length (_layers st)) < 2 ^ 31)%Z ->
  index size_t_bits st i
  = Some (Z.to_nat (if (- Z.of_nat (length (_layers st)) <=? i)%Z
                    then i mod Z.of_nat (length (_layers st))
                    else (i + 2 ^ size_t_bits) mod Z.of_nat (length (_layers st)))%Z) /\
  is_Some (at_index size_t_bits st i).
Proof.
  intros Hbits Hi Hsize. unfold at_index, index.
  set (size := Z.of_nat (length (_layers st))) in *.
  assert (Hpow : (2 ^ 32 <= 2 ^ size_t_bits)%Z) by (apply Z.pow_le_mono_r; lia).
  change (2 ^ 32)%Z with 4294967296%Z in Hpow.
  change (2 ^ 31)%Z with 2147483648%Z in Hi, Hsize.
  destruct (Z.eqb_spec size 0) as [|_]; [lia|].
  assert (Hidx : (((size + i) mod 2 ^ size_t_bits) mod size
                  = if - size <=? i then i mod size
                    else (i + 2 ^ size_t_bits) mod size)%Z).
  { destruct (Z.leb_spec (- size) i) as [Hge|Hlt].
    - rewrite (Z.mod_small (size + i) (2 ^ size_t_bits)) by lia.
      replace (size + i)%Z with (i + 1 * size)%Z by lia. by rewrite Z_mod_plus_full.
    - replace ((size + i) mod 2 ^ size_t_bits)%Z with (size + i + 2 ^ size_t_bits)%Z.
      + replace (size + i + 2 ^ size_t_bits)%Z
          with (i + 2 ^ size_t_bits + 1 * size)%Z by lia.
        by rewrite Z_mod_plus_full.
      + apply (Z.mod_unique _ _ (-1)); lia. }
  rewrite Hidx. split; [done|]. cbn [mbind option_bind].
  apply lookup_lt_is_Some.
  assert (Hb1 := Z.mod_pos_bound i size ltac:(lia)).
  assert (Hb2 := Z.mod_pos_bound (i + 2 ^ size_t_bits) size ltac:(lia)).
  destruct (- size <=? i)%Z; unfold size in *; lia.
Qed.

End stack_facts.

(** *** A stack of four layers *)

Module stack_examples.
Import oplc wafer stack stack_facts wafer_examples.

Definition oxide : AbstractWaferLayer :=
  mkWaferLayer MATERIAL_LAYER 100 (fun _ => mk_cx 1.5 0).
Definition photoresist : AbstractWaferLayer :=
  mkWaferLayer RESIST_LAYER 500 (fun _ => mk_cx 1.7 0.02).

Definition coated_wafer : WaferStack :=
  mkWaferStack [air; photoresist; oxide; silicon]
    (Some photoresist) (Some silicon) (Some air) [] [] (-1).

Lemma coated_wafer_built :
  WaferStack_layers [silicon; oxide; photoresist; air] = inr coated_wafer.
Proof. reflexivity. Qed.

Lemma coated_wafer_reachable : reachable coated_wafer.
Proof.
  apply (WaferStack_layers_reachable [silicon; oxide; photoresist; air]).
  apply coated_wafer_built.
Qed.

Lemma is_ok_stack_witness :
  exists e r below s,
    _layers coated_wafer = e :: r :: below ++ [s] /\
    _environment coated_wafer = Some e /\ _resist coated_wafer = Some r /\
    is_environment e = true /\ is_resist r = true /\
    forallb below_resist below = true /\ is_substrate s = true /\
    _substrate coated_wafer = List.find is_substrate (below ++ [s]).
Proof.
  apply (is_ok_stack coated_wafer coated_wafer_reachable). reflexivity.
Defined.

Lemma index_circular_witness :
  index 64 coated_wafer (-1)
  = Some (Z.to_nat (if (- Z.of_nat (length (_layers coated_wafer)) <=? -1)%Z
                    then (-1) mod Z.of_nat (length (_layers coated_wafer))
                    else (-1 + 2 ^ 64) mod Z.of_nat (length (_layers coated_wafer)))%Z) /\
  is_Some (at_index 64 coated_wafer (-1)).
Proof.
  apply (index_circular 64 coated_wafer (-1)); simpl; lia.
Defined.

End stack_examples.

(** *** The orders that the diffraction grid holds *)

Module diffraction_grid.
Import geometry oplc.

Lemma Zfloor_ge (n : Z) (x : R) : (n <= Zfloor x)%Z <-> IZR n <= x.
Proof.
  split; intros H.
  - apply IZR_le in H. destruct (Zfloor_bound x). lra.
  - by apply Zfloor_lub.
Qed.

Lemma scaled_le (a n wvl pitch : R) :
  0 < wvl -> 0 < pitch -> n <= a / wvl * pitch <-> n * wvl / pitch <= a.
Proof.
  intros Hw Hp.
  assert (Heq : a / wvl * pitch - n = (a - n * wvl / pitch) * (pitch / wvl))
    by (field; lra).
  assert (Hpos : 0 < pitch / wvl) by (apply Rdiv_lt_0_compat; lra).
  split; intros H.
  - assert (0 <= (a - n * wvl / pitch) * (pitch / wvl)) by lra. nra.
  - assert (0 <= (a - n * wvl / pitch) * (pitch / wvl)) by nra. lra.
Qed.



End diffraction_grid.

(** *** The direction cosines of the source grid *)

Module source_grid.
Import geometry oplc arma_facts diffraction_facts.

Lemma Zfloor_half (c : Z) : Zfloor (IZR c / 2) = (c / 2)%Z.
Proof.
  assert (Hdm := Z.div_mod c 2 ltac:(lia)).
  assert (Hmb := Z.mod_pos_bound c 2 ltac:(lia)).
  apply Zfloor_eq.
  assert (Hc : IZR c = 2 * IZR (c / 2) + IZR (c mod 2)).
  { rewrite <- mult_IZR, <- plus_IZR. by f_equal. }
  assert (H0 : 0 <= IZR (c mod 2)) by (apply IZR_le; lia).
  assert (H1 : IZR (c mod 2) <= 1) by (apply IZR_le; lia).
  lra.
Qed.



(** *** The non-zero points of the source and their limits *)

Lemma fold_min_spec (l : list nat) (x : nat) :
  (fold_left Nat.min l x = x \/ fold_left Nat.min l x ∈ l) /\
  (fold_left Nat.min l x <= x)%nat /\
  (forall y, y ∈ l -> (fold_left Nat.min l x <= y)%nat).
Proof.
  revert x. induction l as [|a l IH]; intros x; simpl.
  - split; [by left|]. split; [lia|]. intros y Hy. by apply elem_of_nil in Hy.
  - destruct (IH (Nat.min x a)) as (Hmem & Hle & Hall). split; [|split].
    + destruct Hmem as [Heq|Hin].
      * rewrite Heq. destruct (Nat.min_spec x a) as [[_ ->]|[_ ->]]; [by left|].
        right. apply list_elem_of_here.
      * right. by apply list_elem_of_further.
    + lia.
    + intros y [->|Hy]%elem_of_cons; [lia|by apply Hall].
Qed.

Lemma fold_max_spec (l : list nat) (x : nat) :
  (fold_left Nat.max l x = x \/ fold_left Nat.max l x ∈ l) /\
  (x <= fold_left Nat.max l x)%nat /\
  (forall y, y ∈ l -> (y <= fold_left Nat.max l x)%nat).
Proof.
  revert x. induction l as [|a l IH]; intros x; simpl.
  - split; [by left|]. split; [lia|]. intros y Hy. by apply elem_of_nil in Hy.
  - destruct (IH (Nat.max x a)) as (Hmem & Hle & Hall). split; [|split].
    + destruct Hmem as [Heq|Hin].
      * rewrite Heq. destruct (Nat.max_spec x a) as [[_ ->]|[_ ->]]; [|by left].
        right. apply list_elem_of_here.
      * right. by apply list_elem_of_further.
    + lia.
    + intros y [->|Hy]%elem_of_cons; [lia|by apply Hall].
Qed.

Lemma min_index_spec (l : list nat) (m : nat) :
  min_index l = Some m -> m ∈ l /\ forall y, y ∈ l -> (m <= y)%nat.
Proof.
  destruct l as [|x l]; [done|]. simpl. intros [= <-].
  destruct (fold_min_spec l x) as (Hmem & Hle & Hall). split.
  - destruct Hmem as [->|Hin]; [apply list_elem_of_here|by apply list_elem_of_further].
  - intros y [->|Hy]%elem_of_cons; [done|by apply Hall].
Qed.

Lemma max_index_spec (l : list nat) (m : nat) :
  max_index l = Some m -> m ∈ l /\ forall y, y ∈ l -> (y <= m)%nat.
Proof.
  destruct l as [|x l]; [done|]. simpl. intros [= <-].
  destruct (fold_max_spec l x) as (Hmem & Hle & Hall). split.
  - destruct Hmem as [->|Hin]; [apply list_elem_of_here|by apply list_elem_of_further].
  - intros y [->|Hy]%elem_of_cons; [done|by apply Hall].
Qed.

(** The entries of [_get_non_zeros_indexes] on the intensities of a grid:
    the pairs (row, column) of the grid points at which the model is not
    zero. *)
Lemma non_zeros_spec (cx cy : list R) (model : R -> R -> R) (r c : nat) :
  (r, c) ∈ _get_non_zeros_indexes (ss_init_values cx cy model) <->
  exists x y, cx !! c = Some x /\ cy !! r = Some y /\ model x y <> 0.
Proof.
  unfold _get_non_zeros_indexes, ss_init_values. cbn [n_rows].
  rewrite list_elem_of_fmap. split.
  - intros (i & [= -> ->] & Hi). apply elem_of_mat_find in Hi as (v & Hv & Htest).
    cbn [mem] in Hv. assert (Hlt := lookup_lt_Some _ _ _ Hv).
    rewrite block_length in Hlt.
    assert (Hn : (0 < length cy)%nat) by (destruct (length cy); lia).
    assert (Hr : (i mod length cy < length cy)%nat) by (apply Nat.mod_upper_bound; lia).
    assert (Hc : (i / length cy < length cx)%nat)
      by (apply Nat.Div0.div_lt_upper_bound; lia).
    destruct (lookup_lt_is_Some_2 cx _ Hc) as [x Hx].
    destruct (lookup_lt_is_Some_2 cy _ Hr) as [y Hy].
    exists x, y. split; [done|]. split; [done|].
    assert (Hb := block_lookup model cx cy _ _ x y Hx Hy).
    replace (i / length cy * length cy + i mod length cy)%nat with i in Hb
      by (rewrite (Nat.div_mod_eq i (length cy)) at 1; lia).
    rewrite Hv in Hb. injection Hb as <-.
    apply negb_true_iff in Htest. by apply Reqb_false_iff in Htest.
  - intros (x & y & Hx & Hy & Hne).
    assert (Hr := lookup_lt_Some _ _ _ Hy).
    exists (c * length cy + r)%nat. split.
    + f_equal.
      * rewrite Nat.add_comm, Nat.Div0.mod_add. symmetry. by apply Nat.mod_small.
      * rewrite Nat.add_comm, Nat.div_add by lia. rewrite Nat.div_small by done. done.
    + apply elem_of_mat_find. exists (model x y). split.
      * cbn [mem]. by apply block_lookup.
      * apply negb_true_iff. by apply Reqb_false_iff.
Qed.

(** [_get_limits] on the non-zero points of a grid: it fails when there is
    none, and otherwise reads the cosines at the least and the greatest
    column and row that hold one. *)
Lemma get_limits_cases (cx cy : list R) (model : R -> R -> R) :
  let nz := _get_non_zeros_indexes (ss_init_values cx cy model) in
  (nz = [] /\ _get_limits nz cx cy = None) \/
  (exists r_min r_max c_min c_max sx_min sx_max sy_min sy_max,
     _get_limits nz cx cy = Some (sx_min, sx_max, sy_min, sy_max) /\
     (r_min ∈ map fst nz /\ forall r, r ∈ map fst nz -> (r_min <= r)%nat) /\
     (r_max ∈ map fst nz /\ forall r, r ∈ map fst nz -> (r <= r_max)%nat) /\
     (c_min ∈ map snd nz /\ forall c, c ∈ map snd nz -> (c_min <= c)%nat) /\
     (c_max ∈ map snd nz /\ forall c, c ∈ map snd nz -> (c <= c_max)%nat) /\
     cx !! c_min = Some sx_min /\ cx !! c_max = Some sx_max /\
     cy !! r_min = Some sy_min /\ cy !! r_max = Some sy_max).
Proof.
  intros nz. destruct nz as [|p nz'] eqn:Hnz; [by left|]. right.
  rewrite <- Hnz. unfold _get_limits.
  assert (Hne : forall l : list nat, l <> [] ->
            (exists m, min_index l = Some m) /\ (exists m, max_index l = Some m)).
  { intros [|x l] Hl; [done|]. split; by eexists. }
  assert (Hf : map fst nz <> []) by (by rewrite Hnz).
  assert (Hs : map snd nz <> []) by (by rewrite Hnz).
  destruct (Hne _ Hf) as [[r_min Hrmin] [r_max Hrmax]].
  destruct (Hne _ Hs) as [[c_min Hcmin] [c_max Hcmax]].
  rewrite Hrmin, Hrmax, Hcmin, Hcmax. cbn [mbind option_bind].
  apply min_index_spec in Hrmin as Hrmin', Hcmin as Hcmin'.
  apply max_index_spec in Hrmax as Hrmax', Hcmax as Hcmax'.
  assert (Hcol : forall c, c ∈ map snd nz -> is_Some (cx !! c)).
  { intros c ([r c'] & -> & Hin)%list_elem_of_fmap.
    apply non_zeros_spec in Hin as (x & y & Hx & _). by exists x. }
  assert (Hrow : forall r, r ∈ map fst nz -> is_Some (cy !! r)).
  { intros r ([r' c] & -> & Hin)%list_elem_of_fmap.
    apply non_zeros_spec in Hin as (x & y & _ & Hy & _). by exists y. }
  destruct (Hcol c_min (proj1 Hcmin')) as [sx_min Hsxmin].
  destruct (Hcol c_max (proj1 Hcmax')) as [sx_max Hsxmax].
  destruct (Hrow r_min (proj1 Hrmin')) as [sy_min Hsymin].
  destruct (Hrow r_max (proj1 Hrmax')) as [sy_max Hsymax].
  rewrite Hsxmin, Hsxmax, Hsymin, Hsymax. cbn [mbind option_bind].
  exists r_min, r_max, c_min, c_max, sx_min, sx_max, sy_min, sy_max.
  do 8 (split; [done|]). done.
Qed.


Lemma init_vectors_increasing (step : R) (i j : nat) (x y : R) :
  0 < step -> (i <= j)%nat ->
  snd (ss_init_vectors step) !! i = Some x -> snd (ss_init_vectors step) !! j = Some y ->
  x <= y.
Proof.
  intros Hstep Hij. unfold ss_init_vectors. cbn [snd].
  rewrite !list_lookup_fmap. intros Hx Hy.
  destruct (seq 0 _ !! i) as [i'|] eqn:Hi; [|done].
  destruct (seq 0 _ !! j) as [j'|] eqn:Hj; [|done].
  apply lookup_seq in Hi as [-> _]. apply lookup_seq in Hj as [-> _].
  simpl in Hx, Hy. injection Hx as <-. injection Hy as <-.
  apply Rmult_le_compat_r; [lra|]. apply IZR_le. lia.
Qed.

(** A source built on steps that are positive: its non-zero points are the
    grid points at which the model is not zero; each of them lies within the
    limits [_sx_min], [_sx_max], [_sy_min], [_sy_max], and each limit is the
    cosine of one of them. *)
Lemma source_limits_support (model : R -> R -> R) (stepx stepy : R) (ss : SourceShape) :
  0 < stepx -> 0 < stepy -> make_SourceShape model stepx stepy = Some ss ->
  (forall r c, (r, c) ∈ ss_non_zeros ss <->
     exists x y, ss_cx ss !! c = Some x /\ ss_cy ss !! r = Some y /\ model x y <> 0) /\
  (forall x y, x ∈ ss_cx ss -> y ∈ ss_cy ss -> model x y <> 0 ->
     _sx_min ss <= x <= _sx_max ss /\ _sy_min ss <= y <= _sy_max ss) /\
  (exists y, y ∈ ss_cy ss /\ model (_sx_min ss) y <> 0) /\
  (exists y, y ∈ ss_cy ss /\ model (_sx_max ss) y <> 0) /\
  (exists x, x ∈ ss_cx ss /\ model x (_sy_min ss) <> 0) /\
  (exists x, x ∈ ss_cx ss /\ model x (_sy_max ss) <> 0).
Proof.
  intros Hstepx Hstepy. unfold make_SourceShape, SourceShape_of_grid.
  set (cx := snd (ss_init_vectors stepx)). set (cy := snd (ss_init_vectors stepy)).
  destruct (get_limits_cases cx cy model) as [[_ ->]|Hsome]; [done|].
  destruct Hsome as (r_min & r_max & c_min & c_max & sx_min & sx_max & sy_min & sy_max
                     & -> & [Hrmin Hrle] & [Hrmax Hrge] & [Hcmin Hcle] & [Hcmax Hcge]
                     & Hsxmin & Hsxmax & Hsymin & Hsymax).
  cbn. intros [= <-]. cbn.
  split; [intros r c; apply non_zeros_spec|]. split.
  - intros x y [c Hc]%list_elem_of_lookup [r Hr]%list_elem_of_lookup Hne.
    assert (Hin : (r, c) ∈ _get_non_zeros_indexes (ss_init_values cx cy model))
      by (apply non_zeros_spec; eauto).
    assert (Hcin : c ∈ map snd (_get_non_zeros_indexes (ss_init_values cx cy model)))
      by (apply list_elem_of_fmap; by exists (r, c)).
    assert (Hrin : r ∈ map fst (_get_non_zeros_indexes (ss_init_values cx cy model)))
      by (apply list_elem_of_fmap; by exists (r, c)).
    repeat split.
    + by apply (init_vectors_increasing stepx c_min c); [|apply Hcle|..].
    + by apply (init_vectors_increasing stepx c c_max); [|apply Hcge|..].
    + by apply (init_vectors_increasing stepy r_min r); [|apply Hrle|..].
    + by apply (init_vectors_increasing stepy r r_max); [|apply Hrge|..].
  - assert (Hcolumn : forall c s, c ∈ map snd (_get_non_zeros_indexes
                                                 (ss_init_values cx cy model)) ->
              cx !! c = Some s -> exists y, y ∈ cy /\ model s y <> 0).
    { intros c s ([r c'] & -> & Hin)%list_elem_of_fmap Hs.
      apply non_zeros_spec in Hin as (x & y & Hx & Hy & Hne). simpl in Hs.
      assert (x = s) as -> by congruence.
      exists y. split; [by eapply list_elem_of_lookup_2|done]. }
    assert (Hline : forall r s, r ∈ map fst (_get_non_zeros_indexes
                                               (ss_init_values cx cy model)) ->
              cy !! r = Some s -> exists x, x ∈ cx /\ model x s <> 0).
    { intros r s ([r' c] & -> & Hin)%list_elem_of_fmap Hs.
      apply non_zeros_spec in Hin as (x & y & Hx & Hy & Hne). simpl in Hs.
      assert (y = s) as -> by congruence.
      exists x. split; [by eapply list_elem_of_lookup_2|done]. }
    repeat split; eauto.
Qed.

(** A source of uniform intensity on the grid of step 1. *)
Definition uniform (x y : R) : R := 1.

Lemma uniform_grid : ss_init_vectors 1 = ([-1; 0; 1]%Z, [-1 * 1; 0 * 1; 1 * 1]).
Proof.
  unfold ss_init_vectors, _clim.
  assert (Hcount : trunc (2 * 1 / 1 + 1) = 3%Z).
  { unfold trunc. case_Rltb (2 * 1 / 1 + 1) 0; [lra|]. apply Zfloor_eq. lra. }
  rewrite Hcount.
  assert (Hmedian : trunc (3 / 2) = 1%Z).
  { unfold trunc. case_Rltb (3 / 2) 0; [lra|]. apply Zfloor_eq. lra. }
  rewrite Hmedian. reflexivity.
Qed.

Lemma uniform_source_built : exists ss, make_SourceShape uniform 1 1 = Some ss.
Proof.
  unfold make_SourceShape. rewrite uniform_grid. cbn [snd].
  unfold SourceShape_of_grid, _get_non_zeros_indexes, ss_init_values, mat_find, uniform.
  cbn. case_Reqb 1 0; [lra|]. cbn. by eexists.
Qed.

Lemma source_limits_support_witness :
  exists ss, make_SourceShape uniform 1 1 = Some ss /\
  (forall r c, (r, c) ∈ ss_non_zeros ss <->
     exists x y, ss_cx ss !! c = Some x /\ ss_cy ss !! r = Some y /\ uniform x y <> 0) /\
  (forall x y, x ∈ ss_cx ss -> y ∈ ss_cy ss -> uniform x y <> 0 ->
     _sx_min ss <= x <= _sx_max ss /\ _sy_min ss <= y <= _sy_max ss) /\
  (exists y, y ∈ ss_cy ss /\ uniform (_sx_min ss) y <> 0) /\
  (exists y, y ∈ ss_cy ss /\ uniform (_sx_max ss) y <> 0) /\
  (exists x, x ∈ ss_cx ss /\ uniform x (_sy_min ss) <> 0) /\
  (exists x, x ∈ ss_cx ss /\ uniform x (_sy_max ss) <> 0).
Proof.
  destruct uniform_source_built as [ss Hss]. exists ss. split; [exact Hss|].
  apply (source_limits_support uniform 1 1 ss); [lra|lra|exact Hss].
Defined.

End source_grid.

(** ** Defocus and flare ([opl_capi.cpp]) *)

Module transfer.
Import geometry oplc resist volume.

(** [Exposure::defocus]: [std::exp(2*M_PI*j*opd/wvl)] with
    [opd = focus*(1 - sqrt(1 - cxy2))]; [None] where the root or the
    quotient is no finite number. *)
Definition defocus (e : Exposure) (cx cy wvl : R) : option cx_double :=
  if negb (Reqb (focus e) 0) then
    let cxy2 := cx * cx + cy * cy in
    root ← fsqrt (1 - cxy2);
    let opd := focus e * (1 - root) in
    if Reqb wvl 0 then None
    else Some (c_exp (c_divv (c_muls (c_scale (2 * M_PI) j) opd) wvl))
  else Some (mk_cx 1 0).

(** [ImagingTool::flare]: every element of the cube behind [intensity]
    becomes [_flare + (1 - _flare) * element], in place. *)
Definition flare (_flare : R) (h : heap) (intensity : ResistVolume) : option heap :=
  if negb (Reqb _flare 0) then
    values ← h !! _values intensity;
    Some (<[_values intensity := cube_map (fun v => _flare + (1 - _flare) * v) values]> h)
  else Some h.

End transfer.

Module transfer_facts.
Import geometry oplc resist volume transfer peb_bounds.

(** Within the unit circle of direction cosines and at a wavelength that is
    not zero the defocus is a number of modulus 1: it turns the phase and
    leaves the amplitude.  On the axis it is 1, whatever the focus. *)
Lemma defocus_phase_only (e : Exposure) (cx cy wvl : R) :
  cx * cx + cy * cy <= 1 -> wvl <> 0 ->
  exists v, defocus e cx cy wvl = Some v /\
    re v * re v + im v * im v = 1 /\
    (cx = 0 -> cy = 0 -> v = mk_cx 1 0).
Proof.
  intros Hin Hw. unfold defocus, fsqrt.
  case_Reqb (focus e) 0; simpl.
  - exists (mk_cx 1 0). split; [done|]. split; [simpl; lra|done].
  - case_Rltb (1 - (cx * cx + cy * cy)) 0; [lra|]. simpl.
    case_Reqb wvl 0; [done|].
    eexists. split; [reflexivity|]. unfold c_exp, c_divv, c_muls, c_scale, j. simpl.
    replace (2 * M_PI * 0 * (focus e * (1 - sqrt (1 - (cx * cx + cy * cy)))) / wvl)
      with 0 by (field; lra).
    rewrite exp_0, !Rmult_1_l. split.
    + set (t := 2 * M_PI * 1 * _ / wvl).
      assert (H := sin2_cos2 t). unfold Rsqr in H. lra.
    + intros -> ->.
      replace (1 - (0 * 0 + 0 * 0)) with 1 by lra. rewrite sqrt_1.
      replace (2 * M_PI * 1 * (focus e * (1 - 1)) / wvl) with 0 by (field; lra).
      by rewrite cos_0, sin_0.
Qed.

Lemma defocus_phase_only_witness :
  exists v, defocus (mkExposure (-0.2) 20 1) 0.3 0.4 248 = Some v /\
    re v * re v + im v * im v = 1 /\
    (0.3 = 0 -> 0.4 = 0 -> v = mk_cx 1 0).
Proof. apply (defocus_phase_only (mkExposure (-0.2) 20 1) 0.3 0.4 248); lra. Defined.

(** A flare between 0 and 1 on an image whose values lie between 0 and 1:
    the image is changed in place, keeps its sizes, and its values lie
    between the flare and 1; no other cube of the store is touched. *)
Lemma flare_range (_flare : R) (h : heap) (intensity : ResistVolume) (I : cube) :
  0 <= _flare <= 1 -> h !! _values intensity = Some I -> cube_within I 0 1 ->
  exists (h' : heap) (F : cube),
    flare _flare h intensity = Some h' /\ h' !! _values intensity = Some F /\
    cube_n_rows F = cube_n_rows I /\ cube_n_cols F = cube_n_cols I /\
    cube_n_slices F = cube_n_slices I /\
    cube_within F _flare 1 /\
    (forall p, p <> _values intensity -> h' !! p = h !! p).
Proof.
  intros Hf HI Hin. unfold flare. case_Reqb _flare 0; simpl.
  - exists h, I. subst _flare. do 6 (split; [done|]). done.
  - rewrite HI. simpl.
    exists (<[_values intensity := cube_map (fun v => _flare + (1 - _flare) * v) I]> h),
           (cube_map (fun v => _flare + (1 - _flare) * v) I).
    split; [done|]. split; [by rewrite lookup_insert_eq|]. do 3 (split; [done|]).
    split.
    + intros r c s Hr Hc Hs. simpl. specialize (Hin r c s Hr Hc Hs). nra.
    + intros p Hp. by rewrite lookup_insert_ne.
Qed.

Import resist_examples.

Lemma flare_range_witness :
  exists (h' : heap) (F : cube),
    flare 0.05 {[0%nat := impulse]} impulse_volume = Some h' /\
    h' !! _values impulse_volume = Some F /\
    cube_n_rows F = cube_n_rows impulse /\ cube_n_cols F = cube_n_cols impulse /\
    cube_n_slices F = cube_n_slices impulse /\
    cube_within F 0.05 1 /\
    (forall p, p <> _values impulse_volume -> h' !! p = ({[0%nat := impulse]} : heap) !! p).
Proof.
  apply (flare_range 0.05 {[0%nat := impulse]} impulse_volume impulse).
  - lra.
  - apply lookup_singleton_eq.
  - intros r c s Hr Hc Hs. simpl. destruct (s =? 0)%nat; lra.
Defined.

End transfer_facts.
